(** * ToSidewalk: the street-network topology engine

    A shallow embedding of [ToSidewalk/nodes.py] and [ToSidewalk/network.py]:
    the graph store ([Nodes], [Network]), the topology operations, the
    street splitter, the two-way cleaner, the polyline simplifier, the
    parallel-segment detector, the overlap segmentation used by the street
    merger, the connected-way joiner, the adjacency refresh and the
    bounding box, followed by the properties established about them. *)

From Stdlib Require Import QArith Qround Qabs Qminmax Lqa.
From stdpp Require Import gmap strings list fin_maps sorting pretty.

Local Open Scope string_scope.

(** ** Exceptions and fallible computations

    Python exceptions that the modelled code can raise.  A computation
    either returns a value or raises; an exception that is not caught
    aborts the call, so the state it had reached is not observable. *)

Inductive exn : Set :=
| KeyError | AttributeError | ValueError | IndexError | ZeroDivisionError.

Inductive res (A : Type) : Type :=
| Ok (a : A)
| Raise (e : exn).
Arguments Ok {A} a.
Arguments Raise {A} e.

#[export] Instance res_bind : MBind res := λ A B k m,
  match m with
  | Ok a => k a
  | Raise e => Raise e
  end.

Fixpoint mapM_res {A B} (f : A → res B) (l : list A) : res (list B) :=
  match l with
  | [] => Ok []
  | x :: l' => y ← f x ; r ← mapM_res f l' ; Ok (y :: r)
  end.

(** [try: ... except KeyError: handler]. *)
Definition catch_KeyError {A} (m : res A) (handler : res A) : res A :=
  match m with
  | Raise KeyError => handler
  | r => r
  end.

(** ** Data model *)

(** [nodes.Node]: the id, the position (latitude, longitude; Python floats,
    modelled as exact rationals), the list [way_ids] of incident way ids
    (a Python list: order and repetitions are kept) and the threshold
    [min_intersection_cardinality]. *)
Record Node : Type := mkNode {
  node_id : string;
  lat : Q;
  lng : Q;
  way_ids : list string;
  min_intersection_cardinality : nat
}.

(** [Node(nid, lat, lng)]. *)
Definition new_node (nid : string) (la ln : Q) : Node :=
  mkNode nid la ln [] 2.

Definition set_way_ids (l : list string) (n : Node) : Node :=
  mkNode (node_id n) (lat n) (lng n) l (min_intersection_cardinality n).

(** Modelled from the spec: [ways.py] is not part of the sources.  A way
    (a [Street]) has an identity, an ordered sequence [nids] of node ids
    and a type tag; [Street(wid, nids, type)] builds one, the type being
    [None] when it is not given. *)
Record Street : Type := mkStreet {
  way_id : string;
  nids : list string;
  wtype : option string
}.

Definition set_nids (l : list string) (w : Street) : Street :=
  mkStreet (way_id w) l (wtype w).

(** [network.Network]: the node store ([nodes.Nodes], a dict keyed by node
    id) and the way store (a dict keyed by way id).  The bounding box plays
    no part in the topology operations and is left out. *)
Record Network : Type := mkNetwork {
  nodes : gmap string Node;
  ways : gmap string Street
}.

Definition set_nodes (ns : gmap string Node) (net : Network) : Network :=
  mkNetwork ns (ways net).
Definition set_ways (ws : gmap string Street) (net : Network) : Network :=
  mkNetwork (nodes net) ws.

(** ** [nodes.py] *)

(** [Node.append_way]. *)
Definition append_way (wid : string) (n : Node) : Node :=
  set_way_ids (way_ids n ++ [wid]) n.

(** [list.remove(x)] guarded by [x in list]: drops the first occurrence. *)
Fixpoint remove_first (x : string) (l : list string) : list string :=
  match l with
  | [] => []
  | y :: l' => if decide (x = y) then l' else y :: remove_first x l'
  end.

(** [Node.remove_way_id]. *)
Definition remove_way_id (wid : string) (n : Node) : Node :=
  set_way_ids (remove_first wid (way_ids n)) n.

(** [Node.is_intersection]. *)
Definition is_intersection (n : Node) : bool :=
  bool_decide (min_intersection_cardinality n ≤ length (way_ids n))%nat.

(** [Nodes.get] returns [None] for an id that is not stored; using the
    result ([node.way_ids], a method call) then raises [AttributeError]. *)
Definition deref_node (net : Network) (nid : string) : res Node :=
  match nodes net !! nid with
  | Some n => Ok n
  | None => Raise AttributeError
  end.

(** [Nodes.remove]: [del self.nodes[nid]]. *)
Definition nodes_remove (nid : string) (ns : gmap string Node)
  : res (gmap string Node) :=
  match ns !! nid with
  | Some _ => Ok (delete nid ns)
  | None => Raise KeyError
  end.

(** Modelled from the spec: the way store of [ways.py] "provides
    add/get/remove primitives" like the node store.  What [get] does for an
    id that is not stored is not said: either it returns [None], and the
    first use of the result raises [AttributeError] (as with [Nodes.get]),
    or it raises [KeyError] itself.  The operations take the behaviour as a
    parameter. *)
Inductive way_store : Set := GetReturnsNone | GetRaises.

(** [self.ways.get(wid)]. *)
Definition get_way (s : way_store) (net : Network) (wid : string)
  : res (option Street) :=
  match ways net !! wid, s with
  | Some w, _ => Ok (Some w)
  | None, GetReturnsNone => Ok None
  | None, GetRaises => Raise KeyError
  end.

(** The first use of the result of [get]: [way.nids], a method call. *)
Definition use_way (o : option Street) : res Street :=
  match o with
  | Some w => Ok w
  | None => Raise AttributeError
  end.

(** The exception of a look-up of an absent way whose result is used at
    once. *)
Definition absent_way (s : way_store) : exn :=
  match s with
  | GetReturnsNone => AttributeError
  | GetRaises => KeyError
  end.

(** [self.ways.get(wid)] used at once, as in [self.ways.get(wid).nids]. *)
Definition deref_way (s : way_store) (net : Network) (wid : string)
  : res Street :=
  match ways net !! wid with
  | Some w => Ok w
  | None => Raise (absent_way s)
  end.

(** Modelled from the spec: [Streets.remove], [del self.ways[wid]]. *)
Definition ways_remove (wid : string) (ws : gmap string Street)
  : res (gmap string Street) :=
  match ws !! wid with
  | Some _ => Ok (delete wid ws)
  | None => Raise KeyError
  end.

(** ** [Network]: the graph store and the topology operations *)

(** [Network.add_node]: [self.nodes.add(node)], stored under the node's own
    id. *)
Definition add_node (node : Node) (net : Network) : Network :=
  set_nodes (<[node_id node := node]> (nodes net)) net.

(** The loop of [add_way]:
    [for nid in way.nids: self.nodes.get(nid).way_ids.append(way.id)]. *)
Fixpoint attach_way (wid : string) (l : list string) (ns : gmap string Node)
  : res (gmap string Node) :=
  match l with
  | [] => Ok ns
  | nid :: l' =>
      match ns !! nid with
      | None => Raise AttributeError
      | Some n => attach_way wid l' (<[nid := append_way wid n]> ns)
      end
  end.

(** [Network.add_way]. *)
Definition add_way (w : Street) (net : Network) : res Network :=
  ns ← attach_way (way_id w) (nids w) (nodes net) ;
  Ok (mkNetwork ns (<[way_id w := w]> (ways net))).

(** The loop of [remove_way]: detach the way from each node of its
    sequence and delete the node once its list is empty. *)
Fixpoint detach_way (wid : string) (l : list string) (ns : gmap string Node)
  : res (gmap string Node) :=
  match l with
  | [] => Ok ns
  | nid :: l' =>
      match ns !! nid with
      | None => Raise AttributeError
      | Some n =>
          let n' := remove_way_id wid n in
          if bool_decide (length (way_ids n') = 0)
          then detach_way wid l' (delete nid ns)
          else detach_way wid l' (<[nid := n']> ns)
      end
  end.

(** [Network.remove_way]. *)
Definition remove_way (s : way_store) (wid : string) (net : Network)
  : res Network :=
  w ← deref_way s net wid ;
  ns ← detach_way wid (nids w) (nodes net) ;
  ws ← ways_remove wid (ways net) ;
  Ok (mkNetwork ns ws).

(** The loop of [join_ways]: each node of way 2 is associated with way 1
    and dissociated from way 2. *)
Fixpoint relabel_way (wid1 wid2 : string) (l : list string)
    (ns : gmap string Node) : res (gmap string Node) :=
  match l with
  | [] => Ok ns
  | nid :: l' =>
      match ns !! nid with
      | None => Raise AttributeError
      | Some n =>
          relabel_way wid1 wid2 l'
            (<[nid := remove_way_id wid2 (append_way wid1 n)]> ns)
      end
  end.

(** [Network.join_ways].  The body of the [try] is [join_ways_body]; a
    [KeyError] is caught, logged and dropped.  A [KeyError] can only come
    from the look-up of way 2, before anything is changed, so the handler
    resumes from the network as it was on entry. *)
Definition join_ways_body (s : way_store) (wid1 wid2 : string)
    (net : Network) : res Network :=
  w2 ← deref_way s net wid2 ;
  ns ← relabel_way wid1 wid2 (nids w2) (nodes net) ;
  ws ← ways_remove wid2 (ways net) ;
  Ok (mkNetwork ns ws).

Definition join_ways (s : way_store) (wid1 wid2 : string) (net : Network)
  : res Network :=
  catch_KeyError (join_ways_body s wid1 wid2 net) (Ok net).

(** Modelled from the spec: [Street.remove_node] of [ways.py], "detach the
    node from that way (way shrinks its sequence)". *)
Definition street_remove_node (nid : string) (w : Street) : Street :=
  set_nids (filter (λ x, x ≠ nid) (nids w)) w.

(** Modelled from the spec: [Street.swap_nodes] of [ways.py], "replace
    occurrences of from with to". *)
Definition street_swap_nodes (nid_from nid_to : string) (w : Street)
  : Street :=
  set_nids ((λ x, if decide (x = nid_from) then nid_to else x) <$> nids w) w.

(** [for way_id in node.way_ids: f(self.ways.get(way_id))], the way being
    updated in place. *)
Fixpoint update_ways_of (s : way_store) (f : Street → Street)
    (l : list string) (ws : gmap string Street) : res (gmap string Street) :=
  match l with
  | [] => Ok ws
  | wid :: l' =>
      match ws !! wid with
      | None => Raise (absent_way s)
      | Some w => update_ways_of s f l' (<[wid := f w]> ws)
      end
  end.

(** [Network.remove_node]. *)
Definition remove_node (s : way_store) (nid : string) (net : Network)
  : res Network :=
  node ← deref_node net nid ;
  ws ← update_ways_of s (street_remove_node nid) (way_ids node) (ways net) ;
  ns ← nodes_remove nid (nodes net) ;
  Ok (mkNetwork ns ws).

(** [Network.swap_nodes]. *)
Definition swap_nodes (s : way_store) (nid_from nid_to : string)
    (net : Network) : res Network :=
  match nodes net !! nid_from with
  | Some node =>
      match way_ids node with
      | [] => Ok net
      | _ =>
          ws ← update_ways_of s (street_swap_nodes nid_from nid_to)
                 (way_ids node) (ways net) ;
          ns ← nodes_remove nid_from (nodes net) ;
          Ok (mkNetwork ns ws)
      end
  | None => Ok net
  end.

(** ** Python list primitives *)

(** [l.index(x)]: the first position of [x], [ValueError] when absent. *)
Fixpoint index_of {A} `{EqDecision A} (x : A) (l : list A) : option nat :=
  match l with
  | [] => None
  | y :: l' => if decide (y = x) then Some 0%nat else S <$> index_of x l'
  end.

Definition py_index {A} `{EqDecision A} (x : A) (l : list A) : res nat :=
  match index_of x l with
  | Some i => Ok i
  | None => Raise ValueError
  end.

(** [l[i]] for [0 <= i]. *)
Definition py_nth {A} (l : list A) (i : nat) : res A :=
  match l !! i with
  | Some x => Ok x
  | None => Raise IndexError
  end.

(** [l[-1]] and [l[-2]]. *)
Definition py_last {A} (l : list A) : res A :=
  match last l with
  | Some x => Ok x
  | None => Raise IndexError
  end.

Definition py_second_last {A} (l : list A) : res A :=
  if (2 <=? length l)%nat then py_nth l (length l - 2) else Raise IndexError.

(** [l[a:b]] and [l[a:]] for [0 <= a] and [0 <= b]. *)
Definition slice {A} (a b : nat) (l : list A) : list A :=
  take (b - a) (drop a l).

(** [l[:-1]], [l[:0:-1]] and [l[1::-1]]. *)
Definition all_but_last {A} (l : list A) : list A := take (length l - 1) l.
Definition reversed_down_to_1 {A} (l : list A) : list A := reverse (drop 1 l).
Definition reversed_from_1 {A} (l : list A) : list A := reverse (take 2 l).

(** Modelled from the spec: [utilities.window] is not part of the sources;
    [window(seq, 2)] is the sliding window of the consecutive pairs. *)
Fixpoint window2 {A} (l : list A) : list (A * A) :=
  match l with
  | x :: (y :: _) as l' => (x, y) :: window2 l'
  | _ => []
  end.

(** ** Fresh identities

    [Street(None, ...)] and [Node(None, ...)] take [str(id(self))] as id:
    the address of the new object.  The interpreter's choice is a
    parameter [gen] of the operations that create objects: the [k]-th
    object created receives the id [gen k]. *)
Definition id_supply : Type := nat → string.

(** ** The street splitter *)

(** [[nid for nid in way.nids if self.nodes.get(nid).is_intersection()]]. *)
Fixpoint intersection_nids (net : Network) (l : list string)
  : res (list string) :=
  match l with
  | [] => Ok []
  | nid :: l' =>
      n ← deref_node net nid ;
      r ← intersection_nids net l' ;
      Ok (if is_intersection n then nid :: r else r)
  end.

(** [[way.nids.index(nid) for nid in intersection_nids]]. *)
Definition intersection_indices (l : list string) (inids : list string)
  : res (list nat) :=
  mapM_res (λ nid, py_index nid l) inids.

(** The two cases in which a way with intersection nodes is left as it
    is: one intersection node, at either end; two intersection nodes, one
    at each end.  [len(way.nids) - 1] is computed on a non-empty way, the
    list of indices being non-empty. *)
Definition left_unsplit (ii : list nat) (len : nat) : bool :=
  match ii with
  | [i] => bool_decide (i = 0%nat) || bool_decide (i = (len - 1)%nat)
  | [i; j] =>
      (bool_decide (i = 0%nat) && bool_decide (j = (len - 1)%nat))
      || (bool_decide (j = 0%nat) && bool_decide (i = (len - 1)%nat))
  | _ => false
  end.

(** The inner loop of [split_streets]: one sub-way [way.nids[prev_idx:idx + 1]]
    for each index that passes the test [idx != 0 and idx != len(way.nids)],
    then the rest [way.nids[prev_idx:]]. *)
Fixpoint split_pieces (l : list string) (prev_idx : nat) (ii : list nat)
  : list (list string) :=
  match ii with
  | [] => [drop prev_idx l]
  | idx :: ii' =>
      if bool_decide (idx ≠ 0%nat) && bool_decide (idx ≠ length l)
      then slice prev_idx (idx + 1) l :: split_pieces l idx ii'
      else split_pieces l prev_idx ii'
  end.

(** [self.add_way(Street(None, new_nids, way.type))] for each piece in
    turn; [k] counts the objects created so far. *)
Fixpoint add_pieces (gen : id_supply) (ty : option string)
    (pieces : list (list string)) (k : nat) (net : Network)
  : res (Network * nat) :=
  match pieces with
  | [] => Ok (net, k)
  | p :: ps =>
      net' ← add_way (mkStreet (gen k) p ty) net ;
      add_pieces gen ty ps (S k) net'
  end.

(** The body of the loop of [split_streets] for one way. *)
Definition split_way (s : way_store) (gen : id_supply) (w : Street)
    (k : nat) (net : Network) : res (Network * nat) :=
  inids ← intersection_nids net (nids w) ;
  ii ← intersection_indices (nids w) inids ;
  match ii with
  | [] => Ok (net, k)
  | _ =>
      if left_unsplit ii (length (nids w)) then Ok (net, k)
      else
        '(net', k') ← add_pieces gen (wtype w)
                         (split_pieces (nids w) 0 ii) k net ;
        net'' ← remove_way s (way_id w) net' ;
        Ok (net'', k')
  end.

(** [for way in self.ways.get_list(): ...] over the list of ways taken when
    the loop starts ([dict.values()] is a copy in Python 2). *)
Fixpoint split_streets_from (s : way_store) (gen : id_supply)
    (snapshot : list Street) (k : nat) (net : Network)
  : res (Network * nat) :=
  match snapshot with
  | [] => Ok (net, k)
  | w :: rest =>
      '(net', k') ← split_way s gen w k net ;
      split_streets_from s gen rest k' net'
  end.

(** The values of a store in the order in which the dict enumerates them;
    the order of the finite map stands for it. *)
Definition get_list {V} (m : gmap string V) : list V := (map_to_list m).*2.

(** [OSM.split_streets]. *)
Definition split_streets (s : way_store) (gen : id_supply) (k : nat)
    (net : Network) : res (Network * nat) :=
  split_streets_from s gen (get_list (ways net)) k net.

(** ** The two-way cleaner *)

(** The four concatenation cases of [clean_street_segmentation], on the
    positions [idx1] and [idx2] of the node in the two ways. *)
Definition combined_nids (l1 l2 : list string) (idx1 idx2 : nat)
  : list string :=
  match idx1, idx2 with
  | 0%nat, 0%nat => reversed_down_to_1 l1 ++ l2
  | S _, 0%nat => all_but_last l1 ++ l2
  | 0%nat, S _ => all_but_last l2 ++ l1
  | S _, S _ => l1 ++ reversed_from_1 l2
  end.

(** The body of the loop of [clean_street_segmentation] for a node whose
    list of ways has length two.  [way_id_1, way_id_2 = node.get_way_ids()]
    reads the list before [add_way] extends it.  Whatever the case, the
    conditions evaluate [way_1.nids.index(node.id)] first and
    [way_2.nids.index(node.id)] next. *)
Definition fuse_at (s : way_store) (gen : id_supply) (node : Node)
    (wid1 wid2 : string) (k : nat) (net : Network) : res (Network * nat) :=
  way_1 ← get_way s net wid1 ;
  way_2 ← get_way s net wid2 ;
  w1 ← use_way way_1 ;
  idx1 ← py_index (node_id node) (nids w1) ;
  w2 ← use_way way_2 ;
  idx2 ← py_index (node_id node) (nids w2) ;
  net1 ← add_way (mkStreet (gen k)
                    (combined_nids (nids w1) (nids w2) idx1 idx2)
                    (Some "footway")) net ;
  net2 ← remove_way s wid1 net1 ;
  net3 ← remove_way s wid2 net2 ;
  Ok (net3, S k).

(** [for node in self.nodes.get_list(): ...].  The list holds the node
    objects present when the loop starts; their [way_ids] are read when
    their turn comes.  A node is only taken out of the store by
    [remove_way], with an empty list of ways, so a node of the list that is
    no longer stored is passed over like any node whose list has not
    length two. *)
Fixpoint clean_from (s : way_store) (gen : id_supply)
    (snapshot : list string) (k : nat) (net : Network)
  : res (Network * nat) :=
  match snapshot with
  | [] => Ok (net, k)
  | nid :: rest =>
      match nodes net !! nid with
      | Some node =>
          match way_ids node with
          | [wid1; wid2] =>
              '(net', k') ← fuse_at s gen node wid1 wid2 k net ;
              clean_from s gen rest k' net'
          | _ => clean_from s gen rest k net
          end
      | None => clean_from s gen rest k net
      end
  end.

(** [OSM.clean_street_segmentation]. *)
Definition clean_street_segmentation (s : way_store) (gen : id_supply)
    (k : nat) (net : Network) : res (Network * nat) :=
  clean_from s gen ((map_to_list (nodes net)).*1) k net.

(** ** Export of the ways as map data

    The lines that [export(format='osm')] emits for the ways.  (The header
    and the node elements print floating-point numbers and are not
    modelled.) *)
Inductive osm_line : Type :=
| WayOpen (id : string)
| NdRef (ref : string)
| Tag (k v : string)
| WayClose.

Definition way_tag (w : Street) : list osm_line :=
  match wtype w with
  | None => []
  | Some ty =>
      if decide (ty = "footway") then [Tag "footway" "sidewalk"]
      else [Tag "highway" ty]
  end.

Definition export_way (w : Street) : list osm_line :=
  WayOpen (way_id w) :: (NdRef <$> nids w) ++ way_tag w ++ [WayClose].

Definition export_ways (net : Network) : list osm_line :=
  get_list (ways net) ≫= export_way.

(** The text of a line; [dq] is the double-quote character. *)
Definition dq : string := String (Ascii.ascii_of_nat 34) EmptyString.

Definition render (l : osm_line) : string :=
  match l with
  | WayOpen id =>
      "<way id=" +:+ dq +:+ id +:+ dq +:+ " visible=" +:+ dq +:+ "true"
      +:+ dq +:+ " user=" +:+ dq +:+ "test" +:+ dq +:+ ">"
  | NdRef r => "<nd ref=" +:+ dq +:+ r +:+ dq +:+ " />"
  | Tag k v =>
      "<tag k=" +:+ dq +:+ k +:+ dq +:+ " v=" +:+ dq +:+ v +:+ dq +:+ " />"
  | WayClose => "</way>"
  end.

(** ** The polyline simplifier *)

(** Modelled from the spec: [LatLng.location] of [latlng.py] is not part of
    the sources; the position of a node is its latitude and longitude. *)
Definition location (n : Node) : Q * Q := (lat n, lng n).

(** Modelled from the spec: [utilities.area] is not part of the sources;
    "the triangle area formed with its immediate left/right neighbors". *)
Definition area (p1 p2 p3 : Q * Q) : Q :=
  Qabs (p1.1 * (p2.2 - p3.2) + p2.1 * (p3.2 - p1.2) + p3.1 * (p1.2 - p2.2))
  / 2.

(** The local class [Triangle] of [simplify]. *)
Record Triangle : Type := mkTriangle {
  t_idx : nat;
  t_prev_idx : nat;
  t_next_idx : nat;
  t_area : Q
}.

Definition triangle_area (latlngs : list (Q * Q)) (prev idx next : nat)
  : res Q :=
  p1 ← py_nth latlngs prev ;
  p2 ← py_nth latlngs idx ;
  p3 ← py_nth latlngs next ;
  Ok (area p1 p2 p3).

(** [Triangle(prev_idx, idx, next_idx)]: the constructor recomputes the
    neighbours from [idx]. *)
Definition new_triangle (latlngs : list (Q * Q)) (idx : nat) : res Triangle :=
  a ← triangle_area latlngs (idx - 1) idx (idx + 1) ;
  Ok (mkTriangle idx (idx - 1) (idx + 1) a).

(** Modelled from the spec: [utilities.window] is not part of the sources.
    [groups = list(window(range(len(latlngs)), 3))] holds the sliding
    windows of three consecutive indices, one "per interior vertex": the
    middle index [group[1]] runs over the interior vertices. *)
Definition interior_indices (n : nat) : list nat := seq 1 (n - 2).

(** The triangles are objects shared by [dict] and [heap]: [dict] maps the
    index of a vertex to its triangle, and the heap is modelled by the list
    of the indices of its triangles, in the order in which they were
    pushed. *)
Fixpoint build_triangles (latlngs : list (Q * Q)) (l : list nat)
    (d : gmap nat Triangle) : res (gmap nat Triangle) :=
  match l with
  | [] => Ok d
  | idx :: l' =>
      t ← new_triangle latlngs idx ;
      build_triangles latlngs l' (<[idx := t]> d)
  end.

Definition area_at (d : gmap nat Triangle) (idx : nat) : Q :=
  match d !! idx with
  | Some t => t_area t
  | None => 0
  end.

(** [heappop]: the heap order holds whenever [heappop] is called (the heap
    is built by [heappush] and re-established by [heapify] after each
    change of an area), so a triangle of least area is returned; among
    triangles of equal area the model returns the one pushed first. *)
Fixpoint heappop (key : nat → Q) (h : list nat) : option (nat * list nat) :=
  match h with
  | [] => None
  | i :: h' =>
      match heappop key h' with
      | None => Some (i, [])
      | Some (j, r) =>
          if Qle_bool (key i) (key j) then Some (i, h') else Some (j, i :: r)
      end
  end.

(** [dict[i].prev_idx = p; dict[i].update_area()] when [i in dict]. *)
Definition relink_prev (latlngs : list (Q * Q)) (i p : nat)
    (d : gmap nat Triangle) : res (gmap nat Triangle) :=
  match d !! i with
  | None => Ok d
  | Some t =>
      a ← triangle_area latlngs p (t_idx t) (t_next_idx t) ;
      Ok (<[i := mkTriangle (t_idx t) p (t_next_idx t) a]> d)
  end.

(** [dict[i].next_idx = n; dict[i].update_area()] when [i in dict]. *)
Definition relink_next (latlngs : list (Q * Q)) (i n : nat)
    (d : gmap nat Triangle) : res (gmap nat Triangle) :=
  match d !! i with
  | None => Ok d
  | Some t =>
      a ← triangle_area latlngs (t_prev_idx t) (t_idx t) n ;
      Ok (<[i := mkTriangle (t_idx t) (t_prev_idx t) n a]> d)
  end.

(** What follows [heappop] in the body of the [while] loop, for the popped
    triangle [t].  [t.idx - 1] is looked up in [dict] as an integer: for
    [t.idx = 0] it would be [-1], which is no key. *)
Definition relink (latlngs : list (Q * Q)) (t : Triangle)
    (d : gmap nat Triangle) : res (gmap nat Triangle) :=
  d1 ← relink_prev latlngs (t_idx t + 1) (t_prev_idx t) d ;
  if bool_decide (t_idx t = 0%nat) then Ok d1
  else relink_next latlngs (t_idx t - 1) (t_next_idx t) d1.

(** [float(len(heap) + 2) / len(latlngs) > threshold], for a non-empty
    [latlngs]; the floating-point quotient is modelled by the exact one. *)
Definition above_threshold (h n : nat) (threshold : Q) : bool :=
  negb (Qle_bool (inject_Z (Z.of_nat (h + 2)) / inject_Z (Z.of_nat n))
          threshold).

(** The [while] loop of [simplify].  An [IndexError] in the body leaves the
    loop: [heappop] on an empty heap raises it before anything is changed;
    were a look-up in [latlngs] to raise it, the popped triangle would
    already have left the heap.  Each turn takes one triangle off the heap,
    so [fuel] greater than the length of the heap is never used up. *)
Fixpoint simplify_loop (fuel : nat) (latlngs : list (Q * Q)) (threshold : Q)
    (heap : list nat) (d : gmap nat Triangle) : res (list nat) :=
  match fuel with
  | O => Ok heap
  | S fuel' =>
      if above_threshold (length heap) (length latlngs) threshold then
        match heappop (area_at d) heap with
        | None => Ok heap
        | Some (i, heap') =>
            match d !! i with
            | None => Raise KeyError
            | Some t =>
                match relink latlngs t d with
                | Ok d' => simplify_loop fuel' latlngs threshold heap' d'
                | Raise IndexError => Ok heap'
                | Raise e => Raise e
                end
            end
        end
      else Ok heap
  end.

(** [OSM.simplify]; [threshold] defaults to [0.5]. *)
Definition simplify (s : way_store) (wid : string) (threshold : Q)
    (net : Network) : res Network :=
  w ← deref_way s net wid ;
  ns ← mapM_res (deref_node net) (nids w) ;
  let latlngs := location <$> ns in
  let groups := interior_indices (length latlngs) in
  d ← build_triangles latlngs groups ∅ ;
  heap ← (if bool_decide (length latlngs = 0%nat) then Raise ZeroDivisionError
          else simplify_loop (S (length groups)) latlngs threshold groups d) ;
  let l := merge_sort Nat.le heap in
  first ← py_nth ns 0 ;
  mid ← mapM_res (λ idx, n ← py_nth ns idx ; Ok (node_id n)) l ;
  final ← py_last ns ;
  w' ← deref_way s net wid ;
  Ok (set_ways (<[wid := set_nids (node_id first :: mid ++ [node_id final]) w']>
                  (ways net)) net).

Definition default_threshold : Q := 1 # 2.

(** ** The parallel-segment detector *)

(** Comparisons of Python floats, on their exact values. *)
Definition Qlt_bool (x y : Q) : bool := negb (Qle_bool y x).

(** [x % 180.] on floats: the remainder takes the sign of the divisor. *)
Definition fmod180 (x : Q) : Q :=
  (x - 180 * inject_Z (Qfloor (x / 180)))%Q.

(** What the detector takes from [shapely] and [math], whose values are not
    rational in general:
    - [buffer_polygon start end] is the rectangle
      [Polygon([p1, p2, p3, p4])] built around the segment from [start] to
      [end] with the half-width [distance_to_sidewalk];
    - [intersects] is [Polygon.intersects];
    - [polygon_eqb] is the equality that [list.index] applies to polygons;
    - [atan2_degrees y x] is [math.degrees(math.atan2(y, x))]. *)
Record Geometry : Type := mkGeometry {
  Polygon : Type;
  buffer_polygon : Q * Q → Q * Q → Polygon;
  intersects : Polygon → Polygon → bool;
  polygon_eqb : Polygon → Polygon → bool;
  atan2_degrees : Q → Q → Q
}.

(** The polygon of a street with the attributes [angle] and [nids] that the
    detector attaches to it. *)
Record StreetPolygon (geo : Geometry) : Type := mkStreetPolygon {
  poly : Polygon geo;
  poly_angle : Q;
  poly_nids : gset string
}.
Arguments mkStreetPolygon {geo} _ _ _.
Arguments poly {geo} _.
Arguments poly_angle {geo} _.
Arguments poly_nids {geo} _.

(** The body of the first loop of [find_parallel_street_segments].
    [vector] is the normalised difference of the two positions and
    [poly.angle] is [atan2] of its components; [atan2] does not change
    under scaling by a positive number, and the vector is left as it is
    when its norm is zero, so the angle is taken on the difference
    itself. *)
Definition street_polygon (geo : Geometry) (net : Network) (street : Street)
  : res (StreetPolygon geo) :=
  start_node_id ← py_nth (nids street) 0 ;
  end_node_id ← py_last (nids street) ;
  start_node ← deref_node net start_node_id ;
  end_node ← deref_node net end_node_id ;
  let v0 := (lat end_node - lat start_node)%Q in
  let v1 := (lng end_node - lng start_node)%Q in
  Ok (mkStreetPolygon
        (buffer_polygon geo (location start_node) (location end_node))
        (atan2_degrees geo v0 v1)
        {[start_node_id; end_node_id]}).

(** [((a.angle - b.angle) + 360.) % 180.] *)
Definition angle_diff (a b : Q) : Q := fmod180 ((a - b) + 360)%Q.

(** The test under which a pair of polygons enters [parallel_pairs]. *)
Definition parallel_candidate {geo : Geometry} (p q : StreetPolygon geo)
  : bool :=
  intersects geo (poly p) (poly q)
  && (Qlt_bool (angle_diff (poly_angle p) (poly_angle q)) 10
      || Qlt_bool 170 (angle_diff (poly_angle p) (poly_angle q))).

(** [itertools.combinations(l, 2)]. *)
Fixpoint combinations2 {A} (l : list A) : list (A * A) :=
  match l with
  | [] => []
  | x :: l' => (pair x <$> l') ++ combinations2 l'
  end.

(** [street_polygons.index(p)] for the polygon [p] that stands at the
    position [i] of the list: the first position that holds [p] itself or
    a polygon equal to it. *)
Fixpoint polygon_index_from {geo : Geometry} (k i : nat)
    (p : StreetPolygon geo) (l : list (StreetPolygon geo)) : res nat :=
  match l with
  | [] => Raise ValueError
  | q :: l' =>
      if bool_decide (k = i) || polygon_eqb geo (poly q) (poly p) then Ok k
      else polygon_index_from (S k) i p l'
  end.

Definition polygon_index {geo : Geometry} (i : nat) (p : StreetPolygon geo)
    (l : list (StreetPolygon geo)) : res nat :=
  polygon_index_from 0 i p l.

(** The second loop: the list [parallel_pairs] of pairs of indices.  The
    polygons come with their positions in [street_polygons]. *)
Fixpoint parallel_pairs {geo : Geometry} (polys : list (StreetPolygon geo))
    (combs : list ((nat * StreetPolygon geo) * (nat * StreetPolygon geo)))
  : res (list (nat * nat)) :=
  match combs with
  | [] => Ok []
  | ((i, p), (j, q)) :: combs' =>
      if parallel_candidate p q then
        i' ← polygon_index i p polys ;
        j' ← polygon_index j q polys ;
        r ← parallel_pairs polys combs' ;
        Ok ((i', j') :: r)
      else parallel_pairs polys combs'
  end.

(** [enumerate(l)]. *)
Definition enumerate {A} (l : list A) : list (nat * A) := imap pair l.

(** [Node.angle_to], in degrees. *)
Definition angle_to_degrees (geo : Geometry) (self node : Node) : Q :=
  atan2_degrees geo (lat node - lat self)%Q (lng node - lng self)%Q.

(** [set(a.nids) & set(b.nids)] and [list(shared_nids)[0]].  Which element
    a Python set enumerates first is not specified; the model takes the
    first element in the enumeration of the finite set, which depends on
    the elements of the set only. *)
Definition shared_nids (a b : Street) : gset string :=
  list_to_set (nids a) ∩ list_to_set (nids b).

(** The body of the third loop for the pair of streets [(a, b)]: [true]
    when the pair is appended to [filtered_parallel_pairs], [false] when
    the loop continues without it. *)
Definition keep_pair (geo : Geometry) (net : Network) (a b : Street)
  : res bool :=
  match elements (shared_nids a b) with
  | [] => Ok true
  | shared_nid :: _ =>
      idx1 ← py_index shared_nid (nids a) ;
      idx2 ← py_index shared_nid (nids b) ;
      '(adj_nid1, adj_nid2) ←
        (if bool_decide (idx1 = 0%nat) && bool_decide (idx2 = 0%nat)
         then x ← py_nth (nids a) 1 ; y ← py_nth (nids b) 1 ; Ok (x, y)
         else x ← py_second_last (nids a) ;
              y ← py_second_last (nids b) ; Ok (x, y)) ;
      shared_node ← deref_node net shared_nid ;
      adj_node1 ← deref_node net adj_nid1 ;
      adj_node2 ← deref_node net adj_nid2 ;
      let angle_to_node1 := angle_to_degrees geo shared_node adj_node1 in
      let angle_to_node2 := angle_to_degrees geo shared_node adj_node2 in
      Ok (negb (Qlt_bool 90
                  (Qabs (Qabs angle_to_node1 - Qabs angle_to_node2)%Q)))
  end.

(** The third loop. *)
Fixpoint filter_pairs (geo : Geometry) (net : Network)
    (streets : list Street) (pairs : list (nat * nat))
  : res (list (nat * nat)) :=
  match pairs with
  | [] => Ok []
  | (i, j) :: pairs' =>
      a ← py_nth streets i ;
      b ← py_nth streets j ;
      keep ← keep_pair geo net a b ;
      r ← filter_pairs geo net streets pairs' ;
      Ok (if keep : bool then (i, j) :: r else r)
  end.

(** [OSM.find_parallel_street_segments] on the list [streets] of the ways
    of the network. *)
Definition find_parallel_from (geo : Geometry) (streets : list Street)
    (net : Network) : res (list (string * string)) :=
  polys ← mapM_res (street_polygon geo net) streets ;
  pairs ← parallel_pairs polys (combinations2 (enumerate polys)) ;
  filtered ← filter_pairs geo net streets pairs ;
  mapM_res (λ '(i, j), a ← py_nth streets i ; b ← py_nth streets j ;
                       Ok (way_id a, way_id b)) filtered.

Definition find_parallel_street_segments (geo : Geometry) (net : Network)
  : res (list (string * string)) :=
  find_parallel_from geo (get_list (ways net)) net.

(** ** The street merger: overlap segmentation *)

(** [np.dot(n.vector(), base_vector)].  [base_vector] is the difference of
    the positions of the two base nodes divided by its norm (left as it is
    when the norm is zero); the projections are only compared with each
    other, and dividing by a positive number does not change their order,
    so the model projects on the difference itself. *)
Definition projection (base : Q * Q) (n : Node) : Q :=
  (lat n * base.1 + lng n * base.2)%Q.

(** [sorted(l, cmp=cmp_with_projection)]: the sort is stable. *)
Fixpoint insert_by_projection (base : Q * Q) (x : Node) (l : list Node)
  : list Node :=
  match l with
  | [] => [x]
  | y :: l' =>
      if Qle_bool (projection base x) (projection base y) then x :: y :: l'
      else y :: insert_by_projection base x l'
  end.

Definition sorted_by_projection (base : Q * Q) (l : list Node) : list Node :=
  foldr (insert_by_projection base) [] l.

(** [l.index(True)] and [len(l) - 1 - l[::-1].index(True)]. *)
Definition first_true (l : list bool) : res nat := py_index true l.
Definition last_true (l : list bool) : res nat :=
  i ← py_index true (reverse l) ; Ok (length l - 1 - i)%nat.

(** The three segments of a street: beginning, overlapping, end. *)
Definition Segmentation : Type := list string * list string * list string.

(** The adjustments of [street1_segmentation]: [segment[1][0]] and
    [segment[1][-1]] raise [IndexError] on an empty middle segment. *)
Definition close_segmentation1 (seg : Segmentation) : res Segmentation :=
  let '(s0, s1, s2) := seg in
  s0' ← (match s0 with
         | [] => Ok s0
         | _ => x ← py_nth s1 0 ; Ok (s0 ++ [x])%list
         end) ;
  s2' ← (match s2 with
         | [] => Ok s2
         | _ => x ← py_last s1 ; Ok (x :: s2)
         end) ;
  Ok (s0', s1, s2').

(** The adjustments of [street2_segmentation]; the second one reads the
    beginning segment as the first one left it. *)
Definition close_segmentation2 (seg : Segmentation) : Segmentation :=
  let '(s0, s1, s2) := seg in
  let s0' :=
    match s0 with
    | [] => s0
    | _ => match s1, s2 with
           | x :: _, _ => (s0 ++ [x])%list
           | [], x :: _ => (s0 ++ [x])%list
           | [], [] => s0
           end
    end in
  let s2' :=
    match s2 with
    | [] => s2
    | _ => match last s1, last s0' with
           | Some x, _ => x :: s2
           | None, Some x => x :: s2
           | None, None => s2
           end
    end in
  (s0', s1, s2').

(** [OSM.segment_parallel_streets].  The two streets are what [get]
    returned for two ids: objects of the way store, passed by reference, or
    [None].  The model receives the two ids and returns the network
    together with the result: the assignment to [street_pair[1].nids]
    changes the stored way. *)
Definition segment_parallel_streets (wid1 wid2 : string) (net : Network)
  : res (Network * (list string * Segmentation * Segmentation)) :=
  street1 ← use_way (ways net !! wid1) ;
  nid0 ← py_nth (nids street1) 0 ;
  nid1 ← py_last (nids street1) ;
  base_node0 ← deref_node net nid0 ;
  base_node1 ← deref_node net nid1 ;
  let base := ((lat base_node1 - lat base_node0)%Q,
               (lng base_node1 - lng base_node0)%Q) in
  (* check if the nodes in the second street is in the right order *)
  street2 ← use_way (ways net !! wid2) ;
  street_2_nodes ← mapM_res (deref_node net) (nids street2) ;
  first2 ← py_nth street_2_nodes 0 ;
  sorted_first2 ← py_nth (sorted_by_projection base street_2_nodes) 0 ;
  let net' :=
    if decide (node_id first2 ≠ node_id sorted_first2)
    then set_ways (<[wid2 := set_nids (reverse (nids street2)) street2]>
                     (ways net)) net
    else net in
  street1 ← use_way (ways net' !! wid1) ;
  street2 ← use_way (ways net' !! wid2) ;
  (* all the nodes of both streets, sorted by projection *)
  nodes1 ← mapM_res (deref_node net') (nids street1) ;
  nodes2 ← mapM_res (deref_node net') (nids street2) ;
  let all_nids := node_id <$> sorted_by_projection base (nodes1 ++ nodes2) in
  let in1 := λ nid, bool_decide (nid ∈ nids street1) in
  let all_nids_street_indices :=
    (λ nid, if in1 nid then 0%nat else 1%nat) <$> all_nids in
  let all_nids_street_switch :=
    (λ '(i, j), bool_decide (i ≠ j)) <$> window2 all_nids_street_indices in
  begin_idx ← first_true all_nids_street_switch ;
  end_idx ← last_true all_nids_street_switch ;
  let overlapping_segment := slice begin_idx end_idx all_nids in
  begin_nid ← py_nth all_nids begin_idx ;
  begin_next ← py_nth all_nids (begin_idx + 1) ;
  let '(street1_begin_nid, street2_begin_nid) :=
    if in1 begin_nid then (begin_nid, begin_next)
    else (begin_next, begin_nid) in
  street1_begin_idx ← py_index street1_begin_nid (nids street1) ;
  street2_begin_idx ← py_index street2_begin_nid (nids street2) ;
  end_nid ← py_nth all_nids end_idx ;
  end_next ← py_nth all_nids (end_idx + 1) ;
  let '(street1_end_nid, street2_end_nid) :=
    if in1 end_nid then (end_nid, end_next) else (end_next, end_nid) in
  street1_end_idx ← py_index street1_end_nid (nids street1) ;
  street2_end_idx ← py_index street2_end_nid (nids street2) ;
  let cut := λ (l : list string) (b e : nat),
    (take b l, slice b (e + 1) l, drop (e + 1) l) in
  street1_segmentation ←
    close_segmentation1 (cut (nids street1) street1_begin_idx street1_end_idx) ;
  let street2_segmentation :=
    close_segmentation2 (cut (nids street2) street2_begin_idx street2_end_idx) in
  Ok (net', (overlapping_segment, street1_segmentation, street2_segmentation)).

(** What the body of the loop of [merge_parallel_street_segments] does for
    a pair whose overlap is not empty: it computes offsets in floating
    point (distances between line strings, normalised vectors) and is
    taken as a parameter. *)
Definition merge_step : Type :=
  string * string → list string → Segmentation → Segmentation →
  Network → res Network.

(** [OSM.merge_parallel_street_segments]. *)
Fixpoint merge_parallel_street_segments (s : way_store)
    (merge_overlap : merge_step) (parallel_pairs : list (string * string))
    (net : Network) : res Network :=
  match parallel_pairs with
  | [] => Ok net
  | (wid1, wid2) :: rest =>
      _ ← get_way s net wid1 ;
      _ ← get_way s net wid2 ;
      '(net1, (subset_nids, street1_segment, street2_segment)) ←
        segment_parallel_streets wid1 wid2 net ;
      match subset_nids with
      | [] => merge_parallel_street_segments s merge_overlap rest net1
      | _ =>
          net2 ← merge_overlap (wid1, wid2) subset_nids street1_segment
                   street2_segment net1 ;
          merge_parallel_street_segments s merge_overlap rest net2
      end
  end.

(** ** Building a network *)

(** [Network.add_nodes] and [Network.add_ways]. *)
Definition add_nodes (l : list Node) (net : Network) : Network :=
  foldl (λ net node, add_node node net) net l.

Fixpoint add_ways (l : list Street) (net : Network) : res Network :=
  match l with
  | [] => Ok net
  | way :: l' => net' ← add_way way net ; add_ways l' net'
  end.

(** ** The adjacency refresh *)

(** The first loop of [update_ways]:
    [node.way_ids = []; node.min_intersection_cardinality = 3]. *)
Definition reset_way_ids (n : Node) : Node :=
  mkNode (node_id n) (lat n) (lng n) [] 3.

(** The second loop:
    [for street in self.ways.get_list(): for nid in street.nids:
     self.nodes.get(nid).append_way(street.id)]. *)
Fixpoint attach_ways (streets : list Street) (ns : gmap string Node)
  : res (gmap string Node) :=
  match streets with
  | [] => Ok ns
  | street :: rest =>
      ns' ← attach_way (way_id street) (nids street) ns ;
      attach_ways rest ns'
  end.

(** [OSM.update_ways]. *)
Definition update_ways (net : Network) : res Network :=
  ns ← attach_ways (get_list (ways net)) (reset_way_ids <$> nodes net) ;
  Ok (mkNetwork ns (ways net)).

(** ** Removal of the ways that are too short *)

(** The last loop of [preprocess]:
    [for way in self.ways.get_list():
     if len(way.nids) < 2: self.remove_way(way.id)]. *)
Fixpoint remove_short_from (s : way_store) (snapshot : list Street)
    (net : Network) : res Network :=
  match snapshot with
  | [] => Ok net
  | way :: rest =>
      if bool_decide (length (nids way) < 2)%nat then
        net' ← remove_way s (way_id way) net ;
        remove_short_from s rest net'
      else remove_short_from s rest net
  end.

Definition remove_short_ways (s : way_store) (net : Network) : res Network :=
  remove_short_from s (get_list (ways net)) net.

(** ** The bounding box *)

(** [self.bounds]: min lat, min lng, max lat, max lng. *)
Record Bounds : Type := mkBounds {
  min_lat : Q;
  min_lng : Q;
  max_lat : Q;
  max_lng : Q
}.

(** The loop of [Network.__init__] over [self.nodes.get_list()], from
    [[100000.0, 100000.0, -100000.0, -100000.0]]. *)
Definition initial_bounds : Bounds :=
  mkBounds 100000 100000 (- 100000) (- 100000).

Definition extend_bounds (b : Bounds) (node : Node) : Bounds :=
  mkBounds (Qmin (lat node) (min_lat b)) (Qmin (lng node) (min_lng b))
           (Qmax (lat node) (max_lat b)) (Qmax (lng node) (max_lng b)).

Definition network_bounds (ns : gmap string Node) : Bounds :=
  foldl extend_bounds initial_bounds (get_list ns).

(** ** Neighbours of a node *)

(** The loop of [get_adjacent_nodes] over [node.get_way_ids()]; the result
    holds what [self.nodes.get] returned, a node or [None]. *)
Fixpoint adjacent_nodes_of (s : way_store) (net : Network) (node : Node)
    (wids : list string) : res (list (option Node)) :=
  match wids with
  | [] => Ok []
  | wid :: rest =>
      way ← deref_way s net wid ;
      first ← py_nth (nids way) 0 ;
      adj ← (if decide (first = node_id node) then py_nth (nids way) 1
             else py_second_last (nids way)) ;
      r ← adjacent_nodes_of s net node rest ;
      Ok (nodes net !! adj :: r)
  end.

(** [Network.get_adjacent_nodes]. *)
Definition get_adjacent_nodes (s : way_store) (net : Network) (node : Node)
  : res (list (option Node)) :=
  adjacent_nodes_of s net node (way_ids node).

(** ** The connected-way joiner *)

(** Modelled from the spec: [Street.getdirection] of [ways.py] is not part
    of the sources; ways are joined "only between partners whose direction
    (endpoint-to-endpoint bearing) matches".  [getdirection] stands for
    the method and [same_direction] for the equality [==] on its results.
    With them the record holds what [join_connected_ways] takes from the
    interpreter: [py_int s] is [int(s)] on a way id (the number, or
    [ValueError]) and [py_str n] is [str(n)]. *)
Record WayTools : Type := mkWayTools {
  py_int : string → res Z;
  py_str : Z → string;
  Direction : Type;
  same_direction : Direction → Direction → bool;
  getdirection : Street → Direction
}.

(** [l.count(x)]. *)
Definition count (x : Z) (l : list Z) : nat := length (filter (λ y, y = x) l).

(** [set([x for x in all_ways_to_merge if all_ways_to_merge.count(x) > 1])],
    in the order in which the loop over the set enumerates it (the
    enumeration of the finite set stands for Python's). *)
Definition ways_appearing_multiple_times (all : list Z) : list Z :=
  elements (list_to_set (filter (λ x, 1 < count x all)%nat all) : gset Z).

(** The ids paired with the long way [way]: those of the second list at
    the positions where the first list holds [way], then the other way
    round. *)
Definition short_ways_to_join (way : Z) (l1 l2 : list Z) : list Z :=
  ((snd <$> filter (λ p, p.1 = way) (zip l1 l2))
   ++ (fst <$> filter (λ p, p.2 = way) (zip l1 l2)))%list.

(** The body of the innermost loop for [short_way], [first] being
    [short_ways_to_join[0]]; the state is the network and [removed_ways].
    A [KeyError] can only come from the two look-ups, before anything is
    changed ([join_ways] catches its own), so the handler resumes from the
    state as it was. *)
Definition join_pair (s : way_store) (tools : WayTools) (first short_way : Z)
    (st : Network * list Z) : res (Network * list Z) :=
  let '(net, removed_ways) := st in
  if decide (short_way ≠ first) then
    catch_KeyError
      (way1 ← get_way s net (py_str tools first) ;
       way2 ← get_way s net (py_str tools short_way) ;
       w1 ← use_way way1 ;
       w2 ← use_way way2 ;
       if same_direction tools (getdirection tools w1) (getdirection tools w2)
       then
         net' ← join_ways s (py_str tools first) (py_str tools short_way) net ;
         Ok (net', (removed_ways ++ [short_way])%list)
       else Ok st)
      (Ok st)
  else Ok st.

Fixpoint join_short_ways (s : way_store) (tools : WayTools) (first : Z)
    (shorts : list Z) (st : Network * list Z) : res (Network * list Z) :=
  match shorts with
  | [] => Ok st
  | short_way :: rest =>
      st' ← join_pair s tools first short_way st ;
      join_short_ways s tools first rest st'
  end.

(** The loop over the long ways. *)
Fixpoint join_long_ways (s : way_store) (tools : WayTools) (l1 l2 : list Z)
    (long : list Z) (st : Network * list Z) : res (Network * list Z) :=
  match long with
  | [] => Ok st
  | way :: rest =>
      let shorts := short_ways_to_join way l1 l2 in
      st' ← (match shorts with
             | [] => Ok st
             | first :: _ => join_short_ways s tools first shorts st
             end) ;
      join_long_ways s tools l1 l2 rest st'
  end.

(** [OSM.join_connected_ways]: the network and the new list of pairs. *)
Definition join_connected_ways (s : way_store) (tools : WayTools)
    (segments_to_merge : list (string * string)) (net : Network)
  : res (Network * list (string * string)) :=
  ids ← mapM_res (λ pair, a ← py_int tools pair.1 ;
                          b ← py_int tools pair.2 ; Ok (a, b))
         segments_to_merge ;
  let ways_to_merge_1 := ids.*1 in
  let ways_to_merge_2 := ids.*2 in
  let all_ways_to_merge := (ways_to_merge_1 ++ ways_to_merge_2)%list in
  '(net', removed_ways) ←
    join_long_ways s tools ways_to_merge_1 ways_to_merge_2
      (ways_appearing_multiple_times all_ways_to_merge) (net, []) ;
  Ok (net',
      fst <$> filter (λ p, ¬ (p.2.1 ∈ removed_ways ∨ p.2.2 ∈ removed_ways))
                (zip segments_to_merge ids)).

(** ** Properties of a network *)

(** The number of occurrences of [x] in [l], and [l] without them. *)
Definition occurrences (x : string) (l : list string) : nat :=
  length (filter (λ y, y = x) l).

Definition without (x : string) (l : list string) : list string :=
  filter (λ y, y ≠ x) l.

(** The way stored under [wid] has the node id [nid] in its sequence. *)
Definition incident (net : Network) (nid wid : string) : Prop :=
  match ways net !! wid with
  | Some w => nid ∈ nids w
  | None => False
  end.

(** Referential integrity (invariant 2 of the data model): the list of
    ways of every stored node has no repetition and holds exactly the ids
    of the ways whose sequence contains the id of the node. *)
Definition referential_integrity (net : Network) : Prop :=
  ∀ nid n, nodes net !! nid = Some n →
    NoDup (way_ids n) ∧ ∀ wid, wid ∈ way_ids n ↔ incident net (node_id n) wid.

(** Every node is stored under its own id, as [Nodes.add] does. *)
Definition well_keyed (net : Network) : Prop :=
  ∀ nid n, nodes net !! nid = Some n → node_id n = nid.

(** The nodes of a sequence are stored (invariant 1, for one way). *)
Definition nodes_present (net : Network) (l : list string) : Prop :=
  ∀ nid, nid ∈ l → is_Some (nodes net !! nid).

(** The list of a node lists the way [wid] as often as the node occurs in
    the sequence [l] of the way: what [add_way] establishes. *)
Definition attached (net : Network) (wid : string) (l : list string) : Prop :=
  ∀ nid, nid ∈ l →
    ∃ n, nodes net !! nid = Some n
         ∧ occurrences wid (way_ids n) = occurrences nid l.

(** What [remove_way] leaves of a node of the removed way. *)
Definition detached (wid : string) (n : Node) : option Node :=
  match without wid (way_ids n) with
  | [] => None
  | l => Some (set_way_ids l n)
  end.

(** The list of the node [n] holds the way id [wid] as often as the id of
    [n] occurs in the sequence of the way stored under [wid], and not at
    all when no way is stored under [wid]. *)
Definition listed_per_occurrence (net : Network) (n : Node) (wid : string)
  : Prop :=
  occurrences wid (way_ids n)
  = match ways net !! wid with
    | Some w => occurrences (node_id n) (nids w)
    | None => 0%nat
    end.

(** The bookkeeping that [add_way] and [remove_way] maintain: one entry in
    the list of a node for each occurrence of the node in a way. *)
Definition per_occurrence (net : Network) : Prop :=
  ∀ nid n, nodes net !! nid = Some n → ∀ wid, listed_per_occurrence net n wid.

(** The list of ways of every stored node, viewed as a set, is the set of
    the ids of the ways whose sequence contains the id of the node. *)
Definition set_integrity (net : Network) : Prop :=
  ∀ nid n, nodes net !! nid = Some n →
    ∀ wid, wid ∈ way_ids n ↔ incident net (node_id n) wid.

(** No stored way visits a node twice. *)
Definition no_repeated_node (net : Network) : Prop :=
  ∀ wid w, ways net !! wid = Some w → NoDup (nids w).

(** [per_occurrence] and [referential_integrity] at one node, in a form
    that can be decided: only the way ids of the list and of the store
    matter. *)
Definition per_occurrence_at (net : Network) (n : Node) : Prop :=
  Forall (listed_per_occurrence net n) (way_ids n)
  ∧ map_Forall (λ wid _, listed_per_occurrence net n wid) (ways net).

Definition integrity_at (net : Network) (n : Node) : Prop :=
  NoDup (way_ids n)
  ∧ Forall (incident net (node_id n)) (way_ids n)
  ∧ map_Forall (λ wid w, node_id n ∈ nids w → wid ∈ way_ids n) (ways net).

(** The indices held by the triangles of [d] are positions of [latlngs]. *)
Definition triangles_in_range (n : nat) (d : gmap nat Triangle) : Prop :=
  ∀ i t, d !! i = Some t →
    (t_prev_idx t < n)%nat ∧ (t_idx t < n)%nat ∧ (t_next_idx t < n)%nat.

(** Every way is stored under its own id, as [Streets.add] does. *)
Definition ways_keyed (net : Network) : Prop :=
  ∀ wid w, ways net !! wid = Some w → way_id w = wid.

(** Every node id referenced by a way is stored (invariant 1). *)
Definition all_nodes_present (net : Network) : Prop :=
  ∀ wid w, ways net !! wid = Some w → nodes_present net (nids w).

(** The sequence obtained from consecutive pieces by writing the node that
    two neighbours share only once. *)
Definition rejoin (pieces : list (list string)) : list string :=
  match pieces with
  | [] => []
  | p :: ps => p ++ concat (drop 1 <$> ps)
  end.

(** The intersection nodes of every way are its end nodes. *)
Definition split_at_ends (net : Network) : Prop :=
  ∀ wid w i nid n,
    ways net !! wid = Some w → nids w !! i = Some nid →
    nodes net !! nid = Some n → is_intersection n = true →
    i = 0%nat ∨ i = (length (nids w) - 1)%nat.

(** What one turn of the loop of [join_ways] does to the list of a node:
    [node.append_way(way_id_1); node.remove_way_id(way_id_2)]. *)
Definition relabel (wid1 wid2 : string) (l : list string) : list string :=
  remove_first wid2 (l ++ [wid1]).

(** The node [nid] is the first or the last node of the way stored under
    [wid], a way of at least two nodes. *)
Definition at_end_of (net : Network) (nid wid : string) : Prop :=
  ∃ w, ways net !! wid = Some w
       ∧ (2 ≤ length (nids w))%nat
       ∧ (nids w !! 0%nat = Some nid ∨ last (nids w) = Some nid).

(** The node id [adj] comes just before or just after [nid] in the way
    stored under [wid]. *)
Definition next_to (net : Network) (nid wid adj : string) : Prop :=
  ∃ w i, ways net !! wid = Some w
         ∧ ((nids w !! i = Some nid ∧ nids w !! S i = Some adj)
            ∨ (nids w !! i = Some adj ∧ nids w !! S i = Some nid)).

(** From [net] to [net'] no way was added or changed, and the same node
    ids are stored. *)
Definition only_deleted_ways (net net' : Network) : Prop :=
  ways net' ⊆ ways net
  ∧ ∀ k, is_Some (nodes net' !! k) ↔ is_Some (nodes net !! k).

(** The conditions under which the operations on ways neither raise nor
    lose track of the ways of a node: nodes and ways are stored under their
    ids, the ways refer to stored nodes, and every node lists each way once
    for each of its occurrences in the way. *)
Definition consistent (net : Network) : Prop :=
  well_keyed net ∧ ways_keyed net ∧ per_occurrence net
  ∧ all_nodes_present net.

(** The ids that the supply gives from the [k]-th on are not in use. *)
Definition fresh_from (gen : id_supply) (k : nat) (net : Network) : Prop :=
  ∀ j, (k ≤ j)%nat → ways net !! gen j = None.

(** The entries that the second loop of [update_ways] appends to the list
    of the node [k]. *)
Definition refreshed (k : string) (streets : list Street) : list string :=
  streets ≫= λ street, replicate (occurrences k (nids street)) (way_id street).

(** [split_at_ends] for one position of one way. *)
Definition end_or_plain (net : Network) (w : Street) (p : nat * string)
  : Prop :=
  match nodes net !! p.2 with
  | Some n =>
      is_intersection n = true →
      p.1 = 0%nat ∨ p.1 = (length (nids w) - 1)%nat
  | None => True
  end.

(** ** Example networks *)

Definition example_ids : id_supply := λ k, "new" +:+ pretty k.

(** Two nodes and no way; a closed way through them. *)
Definition loop_net : Network :=
  mkNetwork (list_to_map [("a", new_node "a" 0 0); ("b", new_node "b" 0 1)]) ∅.
Definition loop_way : Street := mkStreet "w" ["a"; "b"; "a"] None.

(** Two ways that meet at the node ["n2"]. *)
Definition corner_net : Network :=
  mkNetwork
    (list_to_map [("n1", mkNode "n1" 0 0 ["a"] 2);
                  ("n2", mkNode "n2" 0 1 ["a"; "b"] 2);
                  ("n3", mkNode "n3" 1 1 ["b"] 2)])
    (list_to_map [("a", mkStreet "a" ["n1"; "n2"] None);
                  ("b", mkStreet "b" ["n2"; "n3"] None)]).

(** A single way ["b"]; no way ["a"]. *)
Definition single_way_net : Network :=
  mkNetwork
    (list_to_map [("n1", mkNode "n1" 0 0 ["b"] 2);
                  ("n2", mkNode "n2" 0 1 ["b"] 2)])
    (list_to_map [("b", mkStreet "b" ["n1"; "n2"] None)]).

(** A residential way ["w"] from ["a"] to ["d"]; its nodes ["b"], ["c"] and
    ["d"] are each the first node of another way. *)
Definition junction_way : Street :=
  mkStreet "w" ["a"; "b"; "c"; "d"] (Some "residential").
Definition junction_net : Network :=
  mkNetwork
    (list_to_map [("a", mkNode "a" 0 0 ["w"] 2);
                  ("b", mkNode "b" 0 1 ["w"; "x"] 2);
                  ("c", mkNode "c" 0 2 ["w"; "y"] 2);
                  ("d", mkNode "d" 0 3 ["w"; "z"] 2);
                  ("e", mkNode "e" 1 1 ["x"] 2);
                  ("f", mkNode "f" 1 2 ["y"] 2);
                  ("g", mkNode "g" 1 3 ["z"] 2)])
    (list_to_map [("w", junction_way);
                  ("x", mkStreet "x" ["b"; "e"] (Some "residential"));
                  ("y", mkStreet "y" ["c"; "f"] (Some "residential"));
                  ("z", mkStreet "z" ["d"; "g"] (Some "residential"))]).

(** Two residential ways that both end at the node ["s"]. *)
Definition end_to_end_net : Network :=
  mkNetwork
    (list_to_map [("a", mkNode "a" 0 0 ["w1"] 3);
                  ("s", mkNode "s" 0 1 ["w1"; "w2"] 3);
                  ("b", mkNode "b" 0 2 ["w2"] 3)])
    (list_to_map [("w1", mkStreet "w1" ["a"; "s"] (Some "residential"));
                  ("w2", mkStreet "w2" ["b"; "s"] (Some "residential"))]).

(** A tertiary way that ends at ["s"] and one that starts there. *)
Definition through_net : Network :=
  mkNetwork
    (list_to_map [("a", mkNode "a" 0 0 ["w1"] 3);
                  ("s", mkNode "s" 0 1 ["w1"; "w2"] 3);
                  ("b", mkNode "b" 0 2 ["w2"] 3)])
    (list_to_map [("w1", mkStreet "w1" ["a"; "s"] (Some "tertiary"));
                  ("w2", mkStreet "w2" ["s"; "b"] (Some "tertiary"))]).

(** Five nodes on a parabola, joined by the way ["w"]. *)
Definition polyline_net : Network :=
  mkNetwork
    (list_to_map [("p0", mkNode "p0" 0 0 ["w"] 2);
                  ("p1", mkNode "p1" 1 1 ["w"] 2);
                  ("p2", mkNode "p2" 2 4 ["w"] 2);
                  ("p3", mkNode "p3" 3 9 ["w"] 2);
                  ("p4", mkNode "p4" 4 16 ["w"] 2)])
    (list_to_map [("w", mkStreet "w" ["p0"; "p1"; "p2"; "p3"; "p4"] None)]).

(** *** A geometry for networks drawn on a grid

    An instance of [Geometry] that is exact for ways that run along an
    axis: there the buffer rectangle has its sides along the axes and the
    angles are multiples of 90 degrees. *)

(** [distance_to_sidewalk = 0.00009]. *)
Definition distance_to_sidewalk : Q := 9 # 100000.

(** [math.degrees(math.atan2(y, x))] along the axes ([atan2(0, 0)] is
    [0]) and the diagonals.  In between, the angle is not rational: the
    diagonal of the quadrant stands for it, and no example uses it. *)
Definition grid_atan2 (y x : Q) : Q :=
  match (y ?= 0)%Q, (x ?= 0)%Q with
  | Eq, Lt => 180
  | Eq, _ => 0
  | Gt, Eq => 90
  | Gt, Gt => 45
  | Gt, Lt => 135
  | Lt, Eq => - 90
  | Lt, Gt => - 45
  | Lt, Lt => - 135
  end.

(** A segment, standing for the rectangle built around it. *)
Definition grid_polygon (p1 p2 : Q * Q) : (Q * Q) * (Q * Q) := (p1, p2).

(** The rectangle around the segment, as a range of latitudes and a range
    of longitudes.  The segment is widened by [distance_to_sidewalk] across
    its direction: in longitude for a segment along the latitude axis, in
    latitude for a segment along the longitude axis, not at all for a
    segment of length zero (its vector is zero).  For another segment the
    rectangle is not along the axes; its bounding box stands for it, and no
    example uses it. *)
Definition grid_box (p : (Q * Q) * (Q * Q)) : (Q * Q) * (Q * Q) :=
  let '((lat1, lng1), (lat2, lng2)) := p in
  let d := distance_to_sidewalk in
  let dlat : Q := if Qeq_bool lng1 lng2 then 0%Q else d in
  let dlng : Q := if Qeq_bool lat1 lat2 then 0%Q else d in
  ((Qmin lat1 lat2 - dlat, Qmax lat1 lat2 + dlat)%Q,
   (Qmin lng1 lng2 - dlng, Qmax lng1 lng2 + dlng)%Q).

Definition ranges_meet (r1 r2 : Q * Q) : bool :=
  Qle_bool r1.1 r2.2 && Qle_bool r2.1 r1.2.

(** Two rectangles along the axes intersect when their ranges meet in
    both coordinates (a common boundary point counts). *)
Definition grid_intersects (p q : (Q * Q) * (Q * Q)) : bool :=
  ranges_meet (grid_box p).1 (grid_box q).1
  && ranges_meet (grid_box p).2 (grid_box q).2.

Definition grid_polygon_eqb (p q : (Q * Q) * (Q * Q)) : bool :=
  Qeq_bool p.1.1 q.1.1 && Qeq_bool p.1.2 q.1.2
  && Qeq_bool p.2.1 q.2.1 && Qeq_bool p.2.2 q.2.2.

Definition grid_geometry : Geometry :=
  mkGeometry ((Q * Q) * (Q * Q)) grid_polygon grid_intersects
    grid_polygon_eqb grid_atan2.

(** Two ways that leave the node ["S"] in opposite directions. *)
Definition way_north : Street := mkStreet "A" ["S"; "N"] None.
Definition way_south : Street := mkStreet "B" ["S"; "M"] None.
Definition opposite_net : Network :=
  mkNetwork
    (list_to_map [("S", mkNode "S" 0 0 ["A"; "B"] 2);
                  ("N", mkNode "N" 1 0 ["A"] 2);
                  ("M", mkNode "M" (-1) 0 ["B"] 2)])
    (list_to_map [("A", way_north); ("B", way_south)]).

(** A way that leaves the node ["S"] eastwards and a way that reaches it
    from the west. *)
Definition way_east : Street := mkStreet "A" ["S"; "E"] None.
Definition way_west : Street := mkStreet "B" ["W"; "S"] None.
Definition east_west_net : Network :=
  mkNetwork
    (list_to_map [("S", mkNode "S" 0 0 ["A"; "B"] 2);
                  ("E", mkNode "E" 0 1 ["A"] 2);
                  ("W", mkNode "W" 0 (-1) ["B"] 2)])
    (list_to_map [("A", way_east); ("B", way_west)]).

(** Two ways along the latitude axis, one tenth of a thousandth of a
    degree apart in longitude: ["s1"] runs from latitude 0 to 1 and
    ["s2"] from latitude 2 back to 1. *)
Definition parallel_gap_net : Network :=
  mkNetwork
    (list_to_map [("a", mkNode "a" 0 0 ["s1"] 2);
                  ("b", mkNode "b" 1 0 ["s1"] 2);
                  ("c", mkNode "c" 2 (1 # 10000) ["s2"] 2);
                  ("d", mkNode "d" 1 (1 # 10000) ["s2"] 2)])
    (list_to_map [("s1", mkStreet "s1" ["a"; "b"] None);
                  ("s2", mkStreet "s2" ["c"; "d"] None)]).

(** Two ways between the same two end nodes: ["A"] runs straight from
    ["s"] to ["n"], ["B"] passes through ["x"] on its way. *)
Definition way_direct : Street := mkStreet "A" ["s"; "n"] None.
Definition way_detour : Street := mkStreet "B" ["s"; "x"; "n"] None.
Definition twin_net : Network :=
  mkNetwork
    (list_to_map [("s", mkNode "s" 0 0 ["A"; "B"] 2);
                  ("x", mkNode "x" (1 # 2) (1 # 10000) ["B"] 2);
                  ("n", mkNode "n" 1 0 ["A"; "B"] 2)])
    (list_to_map [("A", way_direct); ("B", way_detour)]).

(** [parallel_gap_net] with the way ["s2"] reversed. *)
Definition parallel_gap_net_reversed : Network :=
  mkNetwork
    (list_to_map [("a", mkNode "a" 0 0 ["s1"] 2);
                  ("b", mkNode "b" 1 0 ["s1"] 2);
                  ("c", mkNode "c" 2 (1 # 10000) ["s2"] 2);
                  ("d", mkNode "d" 1 (1 # 10000) ["s2"] 2)])
    (list_to_map [("s1", mkStreet "s1" ["a"; "b"] None);
                  ("s2", mkStreet "s2" ["d"; "c"] None)]).

(** A merge step that is never to be reached. *)
Definition no_merge_step : merge_step := λ _ _ _ _ _, Raise ValueError.

(** [corner_net] after [join_ways("a", "b")]: the lists of the nodes no
    longer agree with the ways. *)
Definition joined_net : Network :=
  mkNetwork
    (list_to_map [("n1", mkNode "n1" 0 0 ["a"] 2);
                  ("n2", mkNode "n2" 0 1 ["a"; "a"] 2);
                  ("n3", mkNode "n3" 1 1 ["a"] 2)])
    (list_to_map [("a", mkStreet "a" ["n1"; "n2"] None)]).

(** A way ["w"] and, at its end, a way ["v"] of a single node. *)
Definition stub_net : Network :=
  mkNetwork
    (list_to_map [("a", mkNode "a" 0 0 ["w"] 2);
                  ("b", mkNode "b" 0 1 ["w"; "v"] 2)])
    (list_to_map [("w", mkStreet "w" ["a"; "b"] None);
                  ("v", mkStreet "v" ["b"] None)]).

(** [loop_net] with the closed way [loop_way] added. *)
Definition closed_way_net : Network :=
  mkNetwork
    (list_to_map [("a", mkNode "a" 0 0 ["w"; "w"] 2);
                  ("b", mkNode "b" 0 1 ["w"] 2)])
    (list_to_map [("w", loop_way)]).

(** A way without nodes. *)
Definition empty_way_net : Network :=
  mkNetwork ∅ (list_to_map [("e", mkStreet "e" [] None)]).

(** *** Way ids that are decimal numbers

    An instance of [WayTools] for ids written with decimal digits only,
    where every way has the same direction. *)
Fixpoint digits_value (acc : Z) (s : string) : res Z :=
  match s with
  | EmptyString => Ok acc
  | String c s' =>
      match Ascii.is_nat c with
      | Some d => digits_value (10 * acc + Z.of_nat d) s'
      | None => Raise ValueError
      end
  end.

Definition decimal_int (s : string) : res Z :=
  match s with
  | EmptyString => Raise ValueError
  | _ => digits_value 0 s
  end.

Definition decimal_tools : WayTools :=
  mkWayTools decimal_int pretty unit (λ _ _, true) (λ _, ()).

(** The long way ["1"] from ["a"] to ["c"] and, alongside, the short ways
    ["2"] and ["3"]. *)
Definition numbered_net : Network :=
  mkNetwork
    (list_to_map [("a", mkNode "a" 0 0 ["1"] 2);
                  ("c", mkNode "c" 0 2 ["1"] 2);
                  ("p", mkNode "p" 1 0 ["2"] 2);
                  ("q", mkNode "q" 1 1 ["2"; "3"] 2);
                  ("r", mkNode "r" 1 2 ["3"] 2)])
    (list_to_map [("1", mkStreet "1" ["a"; "c"] None);
                  ("2", mkStreet "2" ["p"; "q"] None);
                  ("3", mkStreet "3" ["q"; "r"] None)]).

(** * Properties *)

(** ** Lists of way ids *)

Lemma occurrences_cons x y l :
  occurrences x (y :: l)
  = if decide (y = x) then S (occurrences x l) else occurrences x l.
Proof.
  unfold occurrences. rewrite filter_cons. by destruct (decide (y = x)).
Qed.

Lemma without_cons x y l :
  without x (y :: l) = if decide (y = x) then without x l else y :: without x l.
Proof.
  unfold without. rewrite filter_cons.
  destruct (decide (y ≠ x)), (decide (y = x)); done.
Qed.

Lemma occurrences_remove_first x l :
  occurrences x (remove_first x l) = pred (occurrences x l).
Proof.
  induction l as [|y l IH]; [done|]. simpl.
  destruct (decide (x = y)) as [->|Hne].
  - by rewrite occurrences_cons, decide_True.
  - rewrite !occurrences_cons, !decide_False by congruence. done.
Qed.

Lemma without_remove_first x l :
  without x (remove_first x l) = without x l.
Proof.
  induction l as [|y l IH]; [done|]. simpl.
  destruct (decide (x = y)) as [->|Hne].
  - by rewrite without_cons, decide_True.
  - rewrite !without_cons, !decide_False by congruence. by rewrite IH.
Qed.

Lemma occurrences_zero x l : occurrences x l = 0%nat ↔ x ∉ l.
Proof.
  induction l as [|y l IH].
  - split; [intros _; apply not_elem_of_nil | done].
  - rewrite occurrences_cons, not_elem_of_cons.
    destruct (decide (y = x)) as [->|Hne].
    + split; [done | intros [? _]; done].
    + rewrite IH. split; [intros ?; split; congruence | intros [_ ?]; done].
Qed.

Lemma without_absent x l : x ∉ l → without x l = l.
Proof.
  induction l as [|y l IH]; [done|].
  rewrite not_elem_of_cons. intros [Hne Hl].
  rewrite without_cons, decide_False by congruence. by rewrite IH.
Qed.

Lemma elem_of_without x y l : y ∈ without x l ↔ y ∈ l ∧ y ≠ x.
Proof. unfold without. rewrite list_elem_of_filter. tauto. Qed.

Lemma occurrences_app x l1 l2 :
  occurrences x (l1 ++ l2) = (occurrences x l1 + occurrences x l2)%nat.
Proof. unfold occurrences. by rewrite filter_app, length_app. Qed.

Lemma occurrences_replicate x y n :
  occurrences x (replicate n y) = if decide (y = x) then n else 0%nat.
Proof.
  induction n as [|n IH]; simpl; [by destruct (decide (y = x))|].
  rewrite occurrences_cons, IH. by destruct (decide (y = x)).
Qed.

Lemma occurrences_without x y l :
  occurrences x (without y l)
  = if decide (x = y) then 0%nat else occurrences x l.
Proof.
  induction l as [|z l IH]; [by destruct (decide (x = y))|].
  rewrite without_cons, (occurrences_cons x z l).
  destruct (decide (z = y)) as [->|Hzy].
  - rewrite IH. destruct (decide (x = y)) as [->|Hxy]; [done|].
    by rewrite decide_False by congruence.
  - rewrite occurrences_cons, IH.
    destruct (decide (x = y)) as [->|Hxy]; [|done].
    by rewrite decide_False.
Qed.

Lemma NoDup_occurrences l : NoDup l ↔ ∀ x, (occurrences x l ≤ 1)%nat.
Proof.
  induction l as [|y l IH].
  - split; [intros _ x; unfold occurrences; simpl; lia | constructor].
  - rewrite NoDup_cons, IH. split.
    + intros [Hy Hl] x. rewrite occurrences_cons.
      destruct (decide (y = x)) as [<-|Hne]; [|apply Hl].
      apply occurrences_zero in Hy. lia.
    + intros Hocc. split.
      * apply occurrences_zero. specialize (Hocc y).
        rewrite occurrences_cons, decide_True in Hocc by done. lia.
      * intros x. specialize (Hocc x). rewrite occurrences_cons in Hocc.
        destruct (decide (y = x)); lia.
Qed.

(** ** The loops of [remove_way] and [add_way] *)

(** The loop of [remove_way] on a sequence [l] whose nodes list the way as
    often as they occur in [l]: it returns, and the nodes of [l] are left
    without the way, or deleted when no other way remains. *)
Lemma detach_way_lookup wid l ns :
  (∀ nid, nid ∈ l →
     ∃ n, ns !! nid = Some n
          ∧ occurrences wid (way_ids n) = occurrences nid l) →
  ∃ ns', detach_way wid l ns = Ok ns'
    ∧ ∀ k, ns' !! k =
           match ns !! k with
           | Some n => if decide (k ∈ l) then detached wid n else Some n
           | None => None
           end.
Proof.
  revert ns. induction l as [|nid l IH]; intros ns Hatt.
  - exists ns. split; [done|]. intros k. destruct (ns !! k); [|done].
    rewrite decide_False; [done | apply not_elem_of_nil].
  - destruct (Hatt nid) as (n & Hn & Hocc); [left|].
    rewrite occurrences_cons, decide_True in Hocc by done.
    simpl. rewrite Hn.
    assert (Hocc' : occurrences wid (way_ids (remove_way_id wid n))
                    = occurrences nid l).
    { simpl. rewrite occurrences_remove_first, Hocc. done. }
    assert (Hwo : without wid (way_ids (remove_way_id wid n))
                  = without wid (way_ids n))
      by apply without_remove_first.
    change (remove_first wid (way_ids n))
      with (way_ids (remove_way_id wid n)).
    case_bool_decide as Hlen.
    + (* the node is deleted *)
      apply nil_length_inv in Hlen.
      assert (Hnot : nid ∉ l).
      { apply occurrences_zero. rewrite <- Hocc', Hlen. done. }
      destruct (IH (delete nid ns)) as (ns' & Hrun & Hlook).
      { intros k Hk. assert (k ≠ nid) by (intros ->; done).
        destruct (Hatt k) as (m & Hm & Hoccm); [by right|].
        exists m. rewrite lookup_delete_ne by done. split; [done|].
        rewrite Hoccm, occurrences_cons, decide_False by done. done. }
      exists ns'. split; [exact Hrun|]. intros k. rewrite Hlook.
      destruct (decide (k = nid)) as [->|Hne].
      * rewrite lookup_delete_eq, Hn, decide_True by left.
        unfold detached. rewrite <- Hwo, Hlen. done.
      * rewrite lookup_delete_ne by done. destruct (ns !! k); [|done].
        destruct (decide (k ∈ l)) as [Hin|Hin].
        -- rewrite decide_True by (by right). done.
        -- rewrite decide_False; [done|]. rewrite not_elem_of_cons. done.
    + (* the node stays *)
      destruct (IH (<[nid := remove_way_id wid n]> ns)) as (ns' & Hrun & Hlook).
      { intros k Hk. destruct (decide (k = nid)) as [->|Hne].
        - exists (remove_way_id wid n). rewrite lookup_insert_eq. done.
        - destruct (Hatt k) as (m & Hm & Hoccm); [by right|].
          exists m. rewrite lookup_insert_ne by done. split; [done|].
          rewrite Hoccm, occurrences_cons, decide_False by done. done. }
      exists ns'. split; [exact Hrun|]. intros k. rewrite Hlook.
      destruct (decide (k = nid)) as [->|Hne].
      * rewrite lookup_insert_eq, Hn, (decide_True _ _ (list_elem_of_here _ _)).
        destruct (decide (nid ∈ l)) as [Hin|Hin].
        -- unfold detached. rewrite Hwo.
           destruct (without wid (way_ids n)); done.
        -- assert (Hw : wid ∉ way_ids (remove_way_id wid n)).
           { apply occurrences_zero. rewrite Hocc'. by apply occurrences_zero. }
           unfold detached. rewrite <- Hwo, (without_absent _ _ Hw).
           unfold remove_way_id in *. simpl in *.
           destruct (remove_first wid (way_ids n)); done.
      * rewrite lookup_insert_ne by done. destruct (ns !! k); [|done].
        destruct (decide (k ∈ l)) as [Hin|Hin].
        -- rewrite decide_True by (by right). done.
        -- rewrite decide_False; [done|]. rewrite not_elem_of_cons. done.
Qed.

(** The loop of [add_way] on a sequence whose nodes are stored: it
    returns, and every node has gained the way once for each of its
    occurrences in the sequence. *)
Lemma attach_way_lookup wid l ns :
  (∀ nid, nid ∈ l → is_Some (ns !! nid)) →
  ∃ ns', attach_way wid l ns = Ok ns'
    ∧ ∀ k, ns' !! k =
           (λ n, set_way_ids (way_ids n ++ replicate (occurrences k l) wid) n)
             <$> ns !! k.
Proof.
  revert ns. induction l as [|nid l IH]; intros ns Hpres.
  - exists ns. split; [done|]. intros k. destruct (ns !! k) as [[]|]; simpl;
      [|done]. unfold set_way_ids. simpl. by rewrite app_nil_r.
  - destruct (Hpres nid) as [n Hn]; [left|]. simpl. rewrite Hn.
    destruct (IH (<[nid := append_way wid n]> ns)) as (ns' & Hrun & Hlook).
    { intros k Hk. destruct (decide (k = nid)) as [->|Hne].
      - rewrite lookup_insert_eq. eauto.
      - rewrite lookup_insert_ne by done. apply Hpres. by right. }
    exists ns'. split; [done|]. intros k. rewrite Hlook, occurrences_cons.
    destruct (decide (k = nid)) as [->|Hne].
    + rewrite lookup_insert_eq, Hn, decide_True by done. simpl.
      unfold set_way_ids. simpl. by rewrite <- app_assoc.
    + rewrite lookup_insert_ne, decide_False by done. done.
Qed.

(** ** Referential integrity *)

#[export] Instance incident_dec net nid wid : Decision (incident net nid wid).
Proof. unfold incident. destruct (ways net !! wid); apply _. Defined.

#[export] Instance listed_per_occurrence_dec net n wid :
  Decision (listed_per_occurrence net n wid).
Proof. unfold listed_per_occurrence. apply _. Defined.

#[export] Instance per_occurrence_at_dec net n :
  Decision (per_occurrence_at net n).
Proof. unfold per_occurrence_at. apply _. Defined.

#[export] Instance integrity_at_dec net n : Decision (integrity_at net n).
Proof. unfold integrity_at. apply _. Defined.

Lemma per_occurrence_at_spec net n :
  per_occurrence_at net n ↔ ∀ wid, listed_per_occurrence net n wid.
Proof.
  unfold per_occurrence_at. rewrite Forall_forall, map_Forall_lookup. split.
  - intros [Hin Hst] wid.
    destruct (decide (wid ∈ way_ids n)) as [Hw|Hw]; [by apply Hin|].
    destruct (ways net !! wid) as [w|] eqn:Hwid; [by eapply Hst|].
    unfold listed_per_occurrence. rewrite Hwid. by apply occurrences_zero.
  - intros H. split; intros; apply H.
Qed.

Lemma integrity_at_spec net n :
  integrity_at net n ↔
  NoDup (way_ids n) ∧ ∀ wid, wid ∈ way_ids n ↔ incident net (node_id n) wid.
Proof.
  unfold integrity_at. rewrite Forall_forall, map_Forall_lookup. split.
  - intros (Hnd & Hin & Hout). split; [done|]. intros wid. split; [by auto|].
    unfold incident. destruct (ways net !! wid) as [w|] eqn:Hw; [|done].
    by apply Hout.
  - intros (Hnd & Hiff). split; [done|]. split.
    + intros wid. apply Hiff.
    + intros wid w Hw Hn. apply Hiff. unfold incident. by rewrite Hw.
Qed.

Lemma per_occurrence_alt net :
  per_occurrence net
  ↔ map_Forall (λ _ n, per_occurrence_at net n) (nodes net).
Proof.
  unfold per_occurrence. rewrite map_Forall_lookup.
  split; intros H nid n Hn; apply per_occurrence_at_spec; eauto.
Qed.

Lemma referential_integrity_alt net :
  referential_integrity net
  ↔ map_Forall (λ _ n, integrity_at net n) (nodes net).
Proof.
  unfold referential_integrity. rewrite map_Forall_lookup.
  split; intros H nid n Hn; apply integrity_at_spec; eauto.
Qed.

#[export] Instance per_occurrence_dec net : Decision (per_occurrence net).
Proof.
  refine (cast_if
            (decide (map_Forall (λ _ n, per_occurrence_at net n) (nodes net))));
    by rewrite per_occurrence_alt.
Defined.

#[export] Instance referential_integrity_dec net :
  Decision (referential_integrity net).
Proof.
  refine (cast_if
            (decide (map_Forall (λ _ n, integrity_at net n) (nodes net))));
    by rewrite referential_integrity_alt.
Defined.

#[export] Instance well_keyed_dec net : Decision (well_keyed net).
Proof.
  refine (cast_if (decide (map_Forall (λ k n, node_id n = k) (nodes net))));
    unfold well_keyed; by rewrite map_Forall_lookup in *.
Defined.

#[export] Instance nodes_present_dec net l : Decision (nodes_present net l).
Proof.
  refine (cast_if (decide (Forall (λ nid, is_Some (nodes net !! nid)) l)));
    unfold nodes_present; by rewrite Forall_forall in *.
Defined.

#[export] Instance no_repeated_node_dec net : Decision (no_repeated_node net).
Proof.
  refine (cast_if (decide (map_Forall (λ _ w, NoDup (nids w)) (ways net))));
    unfold no_repeated_node; by rewrite map_Forall_lookup in *.
Defined.

(** With one entry per occurrence, the list of a node is, as a set, the set
    of the ways through the node. *)
Lemma per_occurrence_set_integrity net :
  per_occurrence net → set_integrity net.
Proof.
  intros Hper nid n Hn wid. specialize (Hper nid n Hn wid).
  unfold listed_per_occurrence in Hper. unfold incident.
  destruct (decide (wid ∈ way_ids n)) as [Hin|Hin].
  - split; [intros _|done].
    destruct (ways net !! wid) as [w|].
    + destruct (decide (node_id n ∈ nids w)) as [|Hout]; [done|].
      apply occurrences_zero in Hout. rewrite Hout in Hper.
      by apply occurrences_zero in Hper.
    + by apply occurrences_zero in Hper.
  - split; [done|]. intros Hinc. apply occurrences_zero in Hin.
    rewrite Hin in Hper. destruct (ways net !! wid) as [w|]; [|done].
    symmetry in Hper. by apply occurrences_zero in Hper.
Qed.

(** It has no repetition when no way visits a node twice. *)
Lemma per_occurrence_integrity net :
  per_occurrence net → no_repeated_node net → referential_integrity net.
Proof.
  intros Hper Hways nid n Hn.
  split; [|exact (per_occurrence_set_integrity net Hper nid n Hn)].
  apply NoDup_occurrences. intros wid. rewrite (Hper nid n Hn wid).
  destruct (ways net !! wid) as [w|] eqn:Hw; [|lia].
  by apply NoDup_occurrences, (Hways wid).
Qed.

Lemma add_node_per_occurrence node net :
  well_keyed net → per_occurrence net →
  way_ids node = [] → (∀ wid, ¬ incident net (node_id node) wid) →
  well_keyed (add_node node net) ∧ per_occurrence (add_node node net).
Proof.
  intros Hkey Hper Hnil Hfree. split.
  - intros k n. unfold add_node. simpl.
    destruct (decide (k = node_id node)) as [->|Hne].
    + rewrite lookup_insert_eq. by intros [= <-].
    + rewrite lookup_insert_ne by done. apply Hkey.
  - intros k n. unfold add_node. simpl.
    destruct (decide (k = node_id node)) as [->|Hne].
    + rewrite lookup_insert_eq. intros [= <-] wid.
      unfold listed_per_occurrence. rewrite Hnil. simpl.
      specialize (Hfree wid). unfold incident in Hfree.
      destruct (ways net !! wid) as [w|]; [|done].
      symmetry. by apply occurrences_zero.
    + rewrite lookup_insert_ne by done. apply Hper.
Qed.

Lemma add_way_per_occurrence w net :
  well_keyed net → per_occurrence net →
  ways net !! way_id w = None → nodes_present net (nids w) →
  ∃ net', add_way w net = Ok net' ∧ well_keyed net' ∧ per_occurrence net'.
Proof.
  intros Hkey Hper Hfresh Hpres.
  destruct (attach_way_lookup (way_id w) (nids w) (nodes net) Hpres)
    as (ns' & Hrun & Hlook).
  exists (mkNetwork ns' (<[way_id w := w]> (ways net))). split.
  { unfold add_way. by rewrite Hrun. }
  split.
  - intros k n'. simpl. rewrite Hlook.
    destruct (nodes net !! k) as [n|] eqn:Hn; [|done]. simpl.
    intros [= <-]. simpl. by apply Hkey.
  - intros k n'. simpl. rewrite Hlook.
    destruct (nodes net !! k) as [n|] eqn:Hn; [|done]. simpl.
    intros [= <-] wid. unfold listed_per_occurrence. simpl.
    rewrite occurrences_app, occurrences_replicate, (Hper k n Hn wid).
    rewrite (Hkey k n Hn).
    destruct (decide (way_id w = wid)) as [<-|Hne].
    + by rewrite lookup_insert_eq, Hfresh.
    + rewrite lookup_insert_ne by done. lia.
Qed.

(** ** [remove_way] *)

Lemma remove_way_lookup s wid w net :
  ways net !! wid = Some w → attached net wid (nids w) →
  ∃ net', remove_way s wid net = Ok net'
    ∧ ways net' = delete wid (ways net)
    ∧ ∀ k, nodes net' !! k =
           match nodes net !! k with
           | Some n => if decide (k ∈ nids w) then detached wid n else Some n
           | None => None
           end.
Proof.
  intros Hw Hatt.
  destruct (detach_way_lookup wid (nids w) (nodes net) Hatt)
    as (ns' & Hrun & Hlook).
  exists (mkNetwork ns' (delete wid (ways net))).
  split; [|done].
  unfold remove_way, deref_way, ways_remove. rewrite Hw. simpl.
  by rewrite Hrun.
Qed.

Lemma per_occurrence_attached net wid w :
  well_keyed net → per_occurrence net →
  ways net !! wid = Some w → nodes_present net (nids w) →
  attached net wid (nids w).
Proof.
  intros Hkey Hper Hw Hpres nid Hin.
  destruct (Hpres nid Hin) as [n Hn]. exists n. split; [done|].
  rewrite (Hper nid n Hn wid), Hw. by rewrite (Hkey nid n Hn).
Qed.

Lemma remove_way_per_occurrence s wid w net :
  well_keyed net → per_occurrence net →
  ways net !! wid = Some w → nodes_present net (nids w) →
  ∃ net', remove_way s wid net = Ok net'
          ∧ well_keyed net' ∧ per_occurrence net'.
Proof.
  intros Hkey Hper Hw Hpres.
  destruct (remove_way_lookup s wid w net Hw) as (net' & Hrun & Hways & Hlook).
  { by apply per_occurrence_attached. }
  exists net'. split; [done|].
  assert (Horig : ∀ k n', nodes net' !! k = Some n' →
            ∃ n, nodes net !! k = Some n ∧ node_id n' = node_id n
                 ∧ way_ids n' = without wid (way_ids n)).
  { intros k n'. rewrite Hlook.
    destruct (nodes net !! k) as [n|] eqn:Hn; [|done].
    destruct (decide (k ∈ nids w)) as [Hin|Hin].
    - unfold detached. destruct (without wid (way_ids n)) eqn:Hwo; [done|].
      intros [= <-]. exists n. by rewrite Hwo.
    - intros [= <-]. exists n. split; [done|]. split; [done|].
      symmetry. apply without_absent, occurrences_zero.
      rewrite (Hper k n Hn wid), Hw, (Hkey k n Hn).
      by apply occurrences_zero. }
  split.
  - intros k n' Hn'. destruct (Horig k n' Hn') as (n & Hn & -> & _).
    by apply Hkey.
  - intros k n' Hn' x. destruct (Horig k n' Hn') as (n & Hn & Hid & Hl).
    unfold listed_per_occurrence.
    rewrite Hl, Hid, occurrences_without, Hways.
    destruct (decide (x = wid)) as [->|Hne].
    + by rewrite lookup_delete_eq.
    + rewrite lookup_delete_ne by done. apply (Hper k n Hn x).
Qed.

(** C2 (as amended).  [remove_way(id)] on a way that is stored, in a
    network where the nodes of the way are stored and list the way as often
    as they occur in its sequence: the call returns; every node of the way loses the way id
    from its list, is deleted when nothing remains in the list and is kept
    when another way remains; the other nodes are as they were; the way
    itself is deleted and the other ways are as they were. *)
Theorem remove_way_detaches s wid w net :
  ways net !! wid = Some w → attached net wid (nids w) →
  ∃ net', remove_way s wid net = Ok net'
    ∧ ways net' = delete wid (ways net)
    ∧ (∀ nid, nid ∈ nids w →
         ∃ n, nodes net !! nid = Some n
           ∧ nodes net' !! nid = detached wid n
           ∧ (∀ n', nodes net' !! nid = Some n' →
                way_ids n' = without wid (way_ids n) ∧ wid ∉ way_ids n')
           ∧ (without wid (way_ids n) = [] → nodes net' !! nid = None)
           ∧ (∀ other, other ∈ way_ids n → other ≠ wid →
                is_Some (nodes net' !! nid)))
    ∧ (∀ nid, nid ∉ nids w → nodes net' !! nid = nodes net !! nid).
Proof.
  intros Hw Hatt.
  destruct (remove_way_lookup s wid w net Hw Hatt)
    as (net' & Hrun & Hways & Hlook).
  exists net'. split; [done|]. split; [done|]. split.
  - intros nid Hin. destruct (Hatt nid Hin) as (n & Hn & _). exists n.
    assert (Hnid : nodes net' !! nid = detached wid n).
    { rewrite Hlook, Hn. by rewrite decide_True. }
    split; [done|]. split; [done|]. rewrite Hnid. unfold detached.
    split; [|split].
    + destruct (without wid (way_ids n)) eqn:Hwo; [done|].
      intros n' [= <-]. simpl. rewrite <- Hwo. split; [done|].
      rewrite elem_of_without. tauto.
    + by intros ->.
    + intros other Hother Hne.
      assert (Hel : other ∈ without wid (way_ids n))
        by by apply elem_of_without.
      destruct (without wid (way_ids n)); [by apply elem_of_nil in Hel|].
      eauto.
  - intros nid Hin. rewrite Hlook. destruct (nodes net !! nid); [|done].
    by rewrite decide_False.
Qed.

(** The hypotheses of [remove_way_detaches] hold in [corner_net] for the
    way ["a"]: its node ["n1"] is deleted and its node ["n2"], which the
    way ["b"] still uses, is kept. *)
Lemma remove_way_detaches_witness :
  ∃ net', remove_way GetReturnsNone "a" corner_net = Ok net'
    ∧ ways net' !! "a" = None
    ∧ nodes net' !! "n1" = None
    ∧ (way_ids <$> nodes net' !! "n2") = Some ["b"].
Proof.
  assert (Hw : ways corner_net !! "a" = Some (mkStreet "a" ["n1"; "n2"] None))
    by reflexivity.
  assert (Hatt : attached corner_net "a" ["n1"; "n2"]).
  { intros nid Hin.
    apply elem_of_cons in Hin as [->|Hin];
      [|apply elem_of_cons in Hin as [->|Hin]; [|by apply elem_of_nil in Hin]].
    - exists (mkNode "n1" 0 0 ["a"] 2). split; reflexivity.
    - exists (mkNode "n2" 0 1 ["a"; "b"] 2). split; reflexivity. }
  destruct (remove_way_detaches GetReturnsNone "a" _ corner_net Hw Hatt)
    as (net' & Hrun & Hways & Hin & Hout).
  exists net'. split; [exact Hrun|]. split.
  - rewrite Hways. apply lookup_delete_eq.
  - destruct (Hin "n1") as (n1 & Hn1 & Hd1 & _); [by left|].
    destruct (Hin "n2") as (n2 & Hn2 & Hd2 & _); [by right; left|].
    injection Hn1 as <-. injection Hn2 as <-.
    rewrite Hd1, Hd2. split; reflexivity.
Defined.

(** C2 as stated fails.  [join_ways("a", "b")] makes [joined_net] of
    [corner_net]; the way ["a"] is stored in it and its nodes are stored.
    [remove_way("a")] returns and deletes the way, and takes one entry out
    of the list of each node that the way visits: the node ["n2"], which
    the way visits once and which lists the way twice, still lists ["a"]
    and is kept, and so is the node ["n3"], which lists ["a"] and which the
    way does not visit.  No way is left in the network. *)
Lemma remove_way_leaves_entry :
  join_ways GetReturnsNone "a" "b" corner_net = Ok joined_net
  ∧ ways joined_net !! "a" = Some (mkStreet "a" ["n1"; "n2"] None)
  ∧ nodes_present joined_net ["n1"; "n2"]
  ∧ ¬ attached joined_net "a" ["n1"; "n2"]
  ∧ ∃ net', remove_way GetReturnsNone "a" joined_net = Ok net'
      ∧ ways net' = ∅
      ∧ nodes net' !! "n1" = None
      ∧ (way_ids <$> nodes net' !! "n2") = Some ["a"]
      ∧ (way_ids <$> nodes net' !! "n3") = Some ["a"].
Proof.
  split; [vm_compute; reflexivity|]. split; [reflexivity|]. split.
  { intros nid Hin.
    apply elem_of_cons in Hin as [->|Hin];
      [|apply elem_of_cons in Hin as [->|Hin]; [|by apply elem_of_nil in Hin]];
      by eexists. }
  split.
  { intros Hatt. destruct (Hatt "n2") as (n & Hn & Hocc); [by right; left|].
    injection Hn as <-. vm_compute in Hocc. discriminate. }
  eexists. split; [vm_compute; reflexivity|]. repeat split; reflexivity.
Qed.

(** C1 (as amended).  In a network whose nodes are stored under their ids
    and whose nodes list each way once for each of their occurrences in the
    way, the list of ways of every node, viewed as a set, equals exactly
    the set of the ids of the ways whose sequence contains the node, and it
    has no repetition when no way visits a node twice.  The operations
    [add_node] (of a node with an empty list of ways that no way refers
    to), [add_way] (of a way with a new id whose nodes are stored) and
    [remove_way] (of a stored way whose nodes are stored) return a network
    of the same kind. *)
Theorem integrity_preserved s net :
  well_keyed net → per_occurrence net →
  (set_integrity net ∧ (no_repeated_node net → referential_integrity net))
  ∧ (∀ node, way_ids node = [] → (∀ wid, ¬ incident net (node_id node) wid) →
       well_keyed (add_node node net) ∧ per_occurrence (add_node node net))
  ∧ (∀ w, ways net !! way_id w = None → nodes_present net (nids w) →
       ∃ net', add_way w net = Ok net'
               ∧ well_keyed net' ∧ per_occurrence net')
  ∧ (∀ wid w, ways net !! wid = Some w → nodes_present net (nids w) →
       ∃ net', remove_way s wid net = Ok net'
               ∧ well_keyed net' ∧ per_occurrence net').
Proof.
  intros Hkey Hper. split; [|split; [|split]].
  - split; [by apply per_occurrence_set_integrity|].
    by apply per_occurrence_integrity.
  - intros node. by apply add_node_per_occurrence.
  - intros w. by apply add_way_per_occurrence.
  - intros wid w. by apply remove_way_per_occurrence.
Qed.

(** [corner_net] is such a network; so is the network obtained by adding
    the way ["c"] from ["n1"] to ["n3"], which has referential integrity
    since none of its ways visits a node twice. *)
Lemma integrity_preserved_witness :
  ∃ net', add_way (mkStreet "c" ["n1"; "n3"] None) corner_net = Ok net'
          ∧ set_integrity net' ∧ referential_integrity net'.
Proof.
  assert (Hkey : well_keyed corner_net)
    by (apply (bool_decide_unpack _); vm_compute; exact I).
  assert (Hper : per_occurrence corner_net)
    by (apply (bool_decide_unpack _); vm_compute; exact I).
  destruct (integrity_preserved GetReturnsNone corner_net Hkey Hper)
    as (_ & _ & Hadd & _).
  destruct (Hadd (mkStreet "c" ["n1"; "n3"] None)) as (net' & Hrun & Hkey' & Hper').
  - reflexivity.
  - apply (bool_decide_unpack _). vm_compute. exact I.
  - exists net'. split; [exact Hrun|].
    destruct (integrity_preserved GetReturnsNone net' Hkey' Hper')
      as ((Hset & Hint) & _).
    split; [exact Hset|]. apply Hint.
    assert (Hnet : Ok net'
                   = add_way (mkStreet "c" ["n1"; "n3"] None) corner_net)
      by (by rewrite Hrun).
    injection Hnet as ->.
    apply (bool_decide_unpack _). vm_compute. exact I.
Defined.

(** C1 as stated fails: [loop_net] has referential integrity, and after
    [add_way] of the closed way [loop_way] the node ["a"], which the way
    visits twice, lists the way twice. *)
Lemma add_way_breaks_integrity :
  referential_integrity loop_net
  ∧ ∃ net', add_way loop_way loop_net = Ok net'
            ∧ (way_ids <$> nodes net' !! "a") = Some ["w"; "w"]
            ∧ ¬ referential_integrity net'.
Proof.
  split.
  - apply (bool_decide_unpack _). vm_compute. exact I.
  - eexists. split; [reflexivity|]. split; [reflexivity|].
    apply (bool_decide_eq_false_1 _). vm_compute. reflexivity.
Qed.

(** ** [join_ways] *)

(** [join_ways("a", "b")] in [corner_net], where both ways are stored and
    referential integrity holds: the node ["n2"], which was on both ways,
    lists ["a"] twice, and the node ["n3"] lists ["a"], whose sequence does
    not contain it. *)
Lemma join_ways_breaks_integrity s :
  referential_integrity corner_net
  ∧ ∃ net', join_ways s "a" "b" corner_net = Ok net'
      ∧ (nids <$> ways net' !! "a") = Some ["n1"; "n2"]
      ∧ ways net' !! "b" = None
      ∧ (way_ids <$> nodes net' !! "n2") = Some ["a"; "a"]
      ∧ (way_ids <$> nodes net' !! "n3") = Some ["a"]
      ∧ ¬ referential_integrity net'.
Proof.
  split; [apply (bool_decide_unpack _); vm_compute; exact I|].
  eexists. split; [by destruct s|]. repeat (split; [reflexivity|]).
  apply (bool_decide_eq_false_1 _). vm_compute. reflexivity.
Qed.

(** C8 fails on the code.  [join_ways("a", "b")] in [single_way_net], where
    no way ["a"] is stored: the call returns normally, having relabelled the
    two nodes of ["b"] with the absent id ["a"] and deleted the way
    ["b"]. *)
Theorem join_ways_absent_first s :
  ways single_way_net !! "a" = None
  ∧ ∃ net', join_ways s "a" "b" single_way_net = Ok net'
      ∧ ways net' = ∅
      ∧ (way_ids <$> nodes net' !! "n1") = Some ["a"]
      ∧ (way_ids <$> nodes net' !! "n2") = Some ["a"]
      ∧ net' ≠ single_way_net.
Proof.
  split; [reflexivity|].
  eexists. split; [by destruct s|].
  split; [reflexivity|]. split; [reflexivity|]. split; [reflexivity|].
  intros H. apply (f_equal (λ n, way_ids <$> nodes n !! "n1")) in H.
  discriminate H.
Qed.

(** ** Inversion of fallible computations *)

Lemma bind_Ok {A B} (m : res A) (k : A → res B) b :
  m ≫= k = Ok b → ∃ a, m = Ok a ∧ k a = Ok b.
Proof. destruct m as [a|e]; [by exists a | done]. Qed.

(** Inverts the successive steps of a computation that returned. *)
Ltac invert_binds H :=
  repeat match type of H with
         | _ ≫= _ = Ok _ =>
             let E := fresh "E" in apply bind_Ok in H as (? & E & H)
         | (let '(_, _) := ?c in _) = Ok _ => destruct c
         end.

Lemma add_way_ways w net net' :
  add_way w net = Ok net' → ways net' = <[way_id w := w]> (ways net).
Proof.
  unfold add_way. intros (ns & _ & [= <-])%bind_Ok. done.
Qed.

Lemma remove_way_ways s wid net net' :
  remove_way s wid net = Ok net' → ways net' = delete wid (ways net).
Proof.
  unfold remove_way. intros (w & _ & H)%bind_Ok.
  apply bind_Ok in H as (ns & _ & H). apply bind_Ok in H as (ws & Hws & H).
  injection H as <-. unfold ways_remove in Hws.
  destruct (ways net !! wid); [|done]. by injection Hws as <-.
Qed.

(** ** The street splitter *)

(** When the last index handed to the inner loop is the index of the last
    node, and the way has more than one node, the loop cuts there: the last
    sub-way consists of the last node alone. *)
Lemma split_pieces_last_single l prev_idx ii :
  last ii = Some (length l - 1)%nat → (2 ≤ length l)%nat →
  last (split_pieces l prev_idx ii) = Some (drop (length l - 1) l)
  ∧ length (drop (length l - 1) l) = 1%nat.
Proof.
  intros Hlast Hlen. split; [|rewrite length_drop; lia].
  revert prev_idx. induction ii as [|idx ii IH]; intros prev_idx; [done|].
  destruct ii as [|idx' ii].
  - injection Hlast as ->. simpl.
    rewrite !bool_decide_eq_true_2 by lia. done.
  - specialize (IH Hlast). remember (idx' :: ii) as rest. simpl.
    destruct (bool_decide (idx ≠ 0%nat) && bool_decide (idx ≠ length l)).
    + rewrite last_cons, (IH idx). done.
    + apply IH.
Qed.

(** C3 fails on the code.  In [junction_net] the way ["w"] has exactly two
    junction nodes strictly inside, ["b"] and ["c"], and its last node
    ["d"] is a junction too.  The test [idx != len(way.nids)] lets the
    index of the last node pass, so [split_streets] cuts there as well: it
    adds four ways, the last of which is the single node ["d"]. *)
Theorem split_streets_cuts_at_last_node s :
  (is_intersection <$> nodes junction_net !! "a") = Some false
  ∧ (is_intersection <$> nodes junction_net !! "b") = Some true
  ∧ (is_intersection <$> nodes junction_net !! "c") = Some true
  ∧ (is_intersection <$> nodes junction_net !! "d") = Some true
  ∧ ∃ net', split_streets s example_ids 0 junction_net = Ok (net', 4%nat)
      ∧ ways net' !! "w" = None
      ∧ (nids <$> ways net' !! "new0") = Some ["a"; "b"]
      ∧ (nids <$> ways net' !! "new1") = Some ["b"; "c"]
      ∧ (nids <$> ways net' !! "new2") = Some ["c"; "d"]
      ∧ (nids <$> ways net' !! "new3") = Some ["d"]
      ∧ size (ways net') = 7%nat.
Proof.
  repeat (split; [reflexivity|]).
  eexists. split; [destruct s; vm_compute; reflexivity|].
  repeat split; vm_compute; reflexivity.
Qed.

(** ** The two-way cleaner *)

(** C4 fails on the code.  In [end_to_end_net] the node ["s"] has exactly
    the two ways ["w1"] and ["w2"] and is the last node of both (the fourth
    concatenation case).  [way_2.nids[1::-1]] is the reversal of the first
    two nodes of the second way, here the whole way, so the fused way
    ["a"; "s"; "s"; "b"] holds the shared node twice and has four nodes,
    not 2 + 2 - 1. *)
Theorem clean_fourth_case_repeats_node s :
  ∃ net', clean_street_segmentation s example_ids 0 end_to_end_net
          = Ok (net', 1%nat)
      ∧ ways net' !! "w1" = None ∧ ways net' !! "w2" = None
      ∧ (nids <$> ways net' !! "new0") = Some ["a"; "s"; "s"; "b"]
      ∧ size (ways net') = 1%nat.
Proof.
  eexists. split; [destruct s; vm_compute; reflexivity|].
  repeat split; vm_compute; reflexivity.
Qed.

(** The number of nodes of the fused way in the four cases, for ways that
    are not empty: the sum of the two minus one in the first three; in the
    fourth, the first way and at most two nodes of the second. *)
Lemma combined_nids_length (l1 l2 : list string) idx1 idx2 :
  l1 ≠ [] → l2 ≠ [] →
  length (combined_nids l1 l2 idx1 idx2)
  = match idx1, idx2 with
    | S _, S _ => (length l1 + Nat.min 2 (length l2))%nat
    | _, _ => (length l1 + length l2 - 1)%nat
    end.
Proof.
  intros H1 H2.
  assert (0 < length l1)%nat by (destruct l1; [done | simpl; lia]).
  assert (0 < length l2)%nat by (destruct l2; [done | simpl; lia]).
  unfold combined_nids, reversed_down_to_1, all_but_last, reversed_from_1.
  destruct idx1, idx2;
    rewrite length_app, ?length_reverse, ?length_drop, ?length_take; lia.
Qed.

Lemma fuse_at_ways s gen node wid1 wid2 k net net' k' :
  fuse_at s gen node wid1 wid2 k net = Ok (net', k') →
  ∃ l, ways net'
       = delete wid2 (delete wid1
           (<[gen k := mkStreet (gen k) l (Some "footway")]> (ways net))).
Proof.
  unfold fuse_at. intros (way_1 & _ & H)%bind_Ok.
  apply bind_Ok in H as (way_2 & _ & H). apply bind_Ok in H as (w1 & _ & H).
  apply bind_Ok in H as (idx1 & _ & H). apply bind_Ok in H as (w2 & _ & H).
  apply bind_Ok in H as (idx2 & _ & H). apply bind_Ok in H as (net1 & H1 & H).
  apply bind_Ok in H as (net2 & H2 & H). apply bind_Ok in H as (net3 & H3 & H).
  injection H as <- <-.
  apply add_way_ways in H1. apply remove_way_ways in H2, H3.
  eexists. rewrite H3, H2, H1. reflexivity.
Qed.

Lemma clean_from_ways s gen snapshot k net net' k' wid w :
  clean_from s gen snapshot k net = Ok (net', k') →
  ways net' !! wid = Some w →
  ways net !! wid = Some w ∨ wtype w = Some "footway".
Proof.
  revert k net. induction snapshot as [|nid rest IH]; intros k net Hrun Hw.
  - injection Hrun as <- <-. by left.
  - simpl in Hrun. destruct (nodes net !! nid) as [node|]; [|by eauto].
    destruct (way_ids node) as [|wid1 [|wid2 [|]]]; try by eauto.
    apply bind_Ok in Hrun as ([net1 k1] & Hfuse & Hrun).
    apply fuse_at_ways in Hfuse as [l Hways].
    destruct (IH _ _ Hrun Hw) as [Hold|Hfoot]; [|by right].
    rewrite Hways in Hold.
    apply lookup_delete_Some in Hold as [_ Hold].
    apply lookup_delete_Some in Hold as [_ Hold].
    apply lookup_insert_Some in Hold as [[_ <-]|[_ Hold]]; [by right | by left].
Qed.

(** C10.  When [clean_street_segmentation] returns, every way of the
    resulting network that is not a way of the network it started from has
    the type ["footway"], whatever the types of the ways it was fused from;
    the export as map data then gives it the tag [footway=sidewalk] and no
    [highway] tag. *)
Theorem cleaner_makes_footways s gen snapshot k net net' k' wid w :
  clean_from s gen snapshot k net = Ok (net', k') →
  ways net' !! wid = Some w → ways net !! wid ≠ Some w →
  wtype w = Some "footway"
  ∧ export_way w
    = WayOpen (way_id w) :: (NdRef <$> nids w)
      ++ [Tag "footway" "sidewalk"; WayClose]
  ∧ ∀ ty, Tag "highway" ty ∉ export_way w.
Proof.
  intros Hrun Hw Hnew.
  destruct (clean_from_ways _ _ _ _ _ _ _ _ _ Hrun Hw) as [Hold|Hfoot];
    [done|].
  split; [done|].
  assert (Hexp : export_way w
                 = WayOpen (way_id w) :: (NdRef <$> nids w)
                   ++ [Tag "footway" "sidewalk"; WayClose]).
  { unfold export_way, way_tag. rewrite Hfoot. done. }
  split; [done|]. intros ty. rewrite Hexp.
  rewrite elem_of_cons, elem_of_app, list_elem_of_fmap.
  intros [Heq|[(x & Heq & _)|Hin]]; [done..|].
  apply elem_of_cons in Hin as [Heq|Hin]; [done|].
  apply list_elem_of_singleton in Hin. done.
Qed.

(** The cleaner fuses the two tertiary ways of [through_net] into the way
    ["new0"], which is a footway. *)
Lemma cleaner_makes_footways_witness :
  ∃ net' w, clean_street_segmentation GetReturnsNone example_ids 0 through_net
            = Ok (net', 1%nat)
    ∧ ways net' !! "new0" = Some w
    ∧ nids w = ["a"; "s"; "b"]
    ∧ wtype w = Some "footway"
    ∧ render <$> way_tag w = ["<tag k=" +:+ dq +:+ "footway" +:+ dq +:+ " v="
                               +:+ dq +:+ "sidewalk" +:+ dq +:+ " />"].
Proof.
  eexists _, (mkStreet "new0" ["a"; "s"; "b"] (Some "footway")).
  assert (Hrun : clean_street_segmentation GetReturnsNone example_ids 0
                   through_net
                 = Ok (mkNetwork
                         (list_to_map
                            [("a", mkNode "a" 0 0 ["new0"] 3);
                             ("s", mkNode "s" 0 1 ["new0"] 3);
                             ("b", mkNode "b" 0 2 ["new0"] 3)])
                         (list_to_map
                            [("new0", mkStreet "new0" ["a"; "s"; "b"]
                                        (Some "footway"))]),
                       1%nat))
    by (vm_compute; reflexivity).
  split; [exact Hrun|]. split; [reflexivity|]. split; [reflexivity|].
  destruct (cleaner_makes_footways _ _ _ _ _ _ _ "new0"
              (mkStreet "new0" ["a"; "s"; "b"] (Some "footway"))
              Hrun eq_refl) as (Hty & _ & _).
  - vm_compute. discriminate.
  - split; [exact Hty|]. reflexivity.
Defined.

(** ** The polyline simplifier *)

Lemma mapM_res_Ok {A B} (f : A → res B) (l : list A) :
  (∀ x, x ∈ l → ∃ y, f x = Ok y) →
  ∃ r, mapM_res f l = Ok r ∧ Forall2 (λ x y, f x = Ok y) l r.
Proof.
  induction l as [|x l IH]; intros Hf.
  - exists []. split; [done | constructor].
  - destruct (Hf x) as [y Hy]; [left|].
    destruct IH as (r & Hr & Hall); [intros z Hz; apply Hf; by right|].
    exists (y :: r). simpl. rewrite Hy. simpl. rewrite Hr. simpl.
    split; [done | by constructor].
Qed.

Lemma py_nth_Ok {A} (l : list A) i x : l !! i = Some x → py_nth l i = Ok x.
Proof. unfold py_nth. by intros ->. Qed.

(** *** The triangles of a polyline

    The look-ups in [latlngs] made while the triangles are built and
    relinked all succeed: the indices stay within the polyline. *)
Section triangles.
Context (latlngs : list (Q * Q)).

Lemma triangle_area_Ok p i n :
  (p < length latlngs)%nat → (i < length latlngs)%nat →
  (n < length latlngs)%nat →
  ∃ a, triangle_area latlngs p i n = Ok a.
Proof.
  intros [x1 H1]%lookup_lt_is_Some_2 [x2 H2]%lookup_lt_is_Some_2
         [x3 H3]%lookup_lt_is_Some_2.
  unfold triangle_area.
  rewrite (py_nth_Ok _ _ _ H1), (py_nth_Ok _ _ _ H2), (py_nth_Ok _ _ _ H3).
  simpl. eauto.
Qed.

Lemma build_triangles_Ok l d :
  (∀ i, i ∈ l → (1 ≤ i)%nat ∧ (i + 1 < length latlngs)%nat) →
  triangles_in_range (length latlngs) d →
  ∃ d', build_triangles latlngs l d = Ok d'
    ∧ triangles_in_range (length latlngs) d'
    ∧ ∀ i, i ∈ l → is_Some (d' !! i).
Proof.
  revert d. induction l as [|i l IH]; intros d Hl Hd.
  - exists d. split; [done|]. split; [done|]. by intros i ?%elem_of_nil.
  - destruct (Hl i) as [Hi1 Hi2]; [left|].
    destruct (triangle_area_Ok (i - 1) i (i + 1)) as [a Ha];
      [lia..|].
    simpl. unfold new_triangle. rewrite Ha. simpl.
    destruct (IH (<[i := mkTriangle i (i - 1) (i + 1) a]> d))
      as (d' & Hrun & Hrange & Hkeys).
    { intros j Hj. apply Hl. by right. }
    { intros j t. destruct (decide (j = i)) as [->|Hne].
      - rewrite lookup_insert_eq. intros [= <-]. simpl. lia.
      - rewrite lookup_insert_ne by done. apply Hd. }
    exists d'. split; [done|]. split; [done|].
    intros j [->|Hj]%elem_of_cons; [|by apply Hkeys].
    clear -Hrun. revert Hrun. generalize (mkTriangle i (i - 1) (i + 1) a).
    revert d. induction l as [|k l IH]; intros d t.
    + intros [= <-]. rewrite lookup_insert_eq. eauto.
    + simpl. intros (t' & _ & Hrun)%bind_Ok.
      destruct (decide (k = i)) as [->|Hne].
      * rewrite insert_insert_eq in Hrun. by eapply IH.
      * rewrite insert_insert_ne in Hrun by done. by eapply IH.
Qed.

Lemma relink_prev_Ok i p d :
  triangles_in_range (length latlngs) d → (p < length latlngs)%nat →
  ∃ d', relink_prev latlngs i p d = Ok d'
    ∧ triangles_in_range (length latlngs) d'
    ∧ (∀ j, is_Some (d !! j) → is_Some (d' !! j))
    ∧ (∀ j t, d !! j = Some t →
         ∃ t', d' !! j = Some t' ∧ t_idx t' = t_idx t
               ∧ (t_next_idx t' = t_next_idx t)).
Proof.
  intros Hd Hp. unfold relink_prev.
  destruct (d !! i) as [t|] eqn:Ht.
  - destruct (Hd i t Ht) as (_ & Hi & Hn).
    destruct (triangle_area_Ok p (t_idx t) (t_next_idx t))
      as [a Ha]; [done..|].
    rewrite Ha. simpl. eexists. split; [done|]. split; [|split].
    + intros j t'. destruct (decide (j = i)) as [->|Hne].
      * rewrite lookup_insert_eq. intros [= <-]. simpl. done.
      * rewrite lookup_insert_ne by done. apply Hd.
    + intros j. destruct (decide (j = i)) as [->|Hne].
      * rewrite lookup_insert_eq. eauto.
      * by rewrite lookup_insert_ne.
    + intros j t'. destruct (decide (j = i)) as [->|Hne].
      * rewrite lookup_insert_eq, Ht. intros [= <-]. eauto.
      * rewrite lookup_insert_ne by done. eauto.
  - exists d. eauto 10.
Qed.

Lemma relink_next_Ok i n d :
  triangles_in_range (length latlngs) d → (n < length latlngs)%nat →
  ∃ d', relink_next latlngs i n d = Ok d'
    ∧ triangles_in_range (length latlngs) d'
    ∧ (∀ j, is_Some (d !! j) → is_Some (d' !! j)).
Proof.
  intros Hd Hn. unfold relink_next.
  destruct (d !! i) as [t|] eqn:Ht.
  - destruct (Hd i t Ht) as (Hp & Hi & _).
    destruct (triangle_area_Ok (t_prev_idx t) (t_idx t) n)
      as [a Ha]; [done..|].
    rewrite Ha. simpl. eexists. split; [done|]. split.
    + intros j t'. destruct (decide (j = i)) as [->|Hne].
      * rewrite lookup_insert_eq. intros [= <-]. simpl. done.
      * rewrite lookup_insert_ne by done. apply Hd.
    + intros j. destruct (decide (j = i)) as [->|Hne].
      * rewrite lookup_insert_eq. eauto.
      * by rewrite lookup_insert_ne.
  - exists d. eauto.
Qed.

Lemma relink_Ok t d :
  triangles_in_range (length latlngs) d →
  (t_prev_idx t < length latlngs)%nat → (t_next_idx t < length latlngs)%nat →
  ∃ d', relink latlngs t d = Ok d'
    ∧ triangles_in_range (length latlngs) d'
    ∧ (∀ j, is_Some (d !! j) → is_Some (d' !! j)).
Proof.
  intros Hd Hp Hn. unfold relink.
  destruct (relink_prev_Ok (t_idx t + 1) (t_prev_idx t) d Hd Hp)
    as (d1 & -> & Hd1 & Hk1 & _). simpl.
  case_bool_decide; [by exists d1|].
  destruct (relink_next_Ok (t_idx t - 1) (t_next_idx t) d1 Hd1 Hn)
    as (d2 & -> & Hd2 & Hk2).
  exists d2. split; [done|]. split; [done|]. intros j Hj. by apply Hk2, Hk1.
Qed.

End triangles.

Lemma heappop_None key h : heappop key h = None → h = [].
Proof.
  destruct h as [|i h]; [done|]. simpl.
  destruct (heappop key h) as [[j r]|]; [|done].
  by destruct (Qle_bool (key i) (key j)).
Qed.

Lemma heappop_Some key h i h' :
  heappop key h = Some (i, h') → h ≡ₚ i :: h'.
Proof.
  revert i h'. induction h as [|x h IH]; intros i h'; [done|]. simpl.
  destruct (heappop key h) as [[j r]|] eqn:Hpop.
  - destruct (Qle_bool (key x) (key j)); intros [= <- <-]; [done|].
    rewrite (IH j r eq_refl). apply Permutation_swap.
  - apply heappop_None in Hpop as ->. by intros [= <- <-].
Qed.

Lemma simplify_loop_spec fuel latlngs t heap d :
  triangles_in_range (length latlngs) d →
  (∀ i, i ∈ heap → is_Some (d !! i)) →
  ∃ heap', simplify_loop fuel latlngs t heap d = Ok heap'
    ∧ heap' ⊆+ heap
    ∧ (heap' = heap
       ∨ above_threshold (S (length heap')) (length latlngs) t = true)
    ∧ ((length heap < fuel)%nat →
       heap' = [] ∨ above_threshold (length heap') (length latlngs) t = false).
Proof.
  revert heap d. induction fuel as [|fuel IH]; intros heap d Hd Hkeys.
  - exists heap. split; [done|]. split; [done|]. split; [by left | lia].
  - simpl.
    destruct (above_threshold (length heap) (length latlngs) t) eqn:Habove;
      [|exists heap; split; [done|]; split; [done|]; split;
        [by left | by right]].
    destruct (heappop (area_at d) heap) as [[i heap1]|] eqn:Hpop.
    + apply heappop_Some in Hpop.
      destruct (Hkeys i) as [tr Htr]; [rewrite Hpop; left|]. rewrite Htr.
      destruct (Hd i tr Htr) as (Hp & _ & Hn).
      destruct (relink_Ok latlngs tr d Hd Hp Hn) as (d' & -> & Hd' & Hk').
      destruct (IH heap1 d' Hd') as (heap' & -> & Hsub & Hlast & Hexit).
      { intros j Hj. apply Hk', Hkeys. rewrite Hpop. by right. }
      assert (Hlen : length heap = S (length heap1)) by by rewrite Hpop.
      exists heap'. split; [done|]. split; [|split].
      * rewrite Hpop. by apply submseteq_cons.
      * right. destruct Hlast as [->|Hlast]; [by rewrite <- Hlen | done].
      * intros Hfuel. apply Hexit. lia.
    + apply heappop_None in Hpop as ->. exists [].
      split; [done|]. split; [done|]. split; by left.
Qed.

Lemma above_threshold_true h n t :
  (0 < n)%nat → above_threshold h n t = true →
  (t * inject_Z (Z.of_nat n) < inject_Z (Z.of_nat (h + 2)))%Q.
Proof.
  intros Hn Habove. apply Qnot_le_lt. intros Hle.
  unfold above_threshold in Habove. apply negb_true_iff in Habove.
  assert (Htrue : Qle_bool (inject_Z (Z.of_nat (h + 2))
                            / inject_Z (Z.of_nat n)) t = true); [|congruence].
  apply Qle_bool_iff, Qle_shift_div_r; [|done].
  rewrite <- (Zlt_Qlt 0). lia.
Qed.

Lemma above_threshold_false h n t :
  (0 < n)%nat → above_threshold h n t = false →
  (inject_Z (Z.of_nat (h + 2)) <= t * inject_Z (Z.of_nat n))%Q.
Proof.
  intros Hn Habove. unfold above_threshold in Habove.
  apply negb_false_iff, Qle_bool_iff in Habove.
  assert (Hpos : (0 < inject_Z (Z.of_nat n))%Q)
    by (rewrite <- (Zlt_Qlt 0); lia).
  apply (Qmult_le_compat_r _ _ (inject_Z (Z.of_nat n))) in Habove;
    [|by apply Qlt_le_weak].
  eapply Qle_trans; [|exact Habove]. apply Qle_lteq. right. field.
  intros Hz. rewrite Hz in Hpos. by apply Qlt_irrefl in Hpos.
Qed.

(** A sorted list without repetition of numbers from [a] to [a + k - 1]
    is a sub-list of the range. *)
Lemma sorted_sublist_seq (l : list nat) a k :
  StronglySorted Nat.le l → NoDup l →
  (∀ x, x ∈ l → (a ≤ x < a + k)%nat) →
  sublist l (seq a k).
Proof.
  revert a l. induction k as [|k IH]; intros a l Hsort Hnd Hrange.
  - destruct l as [|x l]; [constructor|]. specialize (Hrange x).
    assert (a ≤ x < a + 0)%nat by (apply Hrange; left). lia.
  - destruct l as [|x l]; [apply sublist_nil_l|]. simpl.
    apply StronglySorted_inv in Hsort as [Hsort Hle].
    apply NoDup_cons in Hnd as [Hx Hnd].
    rewrite Forall_forall in Hle.
    destruct (decide (x = a)) as [->|Hne].
    + apply sublist_skip, IH; [done..|]. intros y Hy.
      assert (a ≤ y < a + S k)%nat by (apply Hrange; by right).
      assert (y ≠ a) by (intros ->; done). lia.
    + apply sublist_cons, IH.
      * by apply SSorted_cons; [|apply Forall_forall].
      * by apply NoDup_cons.
      * intros y Hy. apply elem_of_cons in Hy as [Heq|Hy].
        -- assert (a ≤ x < a + S k)%nat by (apply Hrange; left). lia.
        -- assert (a ≤ x < a + S k)%nat by (apply Hrange; left).
           assert (a ≤ y < a + S k)%nat by (apply Hrange; by right).
           specialize (Hle y Hy). unfold Nat.le in Hle. lia.
Qed.

Lemma fmap_lookup_total_seq (l : list string) :
  (λ i, l !!! i) <$> seq 0 (length l) = l.
Proof.
  apply list_eq. intros i. rewrite list_lookup_fmap.
  destruct (decide (i < length l)%nat) as [Hi|Hi].
  - rewrite lookup_seq_lt by done. simpl.
    destruct (lookup_lt_is_Some_2 l i Hi) as [x Hx].
    rewrite Hx. f_equal. by apply list_lookup_total_correct.
  - rewrite lookup_seq_ge, lookup_ge_None_2 by lia. done.
Qed.

Lemma deref_nodes_ids net l ns :
  well_keyed net → Forall2 (λ nid n, deref_node net nid = Ok n) l ns →
  node_id <$> ns = l.
Proof.
  intros Hkey. induction 1 as [|nid n l ns Hn _ IH]; [done|].
  rewrite fmap_cons, IH. f_equal. unfold deref_node in Hn.
  destruct (nodes net !! nid) as [n'|] eqn:Hn'; [|done].
  injection Hn as ->. by apply Hkey.
Qed.

Lemma collect_ids_Ok (ns : list Node) (l : list nat) :
  (∀ idx, idx ∈ l → (idx < length ns)%nat) →
  mapM_res (λ idx, n ← py_nth ns idx ; Ok (node_id n)) l
  = Ok ((λ i, (node_id <$> ns) !!! i) <$> l).
Proof.
  induction l as [|idx l IH]; intros Hl; [done|].
  destruct (lookup_lt_is_Some_2 ns idx) as [n Hn]; [apply Hl; left|].
  simpl. rewrite (py_nth_Ok _ _ _ Hn). simpl.
  rewrite IH by (intros j Hj; apply Hl; by right). simpl.
  do 2 f_equal. symmetry. apply list_lookup_total_correct.
  by rewrite list_lookup_fmap, Hn.
Qed.

Lemma seq_ends n :
  (2 ≤ n)%nat → seq 0 n = 0%nat :: seq 1 (n - 2) ++ [(n - 1)%nat].
Proof.
  intros Hn. replace n with (1 + ((n - 2) + 1))%nat at 1 by lia.
  rewrite seq_app, (seq_app (n - 2) 1 (0 + 1)). simpl.
  do 3 f_equal. lia.
Qed.

(** C5.  [simplify(way_id, t)] on a stored way with [N >= 2] nodes, all of
    them stored under their ids: the call returns and only changes the node
    sequence of the way; the new sequence is a sub-list of the old one (the
    surviving ids, in their original order) with the same first and last
    node; it has exactly [max 2 (min N (floor (t * N)))] nodes, which for
    [t <= 1] is at least [ceil (t * N) - 1]. *)
Theorem simplify_keeps_endpoints s wid w t net :
  well_keyed net → ways net !! wid = Some w →
  nodes_present net (nids w) → (2 ≤ length (nids w))%nat →
  ∃ net' l,
    simplify s wid t net = Ok net'
    ∧ nodes net' = nodes net
    ∧ ways net' = <[wid := set_nids l w]> (ways net)
    ∧ sublist l (nids w)
    ∧ head l = head (nids w) ∧ last l = last (nids w)
    ∧ Z.of_nat (length l)
      = Z.max 2 (Z.min (Z.of_nat (length (nids w)))
                   (Qfloor (t * inject_Z (Z.of_nat (length (nids w))))))
    ∧ ((t <= 1)%Q →
       (Qceiling (t * inject_Z (Z.of_nat (length (nids w))))
        ≤ Z.of_nat (length l) + 1)%Z).
Proof.
  intros Hkey Hw Hpres HN.
  destruct (mapM_res_Ok (deref_node net) (nids w)) as (ns & Hns & Hall).
  { intros nid Hin. destruct (Hpres nid Hin) as [n Hn]. exists n.
    unfold deref_node. by rewrite Hn. }
  pose proof (deref_nodes_ids _ _ _ Hkey Hall) as Hids.
  assert (Hlen : length ns = length (nids w))
    by (by rewrite <- Hids, length_fmap).
  set (latlngs := location <$> ns).
  assert (Hlat : length latlngs = length (nids w))
    by (unfold latlngs; by rewrite length_fmap).
  set (groups := interior_indices (length latlngs)).
  assert (Hgroups : ∀ i, i ∈ groups →
            (1 ≤ i)%nat ∧ (i + 1 < length latlngs)%nat).
  { intros i Hi. apply elem_of_seq in Hi. lia. }
  destruct (build_triangles_Ok latlngs groups ∅ Hgroups)
    as (d & Hd & Hrange & Hkeys).
  { intros i tr. by rewrite lookup_empty. }
  destruct (simplify_loop_spec (S (length groups)) latlngs t groups d
              Hrange Hkeys) as (heap & Hloop & Hsub & Hpopped & Hexit).
  specialize (Hexit (Nat.lt_succ_diag_r _)).
  set (l := merge_sort Nat.le heap).
  assert (Hperm : l ≡ₚ heap) by apply merge_sort_Permutation.
  assert (Hin : ∀ idx, idx ∈ l →
            (1 ≤ idx < 1 + (length (nids w) - 2))%nat).
  { intros idx Hidx. rewrite Hperm in Hidx.
    apply (elem_of_submseteq _ _ _ Hidx), elem_of_seq in Hsub. lia. }
  assert (Hsl : sublist l (seq 1 (length (nids w) - 2))).
  { apply sorted_sublist_seq; [| |done].
    - apply (StronglySorted_merge_sort _).
    - rewrite Hperm.
      apply submseteq_sublist_r in Hsub as (l2 & -> & Hl2).
      eapply sublist_NoDup; [apply NoDup_seq | exact Hl2]. }
  destruct (lookup_lt_is_Some_2 ns 0%nat) as [n0 Hn0]; [lia|].
  assert (Hlast : is_Some (last ns)).
  { rewrite last_lookup. apply lookup_lt_is_Some_2. lia. }
  destruct Hlast as [nl Hnl].
  set (f := λ i : nat, nids w !!! i).
  set (new_nids := f <$> (0%nat :: l ++ [(length (nids w) - 1)%nat])).
  exists (set_ways (<[wid := set_nids new_nids w]> (ways net)) net), new_nids.
  assert (Hcount : length new_nids = (length heap + 2)%nat).
  { unfold new_nids. rewrite length_fmap. simpl. rewrite length_app, Hperm.
    simpl. lia. }
  assert (Hpos : (0 < length latlngs)%nat) by lia.
  assert (Hglen : length groups = (length (nids w) - 2)%nat).
  { unfold groups, interior_indices. rewrite length_seq. lia. }
  split; [|split; [done|split; [done|split; [|split; [|split; [|split]]]]]].
  - unfold simplify, deref_way. rewrite Hw.
    cbn -[simplify_loop merge_sort]. rewrite Hns.
    cbn -[simplify_loop merge_sort]. fold latlngs. fold groups. rewrite Hd.
    cbn -[simplify_loop merge_sort].
    rewrite bool_decide_eq_false_2 by lia. rewrite Hloop.
    cbn -[simplify_loop merge_sort].
    rewrite (py_nth_Ok _ _ _ Hn0). cbn -[simplify_loop merge_sort]. fold l.
    rewrite collect_ids_Ok by (intros idx Hidx; apply Hin in Hidx; lia).
    cbn -[simplify_loop merge_sort]. unfold py_last. rewrite Hnl.
    cbn -[simplify_loop merge_sort].
    rewrite Hids, fmap_app.
    assert (node_id n0 = f 0%nat) as ->.
    { symmetry. apply list_lookup_total_correct.
      by rewrite <- Hids, list_lookup_fmap, Hn0. }
    assert (node_id nl = f (length (nids w) - 1)%nat) as ->; [|done].
    symmetry. apply list_lookup_total_correct.
    rewrite last_lookup, Hlen in Hnl.
    assert (H' : (node_id <$> ns) !! pred (length (nids w))
                 = Some (node_id nl)) by (by rewrite list_lookup_fmap, Hnl).
    rewrite Hids in H'. by rewrite Nat.sub_1_r.
  - rewrite <- (fmap_lookup_total_seq (nids w)) at 1.
    rewrite (seq_ends _ HN). unfold new_nids, f.
    apply fmap_sublist, sublist_skip, sublist_app; [done|reflexivity].
  - unfold new_nids. simpl. rewrite head_lookup.
    destruct (lookup_lt_is_Some_2 (nids w) 0%nat) as [x Hx]; [lia|].
    rewrite Hx. f_equal. by apply list_lookup_total_correct.
  - unfold new_nids. rewrite fmap_cons, fmap_app. simpl.
    rewrite app_comm_cons, last_snoc, last_lookup.
    destruct (lookup_lt_is_Some_2 (nids w) (pred (length (nids w))))
      as [x Hx]; [lia|].
    rewrite Hx. f_equal. apply list_lookup_total_correct.
    by rewrite <- Hx, Nat.sub_1_r.
  - (* the exact number of nodes *)
    rewrite Hcount. rewrite Hlat in *.
    set (F := Qfloor (t * inject_Z (Z.of_nat (length (nids w))))).
    assert (Hheap : (length heap ≤ length (nids w) - 2)%nat).
    { rewrite <- Hglen. by apply submseteq_length. }
    assert (Hup : ∀ k : nat,
              (t * inject_Z (Z.of_nat (length (nids w)))
               < inject_Z (Z.of_nat k))%Q → (F < Z.of_nat k)%Z).
    { intros k Hk. rewrite Zlt_Qlt.
      eapply Qle_lt_trans; [apply Qfloor_le | exact Hk]. }
    assert (Hdown : ∀ k : nat,
              (inject_Z (Z.of_nat k)
               <= t * inject_Z (Z.of_nat (length (nids w))))%Q →
              (Z.of_nat k ≤ F)%Z).
    { intros k Hk. rewrite <- (Qfloor_Z (Z.of_nat k)).
      by apply Qfloor_resp_le. }
    destruct Hpopped as [->|Hpopped].
    + rewrite Hglen. destruct Hexit as [Hnil|Hexit].
      * rewrite Hglen in *. apply (f_equal length) in Hnil.
        unfold groups, interior_indices in Hnil.
        rewrite length_seq in Hnil. simpl in Hnil. lia.
      * rewrite Hglen in Hexit.
        apply above_threshold_false, Hdown in Hexit; [|lia]. lia.
    + apply above_threshold_true, Hup in Hpopped; [|lia].
      destruct Hexit as [->|Hexit]; [simpl in *; lia|].
      apply above_threshold_false, Hdown in Hexit; [|lia]. lia.
  - (* the bound *)
    intros Ht. rewrite Hcount. rewrite Hlat in *.
    assert (Hheap : (length heap ≤ length (nids w) - 2)%nat).
    { rewrite <- Hglen. by apply submseteq_length. }
    assert (Hceil : ∀ k : nat,
              (t * inject_Z (Z.of_nat (length (nids w)))
               <= inject_Z (Z.of_nat k))%Q →
              (Qceiling (t * inject_Z (Z.of_nat (length (nids w))))
               ≤ Z.of_nat k)%Z).
    { intros k Hk. rewrite <- (Qceiling_Z (Z.of_nat k)).
      by apply Qceiling_resp_le. }
    destruct Hpopped as [->|Hpopped].
    + rewrite Hglen. etrans; [apply (Hceil (length (nids w)))|lia].
      rewrite <- (Qmult_1_l (inject_Z _)) at 2.
      apply Qmult_le_compat_r; [done|]. rewrite <- (Zle_Qle 0). lia.
    + apply above_threshold_true in Hpopped; [|lia].
      etrans; [apply (Hceil (S (length heap) + 2)%nat)|lia].
      by apply Qlt_le_weak.
Qed.

(** The way of [polyline_net], with five nodes, simplified with the default
    threshold: the two end nodes remain, and [ceil (5 / 2) = 3 <= 2 + 1]. *)
Lemma simplify_keeps_endpoints_witness :
  ∃ net' l,
    simplify GetReturnsNone "w" default_threshold polyline_net = Ok net'
    ∧ (nids <$> ways net' !! "w") = Some l
    ∧ sublist l ["p0"; "p1"; "p2"; "p3"; "p4"]
    ∧ head l = Some "p0" ∧ last l = Some "p4"
    ∧ length l = 2%nat
    ∧ (Qceiling (default_threshold * 5) ≤ Z.of_nat (length l) + 1)%Z.
Proof.
  destruct (simplify_keeps_endpoints GetReturnsNone "w"
              (mkStreet "w" ["p0"; "p1"; "p2"; "p3"; "p4"] None)
              default_threshold polyline_net)
    as (net' & l & Hrun & _ & Hways & Hsub & Hhead & Hlast & Hlen & Hbound).
  - apply (bool_decide_unpack _). vm_compute. exact I.
  - reflexivity.
  - apply (bool_decide_unpack _). vm_compute. exact I.
  - simpl. lia.
  - exists net', l. split; [exact Hrun|]. split.
    { rewrite Hways, lookup_insert_eq. reflexivity. }
    split; [exact Hsub|]. split; [exact Hhead|]. split; [exact Hlast|].
    split.
    + apply Nat2Z.inj. rewrite Hlen. reflexivity.
    + apply Hbound. discriminate.
Defined.

(** ** The parallel-segment detector *)

Lemma Qlt_bool_iff x y : Qlt_bool x y = true ↔ (x < y)%Q.
Proof.
  unfold Qlt_bool. rewrite negb_true_iff, <- not_true_iff_false, Qle_bool_iff.
  split; [apply Qnot_le_lt | apply Qlt_not_le].
Qed.

Lemma index_of_elem (x : string) l : x ∈ l → is_Some (index_of x l).
Proof.
  induction 1 as [x l|x y l _ IH]; simpl.
  - rewrite decide_True by done. eauto.
  - destruct (decide (y = x)); [eauto|]. destruct IH as [i ->]. simpl. eauto.
Qed.

Lemma index_of_zero (x : string) l :
  index_of x l = Some 0%nat ↔ l !! 0%nat = Some x.
Proof.
  destruct l as [|y l]; simpl; [done|].
  destruct (decide (y = x)) as [->|Hne].
  - done.
  - destruct (index_of x l); simpl; split; intros [=]; done.
Qed.

(** C6 fails on the code.  In [opposite_net] the ways ["A"] and ["B"]
    share their first node ["S"]; the bearings from ["S"] to the next node
    of each way are 90 and -90 degrees, so their absolute difference, 180
    degrees, exceeds 90; the detector nevertheless reports the pair: the
    code compares the absolute values of the bearings. *)
Lemma opposite_ways_not_discarded :
  find_parallel_from grid_geometry [way_north; way_south] opposite_net
  = Ok [("A", "B")]
  ∧ find_parallel_street_segments grid_geometry opposite_net
    = Ok [("A", "B")]
  ∧ ∃ s n m,
      nodes opposite_net !! "S" = Some s
      ∧ nodes opposite_net !! "N" = Some n
      ∧ nodes opposite_net !! "M" = Some m
      ∧ angle_to_degrees grid_geometry s n = 90%Q
      ∧ angle_to_degrees grid_geometry s m = (- 90)%Q
      ∧ (90 < Qabs (angle_to_degrees grid_geometry s n
                    - angle_to_degrees grid_geometry s m))%Q.
Proof.
  split; [vm_compute; reflexivity|]. split; [vm_compute; reflexivity|].
  do 3 eexists. repeat (split; [reflexivity|]). reflexivity.
Qed.

(** C6 (as amended).  For a pair of ways that share a node, [sh] being the
    shared node that the filter picks: the bearings are taken from [sh] to
    the second node of each way when [sh] is the first node of both ways,
    and to the second-to-last node of each way otherwise; with these nodes
    stored, the filter returns, and it discards the pair if and only if
    the absolute difference of the absolute values of the two bearings
    exceeds 90 degrees. *)
Theorem keep_pair_formula geo net a b sh rest shared_node adj1 adj2 n1 n2 :
  elements (shared_nids a b) = sh :: rest →
  (if bool_decide (nids a !! 0%nat = Some sh ∧ nids b !! 0%nat = Some sh)
   then nids a !! 1%nat = Some adj1 ∧ nids b !! 1%nat = Some adj2
   else (2 ≤ length (nids a))%nat ∧ (2 ≤ length (nids b))%nat
        ∧ nids a !! (length (nids a) - 2)%nat = Some adj1
        ∧ nids b !! (length (nids b) - 2)%nat = Some adj2) →
  nodes net !! sh = Some shared_node →
  nodes net !! adj1 = Some n1 → nodes net !! adj2 = Some n2 →
  keep_pair geo net a b
  = Ok (negb (Qlt_bool 90
                (Qabs (Qabs (angle_to_degrees geo shared_node n1)
                       - Qabs (angle_to_degrees geo shared_node n2)))))
  ∧ (keep_pair geo net a b = Ok false
     ↔ (90 < Qabs (Qabs (angle_to_degrees geo shared_node n1)
                   - Qabs (angle_to_degrees geo shared_node n2)))%Q).
Proof.
  intros Hel Hadj Hsh Hn1 Hn2.
  assert (Hin : sh ∈ shared_nids a b)
    by (apply elem_of_elements; rewrite Hel; left).
  unfold shared_nids in Hin. apply elem_of_intersection in Hin as [Ha Hb].
  apply elem_of_list_to_set, index_of_elem in Ha as [i Hi].
  apply elem_of_list_to_set, index_of_elem in Hb as [j Hj].
  assert (Hrun : keep_pair geo net a b
    = Ok (negb (Qlt_bool 90
                  (Qabs (Qabs (angle_to_degrees geo shared_node n1)
                         - Qabs (angle_to_degrees geo shared_node n2)))))).
  { unfold keep_pair, py_index, deref_node. rewrite Hel, Hi, Hj. simpl.
    assert (Hzero : bool_decide (i = 0%nat) && bool_decide (j = 0%nat)
              = bool_decide (nids a !! 0%nat = Some sh
                             ∧ nids b !! 0%nat = Some sh)).
    { rewrite <- bool_decide_and. apply bool_decide_ext.
      rewrite <- !index_of_zero, Hi, Hj.
      split; intros [H1 H2]; split; congruence. }
    rewrite Hzero. clear Hzero.
    destruct (bool_decide _).
    - destruct Hadj as [H1 H2].
      rewrite (py_nth_Ok _ _ _ H1), (py_nth_Ok _ _ _ H2). simpl.
      by rewrite Hsh, Hn1, Hn2.
    - destruct Hadj as (Hla & Hlb & H1 & H2). unfold py_second_last.
      rewrite (proj2 (Nat.leb_le _ _) Hla), (proj2 (Nat.leb_le _ _) Hlb).
      rewrite (py_nth_Ok _ _ _ H1), (py_nth_Ok _ _ _ H2). simpl.
      by rewrite Hsh, Hn1, Hn2. }
  split; [done|]. rewrite Hrun, <- Qlt_bool_iff.
  destruct (Qlt_bool _ _); simpl; split; congruence.
Qed.

(** In [east_west_net] the way ["A"] starts at ["S"] and the way ["B"] ends
    there, so both bearings are taken to the second-to-last node, which for
    ["A"] is ["S"] itself: they are 0 and 180 degrees and the pair is
    discarded. *)
Lemma keep_pair_formula_witness :
  keep_pair grid_geometry east_west_net way_east way_west = Ok false.
Proof.
  apply (keep_pair_formula grid_geometry east_west_net way_east way_west
           "S" [] (mkNode "S" 0 0 ["A"; "B"] 2) "S" "W"
           (mkNode "S" 0 0 ["A"; "B"] 2) (mkNode "W" 0 (-1) ["B"] 2)).
  - vm_compute. reflexivity.
  - vm_compute. repeat split; lia.
  - reflexivity.
  - reflexivity.
  - reflexivity.
  - vm_compute. reflexivity.
Defined.

(** *** Symmetry of the tests of the detector *)

Lemma Qfloor_unique (z : Q) (m : Z) :
  (inject_Z m <= z)%Q → (z < inject_Z (m + 1))%Q → Qfloor z = m.
Proof.
  intros H1 H2.
  pose proof (Qfloor_le z) as H3. pose proof (Qlt_floor z) as H4.
  assert (H5 : (Qfloor z < m + 1)%Z).
  { rewrite Zlt_Qlt. eapply Qle_lt_trans; eassumption. }
  assert (H6 : (m < Qfloor z + 1)%Z).
  { rewrite Zlt_Qlt. eapply Qle_lt_trans; eassumption. }
  lia.
Qed.

Lemma fmod180_range x : (0 <= fmod180 x)%Q ∧ (fmod180 x < 180)%Q.
Proof.
  unfold fmod180.
  pose proof (Qfloor_le (x / 180)) as H3.
  pose proof (Qlt_floor (x / 180)) as H4.
  rewrite inject_Z_plus in H4. change (inject_Z 1) with 1%Q in H4.
  assert (Hq : (x == 180 * (x / 180))%Q) by field.
  revert H3 H4 Hq. generalize (inject_Z (Qfloor (x / 180))).
  generalize (x / 180)%Q. intros q f H3 H4 Hq. split; lra.
Qed.

Lemma fmod180_unique x k r :
  (x == 180 * inject_Z k + r)%Q → (0 <= r)%Q → (r < 180)%Q →
  (fmod180 x == r)%Q.
Proof.
  intros Hx H0 H1. unfold fmod180.
  assert (Hq : (x == 180 * (x / 180))%Q) by field.
  rewrite (Qfloor_unique (x / 180) k).
  - lra.
  - revert Hq. generalize (x / 180)%Q. intros q Hq. lra.
  - rewrite inject_Z_plus. change (inject_Z 1) with 1%Q.
    revert Hq. generalize (x / 180)%Q. intros q Hq. lra.
Qed.

(** The test on [angle_diff] does not depend on the order of the two
    angles: the remainders for [(a, b)] and [(b, a)] are both zero or add
    up to 180. *)
Lemma angle_window_sym a b :
  Qlt_bool (angle_diff a b) 10 || Qlt_bool 170 (angle_diff a b)
  = Qlt_bool (angle_diff b a) 10 || Qlt_bool 170 (angle_diff b a).
Proof.
  apply Bool.eq_iff_eq_true. rewrite !orb_true_iff, !Qlt_bool_iff.
  unfold angle_diff.
  destruct (fmod180_range (a - b + 360)) as [H0 H1].
  set (k := Qfloor ((a - b + 360) / 180)).
  assert (Hx : (a - b + 360
                == 180 * inject_Z k + fmod180 (a - b + 360))%Q)
    by (unfold fmod180; fold k; lra).
  destruct (Qlt_le_dec 0 (fmod180 (a - b + 360))) as [Hpos|Hzero].
  - assert (Hy : (fmod180 (b - a + 360)
                  == 180 - fmod180 (a - b + 360))%Q).
    { apply (fmod180_unique _ (3 - k)); [|lra|lra].
      unfold Z.sub. rewrite inject_Z_plus, inject_Z_opp.
      change (inject_Z 3) with 3%Q. lra. }
    rewrite Hy. lra.
  - assert (Hy : (fmod180 (b - a + 360) == 0)%Q).
    { apply (fmod180_unique _ (4 - k)); [|lra|lra].
      unfold Z.sub. rewrite inject_Z_plus, inject_Z_opp.
      change (inject_Z 4) with 4%Q. lra. }
    rewrite Hy. lra.
Qed.

Lemma py_index_Raise (x : string) l e : py_index x l = Raise e → e = ValueError.
Proof. unfold py_index. destruct (index_of x l); congruence. Qed.

Lemma py_nth_Raise {A} (l : list A) i e : py_nth l i = Raise e → e = IndexError.
Proof. unfold py_nth. destruct (l !! i); congruence. Qed.

Lemma py_second_last_Raise {A} (l : list A) e :
  py_second_last l = Raise e → e = IndexError.
Proof.
  unfold py_second_last. destruct (2 <=? length l)%nat; [|congruence].
  apply py_nth_Raise.
Qed.

Lemma deref_node_Raise net nid e :
  deref_node net nid = Raise e → e = AttributeError.
Proof. unfold deref_node. destruct (nodes net !! nid); congruence. Qed.

Lemma shared_nids_comm a b : shared_nids a b = shared_nids b a.
Proof. unfold shared_nids. apply (comm_L (∩)). Qed.

(** Runs the filter one step further, leaving the angles as they are. *)
Ltac simpl_keep := cbn -[Qabs Qminus Qlt_bool angle_to_degrees].

Section symmetry.
Context (geo : Geometry) (net : Network).

(** [Polygon.intersects] does not depend on the order of the polygons. *)
Hypothesis intersects_sym : ∀ x y, intersects geo x y = intersects geo y x.

(** The filter on ways that share a node does not depend on the order of
    the two ways, exceptions included: every [IndexError] is raised before
    any node is looked up. *)
Lemma keep_pair_sym a b :
  keep_pair geo net a b = keep_pair geo net b a.
Proof.
  unfold keep_pair. rewrite (shared_nids_comm b a).
  destruct (elements (shared_nids a b)) as [|sh rest]; [done|].
  destruct (py_index sh (nids a)) as [i|e1] eqn:Hi;
    [|apply py_index_Raise in Hi as ->];
    (destruct (py_index sh (nids b)) as [j|e2] eqn:Hj;
      [|apply py_index_Raise in Hj as ->]);
      simpl_keep; try done.
  rewrite (andb_comm (bool_decide (j = 0%nat))).
  destruct (bool_decide (i = 0%nat) && bool_decide (j = 0%nat)).
  - destruct (py_nth (nids a) 1) as [x|e1] eqn:Hx;
      [|apply py_nth_Raise in Hx as ->];
      (destruct (py_nth (nids b) 1) as [y|e2] eqn:Hy;
        [|apply py_nth_Raise in Hy as ->]);
      simpl_keep; try done.
    destruct (deref_node net sh) as [n|e0] eqn:Hn;
      simpl_keep; [|done].
    destruct (deref_node net x) as [nx|e1] eqn:Hnx;
      [|apply deref_node_Raise in Hnx as ->];
      (destruct (deref_node net y) as [ny|e2] eqn:Hny;
        [|apply deref_node_Raise in Hny as ->]);
      simpl_keep; try done.
    by rewrite (Qabs_Qminus (Qabs (angle_to_degrees geo n nx))).
  - destruct (py_second_last (nids a)) as [x|e1] eqn:Hx;
      [|apply py_second_last_Raise in Hx as ->];
      (destruct (py_second_last (nids b)) as [y|e2] eqn:Hy;
        [|apply py_second_last_Raise in Hy as ->]);
      simpl_keep; try done.
    destruct (deref_node net sh) as [n|e0] eqn:Hn;
      simpl_keep; [|done].
    destruct (deref_node net x) as [nx|e1] eqn:Hnx;
      [|apply deref_node_Raise in Hnx as ->];
      (destruct (deref_node net y) as [ny|e2] eqn:Hny;
        [|apply deref_node_Raise in Hny as ->]);
      simpl_keep; try done.
    by rewrite (Qabs_Qminus (Qabs (angle_to_degrees geo n nx))).
Qed.

(** The test under which a pair of polygons enters [parallel_pairs] does
    not depend on the order of the two polygons. *)
Lemma parallel_candidate_sym (p q : StreetPolygon geo) :
  parallel_candidate p q = parallel_candidate q p.
Proof.
  unfold parallel_candidate.
  by rewrite intersects_sym, (angle_window_sym (poly_angle p) (poly_angle q)).
Qed.

(** The detector on two ways whose polygons are built and are not equal:
    [street_polygons.index] finds each polygon at its own position, and
    what the detector returns for the list [[a; b]] is what it returns for
    [[b; a]] with the pair turned around, exceptions included. *)
Lemma find_parallel_from_swap a b p q :
  street_polygon geo net a = Ok p → street_polygon geo net b = Ok q →
  polygon_eqb geo (poly p) (poly q) = false →
  polygon_eqb geo (poly q) (poly p) = false →
  find_parallel_from geo [a; b] net
  = match find_parallel_from geo [b; a] net with
    | Ok l => Ok (prod_swap <$> l)
    | Raise e => Raise e
    end.
Proof.
  intros Hp Hq Hpq Hqp. unfold find_parallel_from.
  cbn [mapM_res]. rewrite Hp, Hq.
  cbn -[parallel_candidate keep_pair].
  rewrite (parallel_candidate_sym q p).
  destruct (parallel_candidate p q); [|done].
  unfold polygon_index. cbn -[keep_pair]. rewrite Hpq, Hqp.
  rewrite (bool_decide_eq_true_2 (0 = 0)%nat) by done.
  rewrite (bool_decide_eq_true_2 (1 = 1)%nat) by done.
  rewrite (bool_decide_eq_false_2 (0 = 1)%nat) by done.
  cbn -[keep_pair]. rewrite (keep_pair_sym b a).
  destruct (keep_pair geo net a b) as [[|]|e]; done.
Qed.

(** The detector on two ways whose polygons are built, the first of them
    being equal to the second: [street_polygons.index] finds the first
    polygon for both, the filter is run on the first way and itself, and
    the second way is in no pair. *)
Lemma find_parallel_from_equal_polygons a b p q :
  street_polygon geo net a = Ok p → street_polygon geo net b = Ok q →
  polygon_eqb geo (poly p) (poly q) = true →
  find_parallel_from geo [a; b] net
  = if parallel_candidate p q
    then keep ← keep_pair geo net a a ;
         Ok (if keep : bool then [(way_id a, way_id a)] else [])
    else Ok [].
Proof.
  intros Hp Hq Hpq. unfold find_parallel_from.
  cbn [mapM_res]. rewrite Hp, Hq.
  cbn -[parallel_candidate keep_pair].
  destruct (parallel_candidate p q); [|done].
  unfold polygon_index. cbn -[keep_pair]. rewrite Hpq.
  rewrite (bool_decide_eq_true_2 (0 = 0)%nat) by done.
  rewrite (bool_decide_eq_false_2 (0 = 1)%nat) by done.
  cbn -[keep_pair].
  destruct (keep_pair geo net a a) as [[|]|e]; done.
Qed.

End symmetry.

Lemma grid_intersects_sym p q : grid_intersects p q = grid_intersects q p.
Proof.
  unfold grid_intersects, ranges_meet.
  rewrite (andb_comm (Qle_bool (grid_box p).1.1 _)).
  rewrite (andb_comm (Qle_bool (grid_box p).2.1 _)). done.
Qed.

(** The two ways of [opposite_net] have different polygons; the detector
    reports them in the order in which it is given them. *)
Lemma opposite_ways_reported :
  find_parallel_from grid_geometry [way_north; way_south] opposite_net
  = Ok [("A", "B")]
  ∧ find_parallel_from grid_geometry [way_south; way_north] opposite_net
    = Ok [("B", "A")].
Proof.
  assert (H : find_parallel_from grid_geometry [way_south; way_north]
                opposite_net = Ok [("B", "A")]) by (vm_compute; reflexivity).
  split; [|exact H].
  erewrite (find_parallel_from_swap grid_geometry opposite_net
              grid_intersects_sym way_north way_south);
    [rewrite H; reflexivity | reflexivity..].
Qed.

(** [twin_net] is a network as [add_way] builds it. *)
Lemma twin_net_consistent : consistent twin_net.
Proof. apply (bool_decide_unpack _). vm_compute. exact I. Qed.

(** C9 fails on the code.  In [twin_net] the ways ["A"] and ["B"] run
    between the same two end nodes, so the detector builds equal polygons
    for them.  The pair of polygons passes the intersection test and the
    test on the angles, and both polygons are then looked up again with
    [street_polygons.index], which finds the first of the two for either.
    For the ways in the order [A, B] the detector returns the pair
    [("A", "A")], for the order [B, A] the pair [("B", "B")]: what it
    reports depends on which of the two ways comes first, and in neither
    order is it a pair of the two ways. *)
Theorem detector_pairs_way_with_itself :
  (∃ p q, street_polygon grid_geometry twin_net way_direct = Ok p
      ∧ street_polygon grid_geometry twin_net way_detour = Ok q
      ∧ polygon_eqb grid_geometry (poly p) (poly q) = true
      ∧ parallel_candidate p q = true)
  ∧ get_list (ways twin_net) = [way_direct; way_detour]
  ∧ find_parallel_street_segments grid_geometry twin_net = Ok [("A", "A")]
  ∧ find_parallel_from grid_geometry [way_direct; way_detour] twin_net
    = Ok [("A", "A")]
  ∧ find_parallel_from grid_geometry [way_detour; way_direct] twin_net
    = Ok [("B", "B")].
Proof.
  split.
  { eexists _, _. split; [reflexivity|]. split; [reflexivity|].
    split; reflexivity. }
  split; [vm_compute; reflexivity|].
  split; [vm_compute; reflexivity|].
  split; vm_compute; reflexivity.
Qed.

(** ** The street merger *)

Lemma use_way_Ok o w : use_way o = Ok w → o = Some w.
Proof. destruct o; simpl; congruence. Qed.

Lemma get_way_stored s net wid w :
  ways net !! wid = Some w → get_way s net wid = Ok (Some w).
Proof. unfold get_way. by intros ->. Qed.

(** The segmentation leaves the nodes alone, and of the ways it can only
    change the second way of the pair, by reversing its sequence. *)
Lemma segment_parallel_streets_effect wid1 wid2 net net1 r :
  segment_parallel_streets wid1 wid2 net = Ok (net1, r) →
  nodes net1 = nodes net
  ∧ is_Some (ways net !! wid1)
  ∧ ∃ street2, ways net !! wid2 = Some street2
      ∧ (ways net1 = ways net
         ∨ ways net1
           = <[wid2 := set_nids (reverse (nids street2)) street2]> (ways net)).
Proof.
  unfold segment_parallel_streets. intros H.
  apply bind_Ok in H as (street1 & Hw1%use_way_Ok & H).
  apply bind_Ok in H as (nid0 & _ & H). apply bind_Ok in H as (nid1 & _ & H).
  apply bind_Ok in H as (base0 & _ & H). apply bind_Ok in H as (base1 & _ & H).
  apply bind_Ok in H as (street2 & Hw2%use_way_Ok & H).
  apply bind_Ok in H as (nodes2 & _ & H). apply bind_Ok in H as (first2 & _ & H).
  apply bind_Ok in H as (sorted2 & _ & H). cbv zeta in H.
  remember (if decide (node_id first2 ≠ node_id sorted2)
            then set_ways
                   (<[wid2 := set_nids (reverse (nids street2)) street2]>
                      (ways net)) net
            else net) as net' eqn:Hnet' in H.
  invert_binds H. injection H as <- _. rewrite Hnet'.
  destruct (decide (node_id first2 ≠ node_id sorted2)); simpl;
    (split; [done|]); (split; [by eauto|]); exists street2;
    (split; [done|]); [by right | by left].
Qed.

(** C7 fails on the code.  The detector reports the two ways of
    [parallel_gap_net]; their overlap is empty, so the merger skips the
    pair (the merge step is not reached); but the segmentation has already
    reversed the node sequence of the second way in the store, from
    ["c"; "d"] to ["d"; "c"]. *)
Lemma empty_overlap_reverses_way :
  find_parallel_street_segments grid_geometry parallel_gap_net
  = Ok [("s1", "s2")]
  ∧ (∃ seg1 seg2,
       segment_parallel_streets "s1" "s2" parallel_gap_net
       = Ok (parallel_gap_net_reversed, ([], seg1, seg2)))
  ∧ merge_parallel_street_segments GetReturnsNone no_merge_step
      [("s1", "s2")] parallel_gap_net
    = Ok parallel_gap_net_reversed
  ∧ (nids <$> ways parallel_gap_net !! "s2") = Some ["c"; "d"]
  ∧ (nids <$> ways parallel_gap_net_reversed !! "s2") = Some ["d"; "c"].
Proof.
  split; [vm_compute; reflexivity|].
  split; [do 2 eexists; vm_compute; reflexivity|].
  split; [vm_compute; reflexivity|].
  split; reflexivity.
Qed.

(** C7 (as amended).  When the segmentation of a pair returns an empty
    overlap, the merger goes on with the next pair from the network that
    the segmentation returned, without reaching the merge step: no node is
    added, removed or changed, no way is added or removed, every way other
    than the second way of the pair is unchanged, and the node sequence of
    the second way is either unchanged or reversed. *)
Theorem merge_skips_empty_overlap s step wid1 wid2 rest net net1 seg1 seg2 :
  segment_parallel_streets wid1 wid2 net = Ok (net1, ([], seg1, seg2)) →
  merge_parallel_street_segments s step ((wid1, wid2) :: rest) net
  = merge_parallel_street_segments s step rest net1
  ∧ nodes net1 = nodes net
  ∧ (∀ wid, wid ≠ wid2 → ways net1 !! wid = ways net !! wid)
  ∧ ∃ street2, ways net !! wid2 = Some street2
      ∧ (ways net1 !! wid2 = Some street2
         ∨ ways net1 !! wid2
           = Some (set_nids (reverse (nids street2)) street2)).
Proof.
  intros Hseg.
  destruct (segment_parallel_streets_effect _ _ _ _ _ Hseg)
    as (Hnodes & [street1 Hw1] & street2 & Hw2 & Hways).
  split.
  - simpl. rewrite (get_way_stored s _ _ _ Hw1), (get_way_stored s _ _ _ Hw2).
    simpl. by rewrite Hseg.
  - destruct Hways as [Hways|Hways].
    + split; [done|]. split; [by rewrite Hways|].
      exists street2. split; [done|]. left. by rewrite Hways.
    + split; [done|]. split.
      * intros wid Hne. by rewrite Hways, lookup_insert_ne.
      * exists street2. split; [done|]. right.
        by rewrite Hways, lookup_insert_eq.
Qed.

(** The merger run on the pair of [parallel_gap_net], followed by nothing:
    the result is the network returned by the segmentation. *)
Lemma merge_skips_empty_overlap_witness :
  merge_parallel_street_segments GetReturnsNone no_merge_step
    [("s1", "s2")] parallel_gap_net
  = Ok parallel_gap_net_reversed.
Proof.
  assert (Hseg : segment_parallel_streets "s1" "s2" parallel_gap_net
                 = Ok (parallel_gap_net_reversed,
                       ([], (["a"; "b"], ["b"], []), ([], ["d"], ["d"; "c"]))))
    by (vm_compute; reflexivity).
  destruct (merge_skips_empty_overlap GetReturnsNone no_merge_step
              "s1" "s2" [] _ _ _ _ Hseg) as [Hstep _].
  rewrite Hstep. reflexivity.
Defined.

(** * Further properties *)

(** ** Decidability of the conditions on a network *)

#[export] Instance ways_keyed_dec net : Decision (ways_keyed net).
Proof.
  refine (cast_if (decide (map_Forall (λ k w, way_id w = k) (ways net))));
    unfold ways_keyed; by rewrite map_Forall_lookup in *.
Defined.

#[export] Instance all_nodes_present_dec net :
  Decision (all_nodes_present net).
Proof.
  refine (cast_if (decide (map_Forall (λ _ w, nodes_present net (nids w))
                             (ways net))));
    unfold all_nodes_present; by rewrite map_Forall_lookup in *.
Defined.

#[export] Instance end_or_plain_dec net w p : Decision (end_or_plain net w p).
Proof. unfold end_or_plain. destruct (nodes net !! p.2); apply _. Defined.

Lemma split_at_ends_alt net :
  split_at_ends net
  ↔ map_Forall (λ _ w, Forall (end_or_plain net w) (imap pair (nids w)))
      (ways net).
Proof.
  unfold split_at_ends. rewrite map_Forall_lookup. split.
  - intros H wid w Hw. apply Forall_forall. intros [i nid] Hin.
    apply elem_of_lookup_imap in Hin as (i' & nid' & [= -> ->] & Hi).
    unfold end_or_plain. simpl.
    destruct (nodes net !! nid') as [n|] eqn:Hn; [|done]. by eapply H.
  - intros H wid w i nid n Hw Hi Hn Hint. specialize (H wid w Hw).
    rewrite Forall_forall in H. specialize (H (i, nid)).
    unfold end_or_plain in H. simpl in H. rewrite Hn in H. apply H; [|done].
    apply elem_of_lookup_imap. by exists i, nid.
Qed.

#[export] Instance split_at_ends_dec net : Decision (split_at_ends net).
Proof.
  refine (cast_if
            (decide (map_Forall
                       (λ _ w, Forall (end_or_plain net w) (imap pair (nids w)))
                       (ways net))));
    by rewrite split_at_ends_alt.
Defined.

(** ** The lists of ways of the nodes *)

Lemma remove_first_absent x l : x ∉ l → remove_first x l = l.
Proof.
  induction l as [|y l IH]; [done|]. rewrite not_elem_of_cons.
  intros [Hne Hl]. simpl. rewrite decide_False by done. by rewrite IH.
Qed.

Lemma remove_first_app_absent x l l' :
  x ∉ l → remove_first x (l ++ l')%list = (l ++ remove_first x l')%list.
Proof.
  induction l as [|y l IH]; [done|]. rewrite not_elem_of_cons.
  intros [Hne Hl]. simpl. rewrite decide_False by done. by rewrite IH.
Qed.

Lemma occurrences_remove_first_ne x y l :
  x ≠ y → occurrences y (remove_first x l) = occurrences y l.
Proof.
  intros Hne. induction l as [|z l IH]; [done|]. simpl.
  destruct (decide (x = z)) as [<-|Hz].
  - by rewrite occurrences_cons, decide_False.
  - by rewrite !occurrences_cons, IH.
Qed.

Lemma length_remove_first x l :
  length (remove_first x l)
  = if decide (x ∈ l) then pred (length l) else length l.
Proof.
  induction l as [|z l IH]; cbn [remove_first length].
  - by rewrite decide_False by apply not_elem_of_nil.
  - destruct (decide (x = z)) as [<-|Hz].
    + by rewrite decide_True by left.
    + cbn [length]. rewrite IH. destruct (decide (x ∈ l)) as [Hin|Hin].
      * rewrite decide_True by (by right).
        destruct l; [by apply elem_of_nil in Hin | done].
      * rewrite decide_False; [done|]. rewrite not_elem_of_cons. done.
Qed.

(** [Node.remove_way_id] is [list.remove]: of the entries for [wid] it
    takes out one, the first, and nothing when there is none; the entries
    for the other ways stay, in their order.  The entry taken out is the
    one that has no entry for [wid] before it: what stands before it and
    what stands after it, later entries for [wid] included, is the list
    that remains. *)
Theorem remove_way_id_removes_one wid n :
  (∀ l1 l2, way_ids n = (l1 ++ wid :: l2)%list → wid ∉ l1 →
     way_ids (remove_way_id wid n) = (l1 ++ l2)%list)
  ∧ occurrences wid (way_ids (remove_way_id wid n))
    = pred (occurrences wid (way_ids n))
  ∧ without wid (way_ids (remove_way_id wid n)) = without wid (way_ids n)
  ∧ (wid ∉ way_ids n → remove_way_id wid n = n)
  ∧ node_id (remove_way_id wid n) = node_id n.
Proof.
  split.
  { intros l1 l2 Hl Hout. destruct n as [i la ln l c].
    unfold remove_way_id, set_way_ids. simpl in *. subst l.
    rewrite remove_first_app_absent by done. simpl.
    by rewrite decide_True. }
  split; [apply occurrences_remove_first|].
  split; [apply without_remove_first|]. split; [|done].
  intros Hout. destruct n as [i la ln l c]. unfold remove_way_id, set_way_ids.
  simpl in *. by rewrite remove_first_absent.
Qed.

(** A node that lists ["a"], ["b"] and ["a"] again loses the entry at the
    front, not the one at the end; it does not list ["c"] and is left as
    it is by the removal of ["c"]. *)
Lemma remove_way_id_removes_one_witness :
  way_ids (remove_way_id "a" (mkNode "n2" 0 1 ["a"; "b"; "a"] 2))
  = ["b"; "a"]
  ∧ remove_way_id "c" (mkNode "n2" 0 1 ["a"; "b"; "a"] 2)
    = mkNode "n2" 0 1 ["a"; "b"; "a"] 2.
Proof.
  destruct (remove_way_id_removes_one "a" (mkNode "n2" 0 1 ["a"; "b"; "a"] 2))
    as (Hfirst & _).
  destruct (remove_way_id_removes_one "c" (mkNode "n2" 0 1 ["a"; "b"; "a"] 2))
    as (_ & _ & _ & Hid & _).
  split.
  - apply (Hfirst [] ["b"; "a"]); [reflexivity | apply not_elem_of_nil].
  - apply Hid. simpl. by apply (bool_decide_unpack _).
Defined.

(** [append_way] followed by [remove_way_id] gives the node back when the
    node did not list the way; when it did, the first entry for the way is
    the one taken out, so the way moves to the end of the list. *)
Theorem append_then_remove_way_id wid n :
  (wid ∉ way_ids n → remove_way_id wid (append_way wid n) = n)
  ∧ (∀ l1 l2, way_ids n = (l1 ++ wid :: l2)%list → wid ∉ l1 →
       way_ids (remove_way_id wid (append_way wid n))
       = (l1 ++ l2 ++ [wid])%list).
Proof.
  destruct n as [i la ln l c]. unfold remove_way_id, append_way, set_way_ids.
  simpl. split.
  - intros Hout. rewrite remove_first_app_absent by done. simpl.
    rewrite decide_True by done. by rewrite app_nil_r.
  - intros l1 l2 -> Hout. rewrite <- app_assoc.
    rewrite remove_first_app_absent by done. simpl.
    by rewrite decide_True by done.
Qed.

(** A node that lists ["a"] and ["b"]: appending and removing ["c"] gives
    it back; appending and removing ["a"] moves ["a"] behind ["b"]. *)
Lemma append_then_remove_way_id_witness :
  remove_way_id "c" (append_way "c" (mkNode "n2" 0 1 ["a"; "b"] 2))
  = mkNode "n2" 0 1 ["a"; "b"] 2
  ∧ way_ids (remove_way_id "a" (append_way "a" (mkNode "n2" 0 1 ["a"; "b"] 2)))
    = ["b"; "a"].
Proof.
  split.
  - apply (append_then_remove_way_id "c" (mkNode "n2" 0 1 ["a"; "b"] 2)).
    simpl. by apply (bool_decide_unpack _).
  - apply (proj2 (append_then_remove_way_id "a"
                    (mkNode "n2" 0 1 ["a"; "b"] 2)) [] ["b"]);
      [reflexivity | apply not_elem_of_nil].
Defined.

(** ** [add_way] followed by [remove_way] *)

Lemma without_app x (l1 l2 : list string) :
  without x (l1 ++ l2)%list = (without x l1 ++ without x l2)%list.
Proof. unfold without. apply filter_app. Qed.

Lemma without_replicate x n : without x (replicate n x) = [].
Proof.
  induction n as [|n IH]; [done|]. simpl.
  by rewrite without_cons, decide_True.
Qed.

Lemma set_way_ids_id n : set_way_ids (way_ids n) n = n.
Proof. by destruct n. Qed.

(** Adding a way under a new id that no node lists and removing it again
    gives back the ways and the nodes as they were, except that the nodes
    of the way that listed no way are deleted. *)
Theorem add_then_remove_way s w net :
  ways net !! way_id w = None → nodes_present net (nids w) →
  (∀ nid n, nodes net !! nid = Some n → way_id w ∉ way_ids n) →
  ∃ net', add_way w net ≫= remove_way s (way_id w) = Ok net'
    ∧ ways net' = ways net
    ∧ ∀ k, nodes net' !! k =
           match nodes net !! k with
           | Some n =>
               if decide (k ∈ nids w ∧ way_ids n = []) then None else Some n
           | None => None
           end.
Proof.
  intros Hfresh Hpres Hunl.
  destruct (attach_way_lookup (way_id w) (nids w) (nodes net) Hpres)
    as (ns1 & Hrun1 & Hlook1).
  set (net1 := mkNetwork ns1 (<[way_id w := w]> (ways net))).
  assert (Hadd : add_way w net = Ok net1).
  { unfold add_way. by rewrite Hrun1. }
  assert (Hw1 : ways net1 !! way_id w = Some w) by apply lookup_insert_eq.
  destruct (remove_way_lookup s (way_id w) w net1 Hw1)
    as (net' & Hrun & Hways & Hlook).
  { intros nid Hin. destruct (Hpres nid Hin) as [n Hn]. simpl.
    rewrite Hlook1, Hn. simpl. eexists. split; [done|]. simpl.
    rewrite occurrences_app, occurrences_replicate, decide_True by done.
    assert (occurrences (way_id w) (way_ids n) = 0%nat) as ->; [|done].
    apply occurrences_zero. by eapply Hunl. }
  exists net'. split; [by rewrite Hadd|]. split.
  - rewrite Hways. simpl. by apply delete_insert_id.
  - intros k. rewrite Hlook. simpl. rewrite Hlook1.
    destruct (nodes net !! k) as [n|] eqn:Hn; [|done]. simpl.
    assert (Hwo : without (way_id w) (way_ids n) = way_ids n).
    { apply without_absent. by eapply Hunl. }
    destruct (decide (k ∈ nids w)) as [Hin|Hin].
    + unfold detached. simpl.
      rewrite without_app, without_replicate, app_nil_r, Hwo.
      destruct (way_ids n) as [|x l] eqn:Hl.
      * by rewrite decide_True.
      * rewrite decide_False by (by intros [_ ?]).
        f_equal. rewrite <- Hl. destruct n. simpl in *. done.
    + rewrite decide_False by (by intros [? _]).
      apply occurrences_zero in Hin. rewrite Hin. simpl.
      rewrite app_nil_r. by rewrite set_way_ids_id.
Qed.

(** In [corner_net] the nodes ["n1"] and ["n3"] each list a way: adding a
    way between them and removing it again gives [corner_net] back. *)
Lemma add_then_remove_way_witness :
  ∃ net', add_way (mkStreet "c" ["n1"; "n3"] None) corner_net
            ≫= remove_way GetReturnsNone "c" = Ok net'
    ∧ ways net' = ways corner_net
    ∧ nodes net' !! "n1" = nodes corner_net !! "n1".
Proof.
  destruct (add_then_remove_way GetReturnsNone
              (mkStreet "c" ["n1"; "n3"] None) corner_net)
    as (net' & Hrun & Hways & Hnodes).
  - reflexivity.
  - apply (bool_decide_unpack _). vm_compute. exact I.
  - intros nid n Hn.
    assert (Hall : map_Forall (λ _ n, "c" ∉ way_ids n) (nodes corner_net))
      by (apply (bool_decide_unpack _); vm_compute; exact I).
    exact (Hall nid n Hn).
  - exists net'. split; [exact Hrun|]. split; [exact Hways|].
    rewrite Hnodes. reflexivity.
Defined.

(** ** The adjacency refresh *)

Lemma refreshed_cons k street streets :
  refreshed k (street :: streets)
  = (replicate (occurrences k (nids street)) (way_id street)
     ++ refreshed k streets)%list.
Proof. done. Qed.

Lemma attach_ways_lookup streets ns :
  (∀ street nid, street ∈ streets → nid ∈ nids street → is_Some (ns !! nid)) →
  ∃ ns', attach_ways streets ns = Ok ns'
    ∧ ∀ k, ns' !! k =
           (λ n, set_way_ids (way_ids n ++ refreshed k streets) n) <$> ns !! k.
Proof.
  revert ns. induction streets as [|st streets IH]; intros ns Hpres.
  - exists ns. split; [done|]. intros k. unfold refreshed. simpl.
    destruct (ns !! k) as [n|]; [|done]. simpl.
    by rewrite app_nil_r, set_way_ids_id.
  - destruct (attach_way_lookup (way_id st) (nids st) ns)
      as (ns1 & Hrun1 & Hlook1).
    { intros nid Hin. apply (Hpres st); [left | done]. }
    destruct (IH ns1) as (ns' & Hrun & Hlook).
    { intros st' nid Hst Hin. rewrite Hlook1.
      destruct (Hpres st' nid) as [n ->]; [by right | done |]. by eexists. }
    exists ns'. split; [simpl; by rewrite Hrun1|].
    intros k. rewrite Hlook, Hlook1. destruct (ns !! k) as [n|]; [|done].
    rewrite refreshed_cons. simpl. unfold set_way_ids. simpl.
    by rewrite <- app_assoc.
Qed.

Lemma occurrences_refreshed_absent wid k (kvs : list (string * Street)) :
  (∀ i w, (i, w) ∈ kvs → way_id w = i) → (∀ w, (wid, w) ∉ kvs) →
  occurrences wid (refreshed k kvs.*2) = 0%nat.
Proof.
  intros Hkey Hout. induction kvs as [|[i w] kvs IH]; [done|].
  rewrite fmap_cons, refreshed_cons, occurrences_app, occurrences_replicate.
  simpl. rewrite decide_False.
  - apply IH; [intros ???; apply Hkey; by right|].
    intros w' Hin. apply (Hout w'). by right.
  - rewrite (Hkey i w) by left. intros ->. apply (Hout w). left.
Qed.

Lemma occurrences_refreshed wid w k (kvs : list (string * Street)) :
  NoDup kvs.*1 → (∀ i w, (i, w) ∈ kvs → way_id w = i) → (wid, w) ∈ kvs →
  occurrences wid (refreshed k kvs.*2) = occurrences k (nids w).
Proof.
  intros Hnd Hkey Hin. induction kvs as [|[i w'] kvs IH];
    [by apply elem_of_nil in Hin|].
  apply NoDup_cons in Hnd as [Hi Hnd].
  rewrite fmap_cons, refreshed_cons, occurrences_app, occurrences_replicate.
  simpl. rewrite (Hkey i w') by left.
  apply elem_of_cons in Hin as [[= <- <-]|Hin].
  - rewrite decide_True by done.
    rewrite occurrences_refreshed_absent; [lia | |].
    + intros ???; apply Hkey; by right.
    + intros w'' Hin. apply Hi. apply list_elem_of_fmap. by exists (wid, w'').
  - rewrite decide_False.
    + apply IH; [done | intros ???; apply Hkey; by right | done].
    + intros ->. apply Hi. apply list_elem_of_fmap. by exists (wid, w).
Qed.

(** [update_ways] rebuilds the lists of the nodes from the ways: whatever
    the lists held before, in a network whose nodes and ways are stored
    under their ids and whose ways refer to stored nodes, the call returns;
    afterwards every node lists every way once for each of its occurrences
    in the way, so that its list, as a set, is the set of the ways through
    it; every threshold is 3; the ways, and the ids and positions of the
    nodes, are as before. *)
Theorem update_ways_restores_bookkeeping net :
  well_keyed net → ways_keyed net → all_nodes_present net →
  ∃ net', update_ways net = Ok net'
    ∧ ways net' = ways net
    ∧ well_keyed net' ∧ per_occurrence net' ∧ set_integrity net'
    ∧ ∀ k, nodes net' !! k
           = (λ n, mkNode (node_id n) (lat n) (lng n)
                     (refreshed k (get_list (ways net))) 3) <$> nodes net !! k.
Proof.
  intros Hkey Hwkey Hpres.
  destruct (attach_ways_lookup (get_list (ways net))
              (reset_way_ids <$> nodes net)) as (ns' & Hrun & Hlook).
  { intros st nid Hst Hin. unfold get_list in Hst.
    apply list_elem_of_fmap in Hst as ([i w] & -> & Hst).
    apply elem_of_map_to_list in Hst. rewrite lookup_fmap.
    destruct (Hpres i w Hst nid Hin) as [n ->]. by eexists. }
  exists (mkNetwork ns' (ways net)).
  assert (Hnodes : ∀ k, ns' !! k
            = (λ n, mkNode (node_id n) (lat n) (lng n)
                      (refreshed k (get_list (ways net))) 3) <$> nodes net !! k).
  { intros k. rewrite Hlook, lookup_fmap.
    by destruct (nodes net !! k) as [n|]. }
  assert (Hper : per_occurrence (mkNetwork ns' (ways net))).
  { intros k n'. simpl. rewrite Hnodes.
    destruct (nodes net !! k) as [n|] eqn:Hn; [|done]. simpl.
    intros [= <-] wid. unfold listed_per_occurrence. simpl.
    rewrite (Hkey k n Hn). unfold get_list.
    destruct (ways net !! wid) as [w|] eqn:Hw.
    - apply occurrences_refreshed.
      + apply NoDup_fst_map_to_list.
      + intros i w' Hin. apply elem_of_map_to_list in Hin. by apply Hwkey.
      + by apply elem_of_map_to_list.
    - apply occurrences_refreshed_absent.
      + intros i w' Hin. apply elem_of_map_to_list in Hin. by apply Hwkey.
      + intros w' Hin. apply elem_of_map_to_list in Hin. congruence. }
  split; [unfold update_ways; by rewrite Hrun|]. split; [done|].
  split; [|split; [done|split; [by apply per_occurrence_set_integrity|done]]].
  intros k n'. simpl. rewrite Hnodes.
  destruct (nodes net !! k) as [n|] eqn:Hn; [|done]. simpl.
  intros [= <-]. simpl. by apply Hkey.
Qed.

(** [update_ways] on [joined_net], where the nodes ["n2"] and ["n3"] list
    the way ["a"] once too often: afterwards ["n2"] lists it once and
    ["n3"] not at all. *)
Lemma update_ways_restores_bookkeeping_witness :
  ¬ per_occurrence joined_net
  ∧ ∃ net', update_ways joined_net = Ok net'
      ∧ per_occurrence net'
      ∧ (way_ids <$> nodes net' !! "n2") = Some ["a"]
      ∧ (way_ids <$> nodes net' !! "n3") = Some [].
Proof.
  split; [apply (bool_decide_eq_false_1 _); vm_compute; reflexivity|].
  destruct (update_ways_restores_bookkeeping joined_net)
    as (net' & Hrun & _ & _ & Hper & _ & Hnodes).
  - apply (bool_decide_unpack _). vm_compute. exact I.
  - apply (bool_decide_unpack _). vm_compute. exact I.
  - apply (bool_decide_unpack _). vm_compute. exact I.
  - exists net'. split; [exact Hrun|]. split; [exact Hper|].
    rewrite !Hnodes. split; reflexivity.
Defined.

(** ** Removal of the ways that are too short *)

Lemma remove_way_keeps_invariants s wid w net :
  well_keyed net → per_occurrence net → all_nodes_present net →
  ways net !! wid = Some w →
  ∃ net', remove_way s wid net = Ok net'
    ∧ ways net' = delete wid (ways net)
    ∧ well_keyed net' ∧ per_occurrence net' ∧ all_nodes_present net'.
Proof.
  intros Hkey Hper Hpres Hw.
  destruct (remove_way_lookup s wid w net Hw) as (net' & Hrun & Hways & Hlook).
  { apply per_occurrence_attached; [done..|]. by eapply Hpres. }
  destruct (remove_way_per_occurrence s wid w net Hkey Hper Hw)
    as (net'' & Hrun' & Hkey' & Hper'); [by eapply Hpres|].
  rewrite Hrun in Hrun'. injection Hrun' as <-.
  exists net'. split; [done|]. split; [done|]. split; [done|].
  split; [done|].
  intros wid2 w2. rewrite Hways. intros [Hne Hw2]%lookup_delete_Some nid Hin.
  destruct (Hpres wid2 w2 Hw2 nid Hin) as [n Hn].
  rewrite Hlook, Hn. destruct (decide (nid ∈ nids w)); [|by eexists].
  unfold detached.
  assert (Hel : wid2 ∈ without wid (way_ids n)).
  { apply elem_of_without. split; [|done].
    destruct (decide (wid2 ∈ way_ids n)) as [|Hout]; [done|].
    apply occurrences_zero in Hout.
    rewrite (Hper nid n Hn wid2), Hw2, (Hkey nid n Hn) in Hout.
    by apply occurrences_zero in Hout. }
  destruct (without wid (way_ids n)); [by apply elem_of_nil in Hel|].
  by eexists.
Qed.

Lemma remove_short_from_spec s snapshot net :
  well_keyed net → ways_keyed net → per_occurrence net →
  all_nodes_present net →
  NoDup (way_id <$> snapshot) →
  (∀ st, st ∈ snapshot → ways net !! way_id st = Some st) →
  ∃ net', remove_short_from s snapshot net = Ok net'
    ∧ well_keyed net' ∧ ways_keyed net' ∧ per_occurrence net'
    ∧ all_nodes_present net'
    ∧ ∀ wid w, ways net' !! wid = Some w
        ↔ ways net !! wid = Some w
          ∧ ¬ (w ∈ snapshot ∧ (length (nids w) < 2)%nat).
Proof.
  revert net. induction snapshot as [|st rest IH];
    intros net Hkey Hwkey Hper Hpres Hnd Hst.
  - exists net. repeat (split; [done|]). intros wid w. split; [|by intros []].
    intros Hw. split; [done|]. by intros [?%elem_of_nil _].
  - apply NoDup_cons in Hnd as [Hfresh Hnd]. simpl.
    assert (Hw : ways net !! way_id st = Some st) by (apply Hst; left).
    case_bool_decide as Hshort.
    + destruct (remove_way_keeps_invariants s (way_id st) st net)
        as (net1 & -> & Hways & Hkey1 & Hper1 & Hpres1); [done..|].
      simpl.
      assert (Hwkey1 : ways_keyed net1).
      { intros wid w. rewrite Hways. intros [_ ?]%lookup_delete_Some.
        by apply Hwkey. }
      destruct (IH net1) as (net' & Hrun & ? & ? & ? & ? & Hiff); [done..| |].
      { intros st' Hin. rewrite Hways, lookup_delete_ne; [apply Hst; by right|].
        intros Heq. apply Hfresh. rewrite Heq.
        apply list_elem_of_fmap. by exists st'. }
      exists net'. repeat (split; [done|]). intros wid w.
      rewrite Hiff, Hways, lookup_delete_Some. split.
      * intros [[Hne Hwid] Hno]. split; [done|].
        intros [[->|Hin]%elem_of_cons Hlen]; [|by apply Hno].
        apply Hne. by apply Hwkey.
      * intros [Hwid Hno]. split; [split; [|done]|].
        -- intros <-. apply Hno. rewrite Hw in Hwid. injection Hwid as <-.
           split; [left | done].
        -- intros [Hin Hlen]. apply Hno. split; [by right | done].
    + destruct (IH net) as (net' & Hrun & ? & ? & ? & ? & Hiff); [done..| |].
      { intros st' Hin. apply Hst. by right. }
      exists net'. repeat (split; [done|]). intros wid w.
      rewrite Hiff. split; intros [Hwid Hno]; (split; [done|]).
      * intros [[->|Hin]%elem_of_cons Hlen]; [done | by apply Hno].
      * intros [Hin Hlen]. apply Hno. split; [by right | done].
Qed.

Lemma way_ids_get_list net :
  ways_keyed net → way_id <$> get_list (ways net) = (map_to_list (ways net)).*1.
Proof.
  intros Hwkey. unfold get_list. rewrite <- list_fmap_compose.
  apply Forall_fmap_ext, Forall_forall. intros [i w] Hin. simpl.
  apply elem_of_map_to_list in Hin. by apply Hwkey.
Qed.

(** The last loop of [preprocess], in a network whose nodes and ways are
    stored under their ids, whose ways refer to stored nodes and whose
    nodes list each way once for each of their occurrences in it: the loop
    returns; the ways left are the ways that had at least two nodes, none
    of them changed (invariant 3); and the network is still of that kind. *)
Theorem remove_short_ways_keeps_long_ways s net :
  well_keyed net → ways_keyed net → per_occurrence net →
  all_nodes_present net →
  ∃ net', remove_short_ways s net = Ok net'
    ∧ (∀ wid w, ways net' !! wid = Some w
         ↔ ways net !! wid = Some w ∧ (2 ≤ length (nids w))%nat)
    ∧ well_keyed net' ∧ ways_keyed net' ∧ per_occurrence net'
    ∧ all_nodes_present net'.
Proof.
  intros Hkey Hwkey Hper Hpres.
  destruct (remove_short_from_spec s (get_list (ways net)) net)
    as (net' & Hrun & ? & ? & ? & ? & Hiff); [done..| | |].
  - rewrite way_ids_get_list by done. apply NoDup_fst_map_to_list.
  - intros st Hin. unfold get_list in Hin.
    apply list_elem_of_fmap in Hin as ([i w] & -> & Hin).
    apply elem_of_map_to_list in Hin. simpl. by rewrite (Hwkey i w).
  - exists net'. split; [done|]. split; [|done].
    intros wid w. rewrite Hiff. split; intros [Hw Hlen]; (split; [done|]).
    + destruct (decide (2 ≤ length (nids w))%nat); [done|].
      exfalso. apply Hlen. split; [|lia]. unfold get_list.
      apply list_elem_of_fmap. exists (wid, w). split; [done|].
      by apply elem_of_map_to_list.
    + intros [_ ?]. lia.
Qed.

(** In [stub_net] the way ["v"] has one node: it is removed, and the way
    ["w"] stays. *)
Lemma remove_short_ways_keeps_long_ways_witness :
  ∃ net', remove_short_ways GetReturnsNone stub_net = Ok net'
    ∧ ways net' !! "v" = None
    ∧ ways net' !! "w" = Some (mkStreet "w" ["a"; "b"] None).
Proof.
  destruct (remove_short_ways_keeps_long_ways GetReturnsNone stub_net)
    as (net' & Hrun & Hiff & _).
  - apply (bool_decide_unpack _). vm_compute. exact I.
  - apply (bool_decide_unpack _). vm_compute. exact I.
  - apply (bool_decide_unpack _). vm_compute. exact I.
  - apply (bool_decide_unpack _). vm_compute. exact I.
  - exists net'. split; [exact Hrun|]. split.
    + destruct (ways net' !! "v") as [w|] eqn:Hv; [|reflexivity].
      apply Hiff in Hv as [Hv Hlen]. vm_compute in Hv. injection Hv as <-.
      simpl in Hlen. lia.
    + apply Hiff. split; [reflexivity | simpl; lia].
Defined.

(** ** Building a network *)

Lemma add_way_keeps_invariants w net :
  well_keyed net → ways_keyed net → per_occurrence net →
  all_nodes_present net →
  ways net !! way_id w = None → nodes_present net (nids w) →
  ∃ net', add_way w net = Ok net'
    ∧ ways net' = <[way_id w := w]> (ways net)
    ∧ (∀ k, is_Some (nodes net' !! k) ↔ is_Some (nodes net !! k))
    ∧ well_keyed net' ∧ ways_keyed net' ∧ per_occurrence net'
    ∧ all_nodes_present net'.
Proof.
  intros Hkey Hwkey Hper Hpres Hfresh Hw.
  destruct (add_way_per_occurrence w net Hkey Hper Hfresh Hw)
    as (net' & Hrun & Hkey' & Hper').
  pose proof (add_way_ways _ _ _ Hrun) as Hways.
  assert (Hdom : ∀ k, is_Some (nodes net' !! k) ↔ is_Some (nodes net !! k)).
  { destruct (attach_way_lookup (way_id w) (nids w) (nodes net) Hw)
      as (ns' & Hatt & Hlook).
    unfold add_way in Hrun. rewrite Hatt in Hrun. injection Hrun as <-.
    intros k. simpl. rewrite Hlook. by rewrite fmap_is_Some. }
  exists net'. repeat (split; [done|]). split.
  - intros wid w'. rewrite Hways.
    intros [[<- <-]|[_ ?]]%lookup_insert_Some; [done | by apply Hwkey].
  - split; [done|]. intros wid w'. rewrite Hways.
    intros [[<- <-]|[_ Hold]]%lookup_insert_Some nid Hin; apply Hdom.
    + by apply Hw.
    + by eapply Hpres.
Qed.

Lemma add_ways_spec ws net :
  well_keyed net → ways_keyed net → per_occurrence net →
  all_nodes_present net →
  NoDup (way_id <$> ws) →
  (∀ w, w ∈ ws → ways net !! way_id w = None ∧ nodes_present net (nids w)) →
  ∃ net', add_ways ws net = Ok net'
    ∧ (∀ w, w ∈ ws → ways net' !! way_id w = Some w)
    ∧ (∀ wid, wid ∉ way_id <$> ws → ways net' !! wid = ways net !! wid)
    ∧ (∀ k, is_Some (nodes net' !! k) ↔ is_Some (nodes net !! k))
    ∧ well_keyed net' ∧ ways_keyed net' ∧ per_occurrence net'
    ∧ all_nodes_present net'.
Proof.
  revert net. induction ws as [|w ws IH];
    intros net Hkey Hwkey Hper Hpres Hnd Hws.
  - exists net. split; [done|]. split; [by intros ? ?%elem_of_nil|]. done.
  - rewrite fmap_cons in Hnd. apply NoDup_cons in Hnd as [Hfresh Hnd].
    destruct (Hws w) as [Hnew Hw]; [left|].
    destruct (add_way_keeps_invariants w net)
      as (net1 & Hrun1 & Hways1 & Hdom1 & ? & ? & ? & ?); [done..|].
    destruct (IH net1) as (net' & Hrun & Hin & Hout & Hdom & ?); [done..| |].
    { intros w' Hw'. destruct (Hws w') as [Hnew' Hpres']; [by right|].
      split.
      - rewrite Hways1, lookup_insert_ne; [done|]. intros Heq.
        apply Hfresh. rewrite Heq. apply list_elem_of_fmap. by exists w'.
      - intros nid Hnid. apply Hdom1. by apply Hpres'. }
    exists net'. split; [simpl; by rewrite Hrun1|]. split; [|split; [|split]].
    + intros w' [->|Hw']%elem_of_cons; [|by apply Hin].
      by rewrite Hout, Hways1, lookup_insert_eq.
    + intros wid. rewrite fmap_cons, not_elem_of_cons. intros [Hne Hnot].
      by rewrite Hout, Hways1, lookup_insert_ne.
    + intros k. by rewrite Hdom, Hdom1.
    + done.
Qed.

Lemma add_nodes_spec ns net :
  ways net = ∅ → well_keyed net →
  (∀ k n, nodes net !! k = Some n → way_ids n = []) →
  (∀ n, n ∈ ns → way_ids n = []) →
  ways (add_nodes ns net) = ∅ ∧ well_keyed (add_nodes ns net)
  ∧ (∀ k n, nodes (add_nodes ns net) !! k = Some n → way_ids n = [])
  ∧ (∀ k, is_Some (nodes (add_nodes ns net) !! k)
          ↔ is_Some (nodes net !! k) ∨ k ∈ node_id <$> ns).
Proof.
  revert net. induction ns as [|node ns IH]; intros net Hways Hkey Hnil Hns.
  - simpl. repeat (split; [done|]). intros k. split; [by left|].
    by intros [?|?%elem_of_nil].
  - simpl. destruct (IH (add_node node net)) as (? & ? & ? & Hdom).
    + done.
    + intros k n. unfold add_node. simpl.
      intros [[<- <-]|[_ ?]]%lookup_insert_Some; [done | by apply Hkey].
    + intros k n. unfold add_node. simpl.
      intros [[<- <-]|[_ ?]]%lookup_insert_Some; [apply Hns; left|].
      by eapply Hnil.
    + intros n Hn. apply Hns. by right.
    + repeat (split; [done|]). intros k. rewrite Hdom. unfold add_node. simpl.
      rewrite lookup_insert_is_Some, elem_of_cons.
      change (list_fmap Node string node_id ns) with (node_id <$> ns).
      destruct (decide (node_id node = k)) as [->|Hne].
      * split; intros _; [right|left]; by left.
      * split.
        -- intros [[?|[_ ?]]|?]; [done | by left | right; by right].
        -- intros [?|[?|?]]; [left; by right | congruence | by right].
Qed.

(** A network built from nothing by [add_nodes] and [add_ways], from new
    nodes (their lists of ways are empty) and ways with distinct ids whose
    nodes are among those nodes: every call returns, the ways are stored
    under their ids, and every node lists each way once for each of its
    occurrences in it, so that its list, as a set, is the set of the ways
    through it. *)
Theorem built_network_bookkeeping ns ws :
  (∀ n, n ∈ ns → way_ids n = []) →
  NoDup (way_id <$> ws) →
  (∀ w nid, w ∈ ws → nid ∈ nids w → nid ∈ node_id <$> ns) →
  ∃ net, add_ways ws (add_nodes ns (mkNetwork ∅ ∅)) = Ok net
    ∧ (∀ w, w ∈ ws → ways net !! way_id w = Some w)
    ∧ (∀ wid, wid ∉ way_id <$> ws → ways net !! wid = None)
    ∧ (∀ k, is_Some (nodes net !! k) ↔ k ∈ node_id <$> ns)
    ∧ well_keyed net ∧ per_occurrence net ∧ set_integrity net.
Proof.
  intros Hns Hnd Hws.
  destruct (add_nodes_spec ns (mkNetwork ∅ ∅)) as (Hways & Hkey & Hnil & Hdom);
    [done | by intros ?? | by intros ?? | done |].
  set (net0 := add_nodes ns (mkNetwork ∅ ∅)) in *.
  destruct (add_ways_spec ws net0)
    as (net & Hrun & Hin & Hout & Hdom' & ? & ? & Hper & ?).
  - done.
  - intros wid w. by rewrite Hways.
  - intros k n Hn wid. unfold listed_per_occurrence.
    by rewrite (Hnil k n Hn), Hways.
  - intros wid w. by rewrite Hways.
  - done.
  - intros w Hw. split; [by rewrite Hways|].
    intros nid Hnid. apply Hdom. right. by eapply Hws.
  - exists net. split; [done|]. split; [done|]. split; [|split].
    + intros wid Hnot. by rewrite Hout, Hways.
    + intros k. rewrite Hdom', Hdom. simpl. rewrite lookup_empty.
      split; [intros [[? [=]]|?]; done | by right].
    + split; [done|]. split; [done|]. by apply per_occurrence_set_integrity.
Qed.

(** Two new nodes and a way between them. *)
Lemma built_network_bookkeeping_witness :
  ∃ net, add_ways [mkStreet "w" ["a"; "b"] None]
           (add_nodes [new_node "a" 0 0; new_node "b" 0 1] (mkNetwork ∅ ∅))
         = Ok net
    ∧ per_occurrence net ∧ set_integrity net.
Proof.
  destruct (built_network_bookkeeping
              [new_node "a" 0 0; new_node "b" 0 1]
              [mkStreet "w" ["a"; "b"] None])
    as (net & Hrun & _ & _ & _ & _ & Hper & Hset).
  - intros n Hn. by repeat (apply elem_of_cons in Hn as [->|Hn]);
      [..|apply elem_of_nil in Hn].
  - apply (bool_decide_unpack _). vm_compute. exact I.
  - intros w nid Hw Hnid.
    apply list_elem_of_singleton in Hw as ->. exact Hnid.
  - by exists net.
Defined.

(** ** The street splitter: where the ways are cut *)

Lemma index_of_lookup {A} `{EqDecision A} (x : A) l i :
  index_of x l = Some i → l !! i = Some x.
Proof.
  revert i. induction l as [|y l IH]; intros i; simpl; [done|].
  destruct (decide (y = x)) as [->|Hne]; [by intros [= <-]|].
  destruct (index_of x l) as [j|]; simpl; [|done].
  intros [= <-]. by apply IH.
Qed.

Lemma intersection_nids_sublist net l r :
  intersection_nids net l = Ok r →
  sublist r l
  ∧ ∀ nid, nid ∈ r → ∃ n, nodes net !! nid = Some n ∧ is_intersection n = true.
Proof.
  revert r. induction l as [|nid l IH]; intros r; simpl.
  - intros [= <-]. split; [done|]. by intros ? ?%elem_of_nil.
  - intros (n & Hn & H)%bind_Ok. apply bind_Ok in H as (r' & Hr' & [= <-]).
    destruct (IH r' Hr') as [Hsub Hall]. unfold deref_node in Hn.
    destruct (nodes net !! nid) as [n'|] eqn:Hnid; [|done].
    injection Hn as ->.
    destruct (is_intersection n) eqn:Hint.
    + split; [by apply sublist_skip|].
      intros x [->|Hx]%elem_of_cons; [by exists n | by apply Hall].
    + split; [by apply sublist_cons | done].
Qed.

Lemma intersection_nids_Ok net l :
  nodes_present net l → ∃ r, intersection_nids net l = Ok r.
Proof.
  induction l as [|nid l IH]; intros Hpres; [by exists []|].
  destruct (Hpres nid) as [n Hn]; [left|].
  destruct IH as [r Hr]; [intros x Hx; apply Hpres; by right|].
  simpl. unfold deref_node. rewrite Hn. simpl. rewrite Hr. simpl. eauto.
Qed.

Lemma intersection_indices_shift x l r ii :
  x ∉ r → intersection_indices l r = Ok ii →
  intersection_indices (x :: l) r = Ok (S <$> ii).
Proof.
  unfold intersection_indices. revert ii.
  induction r as [|y r IH]; intros ii Hx; cbn [mapM_res].
  - by intros [= <-].
  - apply not_elem_of_cons in Hx as [Hne Hx].
    intros (i & Hi & H)%bind_Ok. apply bind_Ok in H as (ii' & Hii & [= <-]).
    assert (Hy : py_index y (x :: l) = Ok (S i)).
    { unfold py_index in *. simpl. rewrite decide_False by done.
      destruct (index_of y l); [|done]. by injection Hi as ->. }
    rewrite Hy. simpl. by rewrite (IH ii' Hx Hii).
Qed.

(** The positions that [way.nids.index] finds for a selection of the nodes
    of a way that visits no node twice are the positions of the selected
    nodes, in increasing order. *)
Lemma intersection_indices_sorted l r :
  NoDup l → sublist r l →
  ∃ ii, intersection_indices l r = Ok ii
    ∧ StronglySorted lt ii
    ∧ Forall2 (λ nid i, l !! i = Some nid) r ii.
Proof.
  intros Hnd Hsub. induction Hsub as [|x r l Hsub IH|x r l Hsub IH].
  - exists []. split; [done|]. split; constructor.
  - apply NoDup_cons in Hnd as [Hx Hnd].
    destruct (IH Hnd) as (ii & Hrun & Hsort & Hall).
    assert (Hxr : x ∉ r) by (intros Hin; apply Hx; by eapply elem_of_sublist).
    exists (0%nat :: (S <$> ii)). split; [|split].
    + assert (Hx0 : py_index x (x :: l) = Ok 0%nat).
      { unfold py_index. cbn [index_of]. by rewrite decide_True. }
      pose proof (intersection_indices_shift x l r ii Hxr Hrun) as Hshift.
      unfold intersection_indices in *. cbn [mapM_res].
      rewrite Hx0. simpl. by rewrite Hshift.
    + constructor.
      * apply (StronglySorted_fmap _ lt); [|done]. intros ???. lia.
      * apply Forall_fmap, Forall_forall. intros ??. simpl. lia.
    + constructor; [done|]. by apply Forall2_fmap_r.
  - apply NoDup_cons in Hnd as [Hx Hnd].
    destruct (IH Hnd) as (ii & Hrun & Hsort & Hall).
    assert (Hxr : x ∉ r) by (intros Hin; apply Hx; by eapply elem_of_sublist).
    exists (S <$> ii). split; [|split].
    + by apply intersection_indices_shift.
    + apply (StronglySorted_fmap _ lt); [|done]. intros ???. lia.
    + by apply Forall2_fmap_r.
Qed.

Lemma split_pieces_cut l prev idx ii :
  idx ≠ 0%nat → (idx < length l)%nat →
  split_pieces l prev (idx :: ii)
  = slice prev (idx + 1) l :: split_pieces l idx ii.
Proof.
  intros H0 Hlen. simpl.
  by rewrite !bool_decide_eq_true_2 by lia.
Qed.

(** The nodes after the first of each piece, put end to end, are the
    nodes after the position from which the cutting started. *)
Lemma split_pieces_tails l prev ii :
  Forall (λ i, prev ≤ i < length l)%nat ii → StronglySorted lt ii →
  concat (drop 1 <$> split_pieces l prev ii) = drop (S prev) l
  ∧ rejoin (split_pieces l prev ii) = drop prev l
  ∧ ∃ p ps, split_pieces l prev ii = p :: ps
            ∧ (prev < length l → head p = l !! prev)%nat.
Proof.
  revert prev. induction ii as [|idx ii IH]; intros prev Hall Hsort.
  - simpl. rewrite !app_nil_r, drop_drop, Nat.add_1_r.
    split; [done|]. split; [done|].
    eexists _, _. split; [done|]. intros Hlt.
    by rewrite head_lookup, lookup_drop, Nat.add_0_r.
  - apply Forall_cons in Hall as [[Hle Hlen] Hall].
    apply StronglySorted_inv in Hsort as [Hsort Hlt].
    destruct (decide (idx = 0%nat)) as [->|Hne].
    + assert (prev = 0%nat) as -> by lia. simpl.
      apply IH; [|done].
      eapply Forall_impl; [exact Hall|]. simpl. lia.
    + rewrite split_pieces_cut by done.
      destruct (IH idx) as (Htails & _ & _); [|done|].
      { apply Forall_forall. intros i Hi. rewrite Forall_forall in Hall, Hlt.
        specialize (Hall i Hi). specialize (Hlt i Hi). lia. }
      assert (Hcut : (slice prev (idx + 1) l ++ drop (S idx) l)%list
                     = drop prev l).
      { unfold slice. rewrite <- (take_drop (idx + 1 - prev) (drop prev l)) at 2.
        f_equal. rewrite drop_drop. f_equal. lia. }
      split; [|split].
      * rewrite fmap_cons. simpl. rewrite Htails.
        replace (drop (S prev) l) with (drop 1 (drop prev l))
          by (rewrite drop_drop; f_equal; lia).
        rewrite <- Hcut. rewrite drop_app_le.
        -- done.
        -- unfold slice. rewrite length_take, length_drop. lia.
      * simpl. by rewrite Htails.
      * eexists _, _. split; [done|]. intros _. unfold slice.
        rewrite head_lookup, lookup_take_lt, lookup_drop by lia.
        f_equal. lia.
Qed.

Lemma split_pieces_shared l prev ii j p q :
  Forall (λ i, prev ≤ i < length l)%nat ii → StronglySorted lt ii →
  split_pieces l prev ii !! j = Some p →
  split_pieces l prev ii !! S j = Some q →
  ∃ x, last p = Some x ∧ head q = Some x.
Proof.
  revert prev j. induction ii as [|idx ii IH]; intros prev j Hall Hsort;
    [done|].
  apply Forall_cons in Hall as [[Hle Hlen] Hall].
  apply StronglySorted_inv in Hsort as [Hsort Hlt].
  assert (Hall' : Forall (λ i, idx ≤ i < length l)%nat ii).
  { apply Forall_forall. intros i Hi. rewrite Forall_forall in Hall, Hlt.
    specialize (Hall i Hi). specialize (Hlt i Hi). lia. }
  destruct (decide (idx = 0%nat)) as [->|Hne].
  - assert (prev = 0%nat) as -> by lia. simpl. by apply IH.
  - rewrite split_pieces_cut by done. destruct j as [|j]; simpl.
    + intros [= <-] Hq.
      destruct (split_pieces_tails l idx ii Hall' Hsort)
        as (_ & _ & p' & ps & Heq & Hhead).
      rewrite Heq in Hq. injection Hq as ->.
      destruct (lookup_lt_is_Some_2 l idx Hlen) as [x Hx].
      exists x. split; [|by rewrite Hhead].
      unfold slice. rewrite last_lookup, length_take, length_drop.
      rewrite lookup_take_lt, lookup_drop by lia.
      rewrite <- Hx. f_equal. lia.
    + by apply IH.
Qed.

Lemma split_pieces_length l prev ii :
  Forall (λ i, i < length l)%nat ii →
  length (split_pieces l prev ii)
  = S (length (filter (λ i, i ≠ 0%nat) ii)).
Proof.
  revert prev. induction ii as [|idx ii IH]; intros prev Hall; [done|].
  apply Forall_cons in Hall as [Hlen Hall]. rewrite filter_cons.
  destruct (decide (idx = 0%nat)) as [->|Hne].
  - simpl. by apply IH.
  - rewrite split_pieces_cut by done. rewrite decide_True by done.
    simpl. by rewrite IH.
Qed.

(** The sub-ways that [split_streets] cuts from a way that visits no node
    twice, [ii] being the positions of its intersection nodes as the code
    computes them: there is one more sub-way than there are intersection
    nodes after the first node of the way; consecutive sub-ways share the
    node at which the way was cut; and put end to end, with the shared
    nodes written once, they give the sequence of the way. *)
Theorem split_pieces_cover net l inids ii :
  NoDup l → intersection_nids net l = Ok inids →
  intersection_indices l inids = Ok ii →
  rejoin (split_pieces l 0 ii) = l
  ∧ length (split_pieces l 0 ii) = S (length (filter (λ i, i ≠ 0%nat) ii))
  ∧ ∀ j p q, split_pieces l 0 ii !! j = Some p →
             split_pieces l 0 ii !! S j = Some q →
             ∃ x, last p = Some x ∧ head q = Some x.
Proof.
  intros Hnd Hinids Hii.
  destruct (intersection_nids_sublist _ _ _ Hinids) as [Hsub _].
  destruct (intersection_indices_sorted l inids Hnd Hsub)
    as (ii' & Hii' & Hsort & Hpos).
  rewrite Hii in Hii'. injection Hii' as <-.
  assert (Hall : Forall (λ i, 0 ≤ i < length l)%nat ii).
  { apply Forall_forall. intros i Hi.
    apply list_elem_of_lookup in Hi as [j Hj].
    destruct (Forall2_lookup_r _ _ _ _ _ Hpos Hj) as (nid & _ & Hl).
    apply lookup_lt_Some in Hl. lia. }
  destruct (split_pieces_tails l 0 ii Hall Hsort) as (_ & Hjoin & _).
  split; [by rewrite Hjoin|]. split.
  - apply split_pieces_length. eapply Forall_impl; [exact Hall|]. simpl. lia.
  - intros j p q. by apply split_pieces_shared.
Qed.

(** The way ["w"] of [junction_net], with intersection nodes at the
    positions 1, 2 and 3: four sub-ways. *)
Lemma split_pieces_cover_witness :
  rejoin (split_pieces ["a"; "b"; "c"; "d"] 0 [1; 2; 3]%nat)
  = ["a"; "b"; "c"; "d"]
  ∧ length (split_pieces ["a"; "b"; "c"; "d"] 0 [1; 2; 3]%nat) = 4%nat.
Proof.
  destruct (split_pieces_cover junction_net ["a"; "b"; "c"; "d"]
              ["b"; "c"; "d"] [1; 2; 3]%nat) as (Hjoin & Hlen & _).
  - apply (bool_decide_unpack _). vm_compute. exact I.
  - vm_compute. reflexivity.
  - vm_compute. reflexivity.
  - split; [exact Hjoin | exact Hlen].
Defined.

(** ** The street splitter: where the ways are left alone *)

Lemma split_way_unsplit s gen w k net :
  NoDup (nids w) → nodes_present net (nids w) →
  (∀ i nid n, nids w !! i = Some nid → nodes net !! nid = Some n →
     is_intersection n = true →
     i = 0%nat ∨ i = (length (nids w) - 1)%nat) →
  split_way s gen w k net = Ok (net, k).
Proof.
  intros Hnd Hpres Hends.
  destruct (intersection_nids_Ok net (nids w) Hpres) as [inids Hinids].
  destruct (intersection_nids_sublist _ _ _ Hinids) as [Hsub Hint].
  destruct (intersection_indices_sorted (nids w) inids Hnd Hsub)
    as (ii & Hii & Hsort & Hpos).
  assert (Hin : ∀ i, i ∈ ii →
            i = 0%nat ∨ i = (length (nids w) - 1)%nat).
  { intros i Hi. apply list_elem_of_lookup in Hi as [j Hj].
    destruct (Forall2_lookup_r _ _ _ _ _ Hpos Hj) as (nid & Hnid & Hl).
    destruct (Hint nid) as (n & Hn & Hn'); [by eapply list_elem_of_lookup_2|].
    by eapply Hends. }
  unfold split_way. rewrite Hinids. simpl. rewrite Hii. simpl.
  destruct ii as [|i [|j [|k' ii]]]; [done| | |].
  - destruct (Hin i) as [->| ->]; [left| |]; simpl.
    + done.
    + rewrite (bool_decide_eq_true_2 (_ = (_ - 1)%nat)) by done.
      by rewrite orb_true_r.
  - apply StronglySorted_inv in Hsort as [_ Hlt].
    apply Forall_cons in Hlt as [Hlt _].
    destruct (Hin i) as [->|Hi]; [left| |];
      (destruct (Hin j) as [Hj|Hj]; [right; left| |]); try lia.
    subst j. simpl.
    by rewrite (bool_decide_eq_true_2 (_ = (_ - 1)%nat)) by done.
  - exfalso.
    apply StronglySorted_inv in Hsort as [Hsort Hlt].
    apply Forall_cons in Hlt as [Hij Hlt]. apply Forall_cons in Hlt as [Hik _].
    apply StronglySorted_inv in Hsort as [_ Hlt].
    apply Forall_cons in Hlt as [Hjk _].
    destruct (Hin i) as [?|?]; [left|..];
      (destruct (Hin j) as [?|?]; [right; left|..]);
      (destruct (Hin k') as [?|?]; [right; right; left|..]); lia.
Qed.

Lemma split_streets_from_unsplit s gen snapshot k net :
  (∀ w, w ∈ snapshot → split_way s gen w k net = Ok (net, k)) →
  split_streets_from s gen snapshot k net = Ok (net, k).
Proof.
  induction snapshot as [|w rest IH]; intros Hall; [done|].
  simpl. rewrite (Hall w) by left. simpl. apply IH.
  intros w' Hw'. apply Hall. by right.
Qed.

(** In a network whose ways visit no node twice and refer to stored nodes,
    and in which the intersection nodes of every way are its end nodes,
    [split_streets] returns and changes nothing: no way is added or
    removed and no id is used. *)
Theorem split_streets_leaves_split_network s gen k net :
  no_repeated_node net → all_nodes_present net → split_at_ends net →
  split_streets s gen k net = Ok (net, k).
Proof.
  intros Hnd Hpres Hends. apply split_streets_from_unsplit.
  intros w Hw. unfold get_list in Hw.
  apply list_elem_of_fmap in Hw as ([wid w'] & -> & Hw).
  apply elem_of_map_to_list in Hw. simpl.
  apply split_way_unsplit; [by eapply Hnd | by eapply Hpres |].
  intros i nid n. by eapply Hends.
Qed.

(** In [corner_net] the only intersection node, ["n2"], is the last node
    of the way ["a"] and the first node of the way ["b"]. *)
Lemma split_streets_leaves_split_network_witness :
  split_streets GetReturnsNone example_ids 0 corner_net = Ok (corner_net, 0%nat).
Proof.
  apply split_streets_leaves_split_network.
  - apply (bool_decide_unpack _). vm_compute. exact I.
  - apply (bool_decide_unpack _). vm_compute. exact I.
  - apply (bool_decide_unpack _). vm_compute. exact I.
Defined.

(** ** The two-way cleaner: the fused sequence *)

Lemma all_but_last_snoc (h : list string) x : all_but_last (h ++ [x]) = h.
Proof.
  unfold all_but_last. rewrite length_app. simpl.
  replace (length h + 1 - 1)%nat with (length h) by lia.
  by rewrite take_app_length.
Qed.

(** The first three concatenation cases of [clean_street_segmentation],
    for a node [x] that is the first node or (at its first occurrence
    elsewhere) the last node of each way: the fused sequence runs through
    one way up to [x] and on through the other, with [x] written once. *)
Theorem combined_nids_splices x l1 l2 idx1 idx2 :
  index_of x l1 = Some idx1 → index_of x l2 = Some idx2 →
  match idx1, idx2 with
  | 0%nat, 0%nat =>
      ∃ t1 t2, l1 = x :: t1 ∧ l2 = x :: t2
        ∧ combined_nids l1 l2 idx1 idx2 = (reverse t1 ++ x :: t2)%list
  | S _, 0%nat =>
      last l1 = Some x →
      ∃ h1 t2, l1 = (h1 ++ [x])%list ∧ l2 = x :: t2
        ∧ combined_nids l1 l2 idx1 idx2 = (h1 ++ x :: t2)%list
  | 0%nat, S _ =>
      last l2 = Some x →
      ∃ t1 h2, l1 = x :: t1 ∧ l2 = (h2 ++ [x])%list
        ∧ combined_nids l1 l2 idx1 idx2 = (h2 ++ x :: t1)%list
  | S _, S _ => True
  end.
Proof.
  intros H1 H2.
  assert (Hhead : ∀ l, index_of x l = Some 0%nat → ∃ t, l = x :: t).
  { intros l Hl. apply index_of_zero in Hl.
    destruct l as [|y t]; [done|]. injection Hl as ->. by exists t. }
  destruct idx1 as [|i1], idx2 as [|i2]; [| | |done].
  - destruct (Hhead _ H1) as [t1 ->]. destruct (Hhead _ H2) as [t2 ->].
    by exists t1, t2.
  - intros [h2 ->]%last_Some. destruct (Hhead _ H1) as [t1 ->].
    exists t1, h2. split; [done|]. split; [done|].
    unfold combined_nids. by rewrite all_but_last_snoc.
  - intros [h1 ->]%last_Some. destruct (Hhead _ H2) as [t2 ->].
    exists h1, t2. split; [done|]. split; [done|].
    unfold combined_nids. by rewrite all_but_last_snoc.
Qed.

(** The ways ["a"; "s"] and ["s"; "b"] of [through_net] meet at ["s"], the
    last node of the first and the first node of the second. *)
Lemma combined_nids_splices_witness :
  combined_nids ["a"; "s"] ["s"; "b"] 1 0 = ["a"; "s"; "b"].
Proof.
  destruct (combined_nids_splices "s" ["a"; "s"] ["s"; "b"] 1 0
              eq_refl eq_refl eq_refl) as (h1 & t2 & H1 & H2 & ->).
  change ["a"; "s"] with (["a"] ++ ["s"])%list in H1.
  apply app_inj_2 in H1 as [<- _]; [|done].
  by injection H2 as <-.
Defined.

(** ** The two-way cleaner: a node that lists one way twice *)

(** Fusing a way with itself never returns: after the first
    [remove_way] the second one finds no way. *)
Lemma fuse_at_same_way s gen node wid k net :
  ∃ e, fuse_at s gen node wid wid k net = Raise e.
Proof.
  destruct (fuse_at s gen node wid wid k net) as [[net' k']|e] eqn:Hrun;
    [exfalso | by exists e].
  unfold fuse_at in Hrun.
  apply bind_Ok in Hrun as (way_1 & _ & H).
  apply bind_Ok in H as (way_2 & _ & H). apply bind_Ok in H as (w1 & _ & H).
  apply bind_Ok in H as (idx1 & _ & H). apply bind_Ok in H as (w2 & _ & H).
  apply bind_Ok in H as (idx2 & _ & H). apply bind_Ok in H as (net1 & _ & H).
  apply bind_Ok in H as (net2 & H2 & H). apply bind_Ok in H as (net3 & H3 & _).
  apply remove_way_ways in H2. unfold remove_way, deref_way in H3.
  by rewrite H2, lookup_delete_eq in H3.
Qed.

Lemma clean_from_doubled s gen snapshot k net :
  (∀ nid n, nodes net !! nid = Some n → length (way_ids n) = 2%nat →
     ∃ wid, way_ids n = [wid; wid]) →
  (∃ nid n, nid ∈ snapshot ∧ nodes net !! nid = Some n
            ∧ length (way_ids n) = 2%nat) →
  ∃ e, clean_from s gen snapshot k net = Raise e.
Proof.
  intros Hdbl. induction snapshot as [|nid rest IH];
    intros (x & n & Hx & Hn & Hlen); [by apply elem_of_nil in Hx|].
  simpl. destruct (nodes net !! nid) as [node|] eqn:Hnode.
  - destruct (decide (length (way_ids node) = 2%nat)) as [Hl|Hl].
    + destruct (Hdbl nid node Hnode Hl) as [wid ->].
      destruct (fuse_at_same_way s gen node wid k net) as [e ->].
      by exists e.
    + assert (Hrest : ∃ e, clean_from s gen rest k net = Raise e).
      { apply IH. exists x, n. split; [|done].
        apply elem_of_cons in Hx as [->|Hx]; [|done]. congruence. }
      destruct (way_ids node) as [|? [|? [|]]]; try done.
  - apply IH. exists x, n. split; [|done].
    apply elem_of_cons in Hx as [->|Hx]; [congruence | done].
Qed.

(** [clean_street_segmentation] raises when some node has a list of ways
    of length two and every such list holds one way twice, as the list of
    the end node of a closed way does: the cleaner fuses the way with
    itself and removes it twice. *)
Theorem cleaner_raises_on_doubled_way s gen k net :
  (∀ nid n, nodes net !! nid = Some n → length (way_ids n) = 2%nat →
     ∃ wid, way_ids n = [wid; wid]) →
  (∃ nid n, nodes net !! nid = Some n ∧ length (way_ids n) = 2%nat) →
  ∃ e, clean_street_segmentation s gen k net = Raise e.
Proof.
  intros Hdbl (nid & n & Hn & Hlen). apply clean_from_doubled; [done|].
  exists nid, n. split; [|done].
  apply list_elem_of_fmap. exists (nid, n). split; [done|].
  by apply elem_of_map_to_list.
Qed.

(** In [closed_way_net] the node ["a"], where the closed way starts and
    ends, lists the way twice. *)
Lemma cleaner_raises_on_doubled_way_witness :
  ∃ e, clean_street_segmentation GetReturnsNone example_ids 0 closed_way_net
       = Raise e.
Proof.
  apply cleaner_raises_on_doubled_way.
  - assert (Hall : map_Forall
              (λ _ n, length (way_ids n) = 2%nat → way_ids n = ["w"; "w"])
              (nodes closed_way_net))
      by (apply (bool_decide_unpack _); vm_compute; exact I).
    intros nid n Hn Hlen. exists "w". by eapply Hall.
  - exists "a", (mkNode "a" 0 0 ["w"; "w"] 2). split; reflexivity.
Defined.

(** ** The polyline simplifier: ways that cannot be simplified *)

Lemma set_nids_id w : set_nids (nids w) w = w.
Proof. by destruct w. Qed.

Lemma set_ways_id net : set_ways (ways net) net = net.
Proof. by destruct net. Qed.

(** [simplify] on a way with a single node, whatever the threshold: the
    node is taken both as the first and as the last node of the result, so
    the way comes out with its node written twice. *)
Theorem simplify_single_node s wid w t net nid n :
  ways net !! wid = Some w → nids w = [nid] → nodes net !! nid = Some n →
  simplify s wid t net
  = Ok (set_ways (<[wid := set_nids [node_id n; node_id n] w]> (ways net)) net).
Proof.
  intros Hw Hnids Hn. unfold simplify, deref_way, deref_node.
  rewrite Hw. cbn -[simplify_loop merge_sort]. rewrite Hnids.
  cbn -[simplify_loop merge_sort]. rewrite Hn.
  cbn -[simplify_loop merge_sort].
  assert (Hloop : simplify_loop 1 [location n] t [] ∅ = Ok []).
  { simpl. by destruct (above_threshold 0 1 t). }
  rewrite Hloop. done.
Qed.

(** The way ["v"] of [stub_net] consists of the node ["b"]. *)
Lemma simplify_single_node_witness :
  ∃ net', simplify GetReturnsNone "v" default_threshold stub_net = Ok net'
    ∧ (nids <$> ways net' !! "v") = Some ["b"; "b"].
Proof.
  eexists. split.
  - apply (simplify_single_node GetReturnsNone "v" (mkStreet "v" ["b"] None)
             default_threshold stub_net "b" (mkNode "b" 0 1 ["w"; "v"] 2));
      reflexivity.
  - reflexivity.
Defined.

(** [simplify] on a way without nodes divides by the number of its nodes:
    it raises [ZeroDivisionError]. *)
Theorem simplify_empty_way s wid w t net :
  ways net !! wid = Some w → nids w = [] →
  simplify s wid t net = Raise ZeroDivisionError.
Proof.
  intros Hw Hnids. unfold simplify, deref_way. rewrite Hw. simpl.
  rewrite Hnids. done.
Qed.

Lemma simplify_empty_way_witness :
  simplify GetReturnsNone "e" default_threshold empty_way_net
  = Raise ZeroDivisionError.
Proof.
  apply (simplify_empty_way GetReturnsNone "e" (mkStreet "e" [] None));
    reflexivity.
Defined.

Lemma StronglySorted_seq a n : StronglySorted Nat.le (seq a n).
Proof.
  revert a. induction n as [|n IH]; intros a; simpl; constructor; [done|].
  apply Forall_forall. intros x Hx%elem_of_seq. unfold Nat.le. lia.
Qed.

(** [simplify] with a threshold of one or more takes no node away: the
    network is left as it was. *)
Theorem simplify_threshold_one s wid w t net :
  well_keyed net → ways net !! wid = Some w →
  nodes_present net (nids w) → (2 ≤ length (nids w))%nat → (1 <= t)%Q →
  simplify s wid t net = Ok net.
Proof.
  intros Hkey Hw Hpres HN Ht.
  destruct (mapM_res_Ok (deref_node net) (nids w)) as (ns & Hns & Hall).
  { intros nid Hin. destruct (Hpres nid Hin) as [n Hn]. exists n.
    unfold deref_node. by rewrite Hn. }
  pose proof (deref_nodes_ids _ _ _ Hkey Hall) as Hids.
  assert (Hlen : length ns = length (nids w))
    by (by rewrite <- Hids, length_fmap).
  set (latlngs := location <$> ns).
  assert (Hlat : length latlngs = length (nids w))
    by (unfold latlngs; by rewrite length_fmap).
  set (groups := interior_indices (length latlngs)).
  assert (Hglen : length groups = (length (nids w) - 2)%nat).
  { unfold groups, interior_indices. rewrite length_seq. lia. }
  destruct (build_triangles_Ok latlngs groups ∅) as (d & Hd & _).
  { intros i Hi. apply elem_of_seq in Hi. lia. }
  { intros i tr. by rewrite lookup_empty. }
  assert (Hloop : simplify_loop (S (length groups)) latlngs t groups d
                  = Ok groups).
  { simpl.
    assert (above_threshold (length groups) (length latlngs) t = false)
      as ->; [|done].
    unfold above_threshold. apply negb_false_iff, Qle_bool_iff.
    rewrite Hglen, Hlat.
    replace (length (nids w) - 2 + 2)%nat with (length (nids w)) by lia.
    eapply Qle_trans; [|exact Ht]. apply Qle_shift_div_r.
    - rewrite <- (Zlt_Qlt 0). lia.
    - rewrite Qmult_1_l. apply Qle_refl. }
  assert (Hsort : merge_sort Nat.le groups = groups).
  { apply (StronglySorted_unique Nat.le).
    - apply (StronglySorted_merge_sort _).
    - apply StronglySorted_seq.
    - apply merge_sort_Permutation. }
  destruct (lookup_lt_is_Some_2 ns 0%nat) as [n0 Hn0]; [lia|].
  assert (Hlast : is_Some (last ns)).
  { rewrite last_lookup. apply lookup_lt_is_Some_2. lia. }
  destruct Hlast as [nl Hnl].
  set (f := λ i : nat, nids w !!! i).
  unfold simplify, deref_way. rewrite Hw.
  cbn -[simplify_loop merge_sort]. rewrite Hns.
  cbn -[simplify_loop merge_sort]. fold latlngs. fold groups. rewrite Hd.
  cbn -[simplify_loop merge_sort].
  rewrite bool_decide_eq_false_2 by lia. rewrite Hloop.
  cbn -[simplify_loop merge_sort]. rewrite Hsort.
  rewrite (py_nth_Ok _ _ _ Hn0). cbn -[simplify_loop merge_sort].
  rewrite collect_ids_Ok
    by (intros idx Hidx%elem_of_seq; lia).
  cbn -[simplify_loop merge_sort]. unfold py_last. rewrite Hnl.
  cbn -[simplify_loop merge_sort].
  assert (Hnew : node_id n0
                 :: ((λ i, (node_id <$> ns) !!! i) <$> groups)
                    ++ [node_id nl] = nids w).
  { rewrite Hids.
    assert (node_id n0 = f 0%nat) as ->.
    { symmetry. apply list_lookup_total_correct.
      by rewrite <- Hids, list_lookup_fmap, Hn0. }
    assert (node_id nl = f (length (nids w) - 1)%nat) as ->.
    { symmetry. apply list_lookup_total_correct.
      rewrite last_lookup, Hlen in Hnl.
      assert (H' : (node_id <$> ns) !! pred (length (nids w))
                   = Some (node_id nl)) by (by rewrite list_lookup_fmap, Hnl).
      rewrite Hids in H'. by rewrite Nat.sub_1_r. }
    transitivity (f <$> seq 0 (length (nids w)));
      [|apply fmap_lookup_total_seq].
    rewrite (seq_ends _ HN). unfold groups, interior_indices.
    rewrite Hlat. by rewrite fmap_cons, fmap_app. }
  rewrite Hnew, set_nids_id, insert_id by done. by rewrite set_ways_id.
Qed.

(** The way of [polyline_net] with the threshold 1. *)
Lemma simplify_threshold_one_witness :
  simplify GetReturnsNone "w" 1 polyline_net = Ok polyline_net.
Proof.
  apply (simplify_threshold_one GetReturnsNone "w"
           (mkStreet "w" ["p0"; "p1"; "p2"; "p3"; "p4"] None)).
  - apply (bool_decide_unpack _). vm_compute. exact I.
  - reflexivity.
  - apply (bool_decide_unpack _). vm_compute. exact I.
  - simpl. lia.
  - discriminate.
Defined.

(** ** [join_ways] on two stored ways *)

Lemma relabel_way_lookup wid1 wid2 l ns :
  (∀ nid, nid ∈ l → is_Some (ns !! nid)) →
  ∃ ns', relabel_way wid1 wid2 l ns = Ok ns'
    ∧ ∀ k, ns' !! k =
           (λ n, set_way_ids
                   (Nat.iter (occurrences k l) (relabel wid1 wid2) (way_ids n))
                   n) <$> ns !! k.
Proof.
  revert ns. induction l as [|nid l IH]; intros ns Hpres.
  - exists ns. split; [done|]. intros k. destruct (ns !! k) as [n|]; [|done].
    simpl. by rewrite set_way_ids_id.
  - destruct (Hpres nid) as [n Hn]; [left|]. simpl. rewrite Hn.
    destruct (IH (<[nid := remove_way_id wid2 (append_way wid1 n)]> ns))
      as (ns' & Hrun & Hlook).
    { intros k Hk. destruct (decide (k = nid)) as [->|Hne].
      - rewrite lookup_insert_eq. eauto.
      - rewrite lookup_insert_ne by done. apply Hpres. by right. }
    exists ns'. split; [done|]. intros k. rewrite Hlook, occurrences_cons.
    destruct (decide (k = nid)) as [->|Hne].
    + rewrite lookup_insert_eq, Hn, decide_True by done.
      cbn [fmap option_fmap option_map]. by rewrite Nat.iter_succ_r.
    + rewrite lookup_insert_ne, decide_False by done. done.
Qed.

Lemma relabel_iter wid1 wid2 m l :
  wid1 ≠ wid2 → (m ≤ occurrences wid2 l)%nat →
  length (Nat.iter m (relabel wid1 wid2) l) = length l
  ∧ occurrences wid2 (Nat.iter m (relabel wid1 wid2) l)
    = (occurrences wid2 l - m)%nat
  ∧ occurrences wid1 (Nat.iter m (relabel wid1 wid2) l)
    = (occurrences wid1 l + m)%nat
  ∧ ∀ x, x ≠ wid1 → x ≠ wid2 →
      occurrences x (Nat.iter m (relabel wid1 wid2) l) = occurrences x l.
Proof.
  intros Hne. induction m as [|m IH]; intros Hm.
  - simpl. repeat split; lia.
  - destruct IH as (Hlen & H2 & H1 & Hx); [lia|]. simpl.
    set (l' := Nat.iter m (relabel wid1 wid2) l) in *. unfold relabel.
    assert (Hin : wid2 ∈ (l' ++ [wid1])%list).
    { apply elem_of_app. left.
      destruct (decide (wid2 ∈ l')) as [|Hout]; [done|].
      apply occurrences_zero in Hout. lia. }
    split; [|split; [|split]].
    + rewrite length_remove_first, decide_True by done.
      rewrite length_app. simpl. lia.
    + rewrite occurrences_remove_first, occurrences_app, H2.
      rewrite occurrences_cons, decide_False by done.
      unfold occurrences at 2. simpl. lia.
    + rewrite occurrences_remove_first_ne by done.
      rewrite occurrences_app, H1, occurrences_cons, decide_True by done.
      unfold occurrences at 2. simpl. lia.
    + intros x Hx1 Hx2. rewrite occurrences_remove_first_ne by done.
      rewrite occurrences_app, (Hx x Hx1 Hx2).
      rewrite occurrences_cons, decide_False by done.
      unfold occurrences at 2. simpl. lia.
Qed.

(** [join_ways(a, b)] for two different ids, [b] being stored, in a
    network whose nodes are stored under their ids and list each way once
    for each of their occurrences in it: the call returns; the way [b] is
    deleted and no other way is touched; no node is added or deleted; in
    every list each entry for [b] has become an entry for [a], so that no
    node lists [b] any more, every node of [b] lists [a] (whose sequence is
    as it was), and each list keeps its length, and with it every node
    keeps its status as an intersection. *)
Theorem join_ways_relabels s wid1 wid2 w2 net :
  well_keyed net → per_occurrence net → wid1 ≠ wid2 →
  ways net !! wid2 = Some w2 → nodes_present net (nids w2) →
  ∃ net', join_ways s wid1 wid2 net = Ok net'
    ∧ ways net' = delete wid2 (ways net)
    ∧ (∀ k, nodes net !! k = None → nodes net' !! k = None)
    ∧ ∀ k n, nodes net !! k = Some n →
        ∃ n', nodes net' !! k = Some n'
          ∧ node_id n' = node_id n
          ∧ (wid2 ∉ way_ids n')
          ∧ (k ∈ nids w2 → wid1 ∈ way_ids n')
          ∧ length (way_ids n') = length (way_ids n)
          ∧ is_intersection n' = is_intersection n
          ∧ occurrences wid1 (way_ids n')
            = (occurrences wid1 (way_ids n) + occurrences wid2 (way_ids n))%nat
          ∧ ∀ x, x ≠ wid1 → x ≠ wid2 →
              occurrences x (way_ids n') = occurrences x (way_ids n).
Proof.
  intros Hkey Hper Hne Hw2 Hpres.
  destruct (relabel_way_lookup wid1 wid2 (nids w2) (nodes net) Hpres)
    as (ns' & Hrun & Hlook).
  exists (mkNetwork ns' (delete wid2 (ways net))). split.
  { unfold join_ways, join_ways_body, deref_way, ways_remove.
    rewrite Hw2. simpl. by rewrite Hrun. }
  split; [done|]. split.
  - intros k Hk. simpl. by rewrite Hlook, Hk.
  - intros k n Hn. simpl. rewrite Hlook, Hn. simpl. eexists. split; [done|].
    assert (Hocc : occurrences k (nids w2) = occurrences wid2 (way_ids n)).
    { by rewrite (Hper k n Hn wid2), Hw2, (Hkey k n Hn). }
    destruct (relabel_iter wid1 wid2 (occurrences k (nids w2)) (way_ids n))
      as (Hlen & H2 & H1 & Hx); [done | lia |].
    split; [done|]. simpl. split; [|split; [|split; [|split; [|split]]]].
    + apply occurrences_zero. rewrite H2. lia.
    + intros Hk.
      destruct (decide (wid1 ∈ Nat.iter (occurrences k (nids w2))
                                 (relabel wid1 wid2) (way_ids n)))
        as [|Hout]; [done|].
      apply occurrences_zero in Hout. rewrite H1 in Hout.
      assert (occurrences k (nids w2) = 0%nat) as Hz by lia.
      by apply occurrences_zero in Hz.
    + done.
    + unfold is_intersection. simpl. by rewrite Hlen.
    + rewrite H1. lia.
    + done.
Qed.

(** [join_ways("a", "b")] in [corner_net]: the way ["b"] is deleted and
    the node ["n3"] lists ["a"] in its place. *)
Lemma join_ways_relabels_witness :
  ∃ net', join_ways GetReturnsNone "a" "b" corner_net = Ok net'
    ∧ ways net' !! "b" = None
    ∧ ∃ n3, nodes net' !! "n3" = Some n3 ∧ ("b" ∉ way_ids n3)
            ∧ length (way_ids n3) = 1%nat.
Proof.
  destruct (join_ways_relabels GetReturnsNone "a" "b"
              (mkStreet "b" ["n2"; "n3"] None) corner_net)
    as (net' & Hrun & Hways & _ & Hnodes).
  - apply (bool_decide_unpack _). vm_compute. exact I.
  - apply (bool_decide_unpack _). vm_compute. exact I.
  - discriminate.
  - reflexivity.
  - apply (bool_decide_unpack _). vm_compute. exact I.
  - exists net'. split; [exact Hrun|]. split.
    + rewrite Hways. apply lookup_delete_eq.
    + destruct (Hnodes "n3" (mkNode "n3" 1 1 ["b"] 2) eq_refl)
        as (n3 & Hn3 & _ & Hout & _ & Hlen & _).
      exists n3. split; [exact Hn3|]. split; [exact Hout | exact Hlen].
Defined.

(** ** The bounding box *)

Lemma foldl_extend_bounds l b :
  let b' := foldl extend_bounds b l in
  ((min_lat b' <= min_lat b)%Q ∧ (min_lng b' <= min_lng b)%Q
   ∧ (max_lat b <= max_lat b')%Q ∧ (max_lng b <= max_lng b')%Q)
  ∧ (∀ n, n ∈ l →
       (min_lat b' <= lat n)%Q ∧ (lat n <= max_lat b')%Q
       ∧ (min_lng b' <= lng n)%Q ∧ (lng n <= max_lng b')%Q)
  ∧ ((min_lat b' == min_lat b)%Q ∨ ∃ n, n ∈ l ∧ (min_lat b' == lat n)%Q)
  ∧ ((min_lng b' == min_lng b)%Q ∨ ∃ n, n ∈ l ∧ (min_lng b' == lng n)%Q)
  ∧ ((max_lat b' == max_lat b)%Q ∨ ∃ n, n ∈ l ∧ (max_lat b' == lat n)%Q)
  ∧ ((max_lng b' == max_lng b)%Q ∨ ∃ n, n ∈ l ∧ (max_lng b' == lng n)%Q).
Proof.
  revert b. induction l as [|x l IH]; intros b; simpl.
  - split; [repeat split; apply Qle_refl|].
    split; [by intros ? ?%elem_of_nil|]. repeat split; by left.
  - destruct (IH (extend_bounds b x))
      as ((H1 & H2 & H3 & H4) & Hin & T1 & T2 & T3 & T4).
    simpl in *.
    pose proof (Q.le_min_l (lat x) (min_lat b)).
    pose proof (Q.le_min_r (lat x) (min_lat b)).
    pose proof (Q.le_min_l (lng x) (min_lng b)).
    pose proof (Q.le_min_r (lng x) (min_lng b)).
    pose proof (Q.le_max_l (lat x) (max_lat b)).
    pose proof (Q.le_max_r (lat x) (max_lat b)).
    pose proof (Q.le_max_l (lng x) (max_lng b)).
    pose proof (Q.le_max_r (lng x) (max_lng b)).
    split; [repeat split; eapply Qle_trans; eassumption|].
    split.
    { intros n [->|Hn]%elem_of_cons; [|by apply Hin].
      repeat split; eapply Qle_trans; eassumption. }
    assert (Hmore : ∀ P : Node → Prop,
              (∃ n, n ∈ l ∧ P n) → ∃ n, n ∈ x :: l ∧ P n).
    { intros P (n & Hn & HP). exists n. split; [by right | done]. }
    repeat split.
    + destruct T1 as [T1|T1]; [|right; by apply Hmore].
      destruct (Q.min_spec (lat x) (min_lat b)) as [[_ Hm]|[_ Hm]].
      * right. exists x. split; [left|]. by rewrite T1.
      * left. by rewrite T1.
    + destruct T2 as [T2|T2]; [|right; by apply Hmore].
      destruct (Q.min_spec (lng x) (min_lng b)) as [[_ Hm]|[_ Hm]].
      * right. exists x. split; [left|]. by rewrite T2.
      * left. by rewrite T2.
    + destruct T3 as [T3|T3]; [|right; by apply Hmore].
      destruct (Q.max_spec (lat x) (max_lat b)) as [[_ Hm]|[_ Hm]].
      * left. by rewrite T3.
      * right. exists x. split; [left|]. by rewrite T3.
    + destruct T4 as [T4|T4]; [|right; by apply Hmore].
      destruct (Q.max_spec (lng x) (max_lng b)) as [[_ Hm]|[_ Hm]].
      * left. by rewrite T4.
      * right. exists x. split; [left|]. by rewrite T4.
Qed.

(** The bounding box that [Network.__init__] computes encloses every
    stored node, and each of its sides is the initial value (100000 or
    -100000) or passes through a node; for an empty store it is the initial
    box, whose minima are above its maxima. *)
Theorem network_bounds_enclose ns :
  let b := network_bounds ns in
  (∀ k n, ns !! k = Some n →
     (min_lat b <= lat n)%Q ∧ (lat n <= max_lat b)%Q
     ∧ (min_lng b <= lng n)%Q ∧ (lng n <= max_lng b)%Q)
  ∧ ((min_lat b == 100000)%Q ∨ ∃ k n, ns !! k = Some n ∧ (min_lat b == lat n)%Q)
  ∧ ((min_lng b == 100000)%Q ∨ ∃ k n, ns !! k = Some n ∧ (min_lng b == lng n)%Q)
  ∧ ((max_lat b == - 100000)%Q
     ∨ ∃ k n, ns !! k = Some n ∧ (max_lat b == lat n)%Q)
  ∧ ((max_lng b == - 100000)%Q
     ∨ ∃ k n, ns !! k = Some n ∧ (max_lng b == lng n)%Q)
  ∧ network_bounds ∅ = initial_bounds.
Proof.
  unfold network_bounds.
  destruct (foldl_extend_bounds (get_list ns) initial_bounds)
    as (_ & Hin & T1 & T2 & T3 & T4).
  assert (Hstored : ∀ P : Node → Prop,
            (∃ n, n ∈ get_list ns ∧ P n) → ∃ k n, ns !! k = Some n ∧ P n).
  { intros P (n & Hn & HP). unfold get_list in Hn.
    apply list_elem_of_fmap in Hn as ([k n'] & -> & Hn).
    apply elem_of_map_to_list in Hn. by exists k, n'. }
  simpl. split.
  { intros k n Hn. apply Hin. unfold get_list.
    apply list_elem_of_fmap. exists (k, n). split; [done|].
    by apply elem_of_map_to_list. }
  split; [destruct T1 as [?|?]; [by left | right; by apply Hstored]|].
  split; [destruct T2 as [?|?]; [by left | right; by apply Hstored]|].
  split; [destruct T3 as [?|?]; [by left | right; by apply Hstored]|].
  split; [destruct T4 as [?|?]; [by left | right; by apply Hstored]|].
  unfold get_list. by rewrite map_to_list_empty.
Qed.

(** ** Export of the ways: nothing is lost *)

Lemma string_app_cons a s t : String a s +:+ t = String a (s +:+ t).
Proof. reflexivity. Qed.

Lemma string_length_app s t :
  String.length (s +:+ t) = (String.length s + String.length t)%nat.
Proof.
  induction s as [|a s IH]; [done|].
  rewrite string_app_cons. simpl. by rewrite IH.
Qed.

Lemma string_app_inj_l s1 s2 t : s1 +:+ t = s2 +:+ t → s1 = s2.
Proof.
  revert s2. induction s1 as [|a s1 IH]; intros [|b s2] H.
  - done.
  - apply (f_equal String.length) in H.
    rewrite !string_length_app in H. simpl in H. lia.
  - apply (f_equal String.length) in H.
    rewrite !string_length_app in H. simpl in H. lia.
  - rewrite !string_app_cons in H. injection H as -> H. f_equal. by apply IH.
Qed.

(** A quoted value between a fixed beginning and a fixed end. *)
Lemma quoted_inj (pre post x y : string) :
  pre +:+ dq +:+ x +:+ dq +:+ post = pre +:+ dq +:+ y +:+ dq +:+ post →
  x = y.
Proof.
  intros H. apply (inj (String.app pre)), (inj (String.app dq)) in H.
  by apply string_app_inj_l in H.
Qed.

Lemma render_WayOpen_inj x y : render (WayOpen x) = render (WayOpen y) → x = y.
Proof.
  unfold render. intros H.
  apply (quoted_inj "<way id="
           (" visible=" +:+ dq +:+ "true" +:+ dq +:+ " user=" +:+ dq
            +:+ "test" +:+ dq +:+ ">")) in H. done.
Qed.

Lemma render_NdRef_inj x y : render (NdRef x) = render (NdRef y) → x = y.
Proof. unfold render. apply quoted_inj. Qed.

Lemma render_highway_inj x y :
  render (Tag "highway" x) = render (Tag "highway" y) → x = y.
Proof.
  unfold render. intros H.
  apply (quoted_inj ("<tag k=" +:+ dq +:+ "highway" +:+ dq +:+ " v=")) in H.
  done.
Qed.

Lemma cons_eq_inv {A} (x y : A) l l' : x :: l = y :: l' → x = y ∧ l = l'.
Proof. by intros [= -> ->]. Qed.

Lemma export_tail_inj w1 w2 l1 l2 :
  render <$> ((NdRef <$> l1) ++ way_tag w1 ++ [WayClose])%list
  = render <$> ((NdRef <$> l2) ++ way_tag w2 ++ [WayClose])%list →
  l1 = l2 ∧ wtype w1 = wtype w2.
Proof.
  revert l2. induction l1 as [|x l1 IH]; intros [|y l2] H.
  - split; [done|]. unfold way_tag in H.
    destruct (wtype w1) as [t1|], (wtype w2) as [t2|]; repeat case_decide;
      subst; try done; simpl in H;
      try (vm_compute in H; discriminate H).
    apply cons_eq_inv in H as [H _]. by apply render_highway_inj in H as ->.
  - exfalso. unfold way_tag in H.
    destruct (wtype w1) as [t1|]; repeat case_decide;
      vm_compute in H; discriminate H.
  - exfalso. unfold way_tag in H.
    destruct (wtype w2) as [t2|]; repeat case_decide;
      vm_compute in H; discriminate H.
  - rewrite !fmap_cons in H. apply cons_eq_inv in H as [Hx H].
    apply render_NdRef_inj in Hx as ->.
    destruct (IH l2 H) as [-> ?]. done.
Qed.

(** The lines that [export(format='osm')] writes for a way determine the
    way: two ways with the same lines have the same id, the same sequence
    of nodes and the same type. *)
Theorem export_way_inj w1 w2 :
  render <$> export_way w1 = render <$> export_way w2 → w1 = w2.
Proof.
  unfold export_way. rewrite !fmap_cons. intros [Hid H]%cons_eq_inv.
  apply render_WayOpen_inj in Hid.
  apply export_tail_inj in H as [Hnids Hty].
  destruct w1, w2. simpl in *. by subst.
Qed.

Lemma export_way_inj_witness :
  mkStreet "w" ["a"; "b"] (Some "residential")
  = mkStreet "w" ["a"; "b"] (Some "residential").
Proof. apply export_way_inj. reflexivity. Defined.

(** ** The overlap segmentation: a way that runs along the nodes of another *)

Lemma mapM_res_inv {A B} (f : A → res B) l r :
  mapM_res f l = Ok r → Forall2 (λ x y, f x = Ok y) l r.
Proof.
  revert r. induction l as [|x l IH]; intros r; simpl.
  - intros [= <-]. constructor.
  - intros (y & Hy & H)%bind_Ok. apply bind_Ok in H as (r' & Hr' & [= <-]).
    constructor; [done | by apply IH].
Qed.

Lemma elem_of_insert_by_projection base x y l :
  y ∈ insert_by_projection base x l ↔ y = x ∨ y ∈ l.
Proof.
  induction l as [|z l IH]; simpl.
  - rewrite list_elem_of_singleton, elem_of_nil. tauto.
  - destruct (Qle_bool _ _); rewrite !elem_of_cons; [done|].
    rewrite IH. tauto.
Qed.

Lemma elem_of_sorted_by_projection base y l :
  y ∈ sorted_by_projection base l ↔ y ∈ l.
Proof.
  unfold sorted_by_projection. induction l as [|x l IH]; simpl; [done|].
  by rewrite elem_of_insert_by_projection, IH, elem_of_cons.
Qed.

Lemma elem_of_window2 {A} (x y : A) l : (x, y) ∈ window2 l → x ∈ l ∧ y ∈ l.
Proof.
  induction l as [|a [|b l] IH]; simpl; [by intros ?%elem_of_nil..|].
  intros [[= -> ->]|Hin]%elem_of_cons.
  - split; [left | right; left].
  - destruct (IH Hin) as [? ?]. split; by right.
Qed.

(** The nodes looked up for the ids of a way carry those ids. *)
Lemma deref_nodes_elem net l ns n :
  well_keyed net → mapM_res (deref_node net) l = Ok ns → n ∈ ns →
  node_id n ∈ l.
Proof.
  intros Hkey Hrun%mapM_res_inv Hn.
  rewrite <- (deref_nodes_ids net l ns Hkey Hrun).
  apply list_elem_of_fmap. by exists n.
Qed.

(** [segment_parallel_streets] never returns for two ways such that every
    node of the second is a node of the first (the same way given twice,
    or a way along a part of another): in the joint ordering no node
    belongs to the second way only, and [index(True)] finds no switch.
    [merge_parallel_street_segments] does not catch the exception. *)
Theorem segment_raises_on_covered_way s step wid1 wid2 rest net :
  well_keyed net →
  (∀ w1 w2 nid, ways net !! wid1 = Some w1 → ways net !! wid2 = Some w2 →
     nid ∈ nids w2 → nid ∈ nids w1) →
  (∃ e, segment_parallel_streets wid1 wid2 net = Raise e)
  ∧ ∃ e, merge_parallel_street_segments s step ((wid1, wid2) :: rest) net
         = Raise e.
Proof.
  intros Hkey Hcov.
  assert (Hseg : ∃ e, segment_parallel_streets wid1 wid2 net = Raise e).
  { destruct (segment_parallel_streets wid1 wid2 net) as [[net1 r]|e] eqn:H;
      [exfalso | by exists e].
    unfold segment_parallel_streets in H.
    apply bind_Ok in H as (w1 & Hw1%use_way_Ok & H).
    apply bind_Ok in H as (nid0 & _ & H). apply bind_Ok in H as (nid1 & _ & H).
    apply bind_Ok in H as (b0 & _ & H). apply bind_Ok in H as (b1 & _ & H).
    apply bind_Ok in H as (w2 & Hw2%use_way_Ok & H).
    apply bind_Ok in H as (nodes2 & _ & H).
    apply bind_Ok in H as (first2 & _ & H).
    apply bind_Ok in H as (sorted2 & _ & H). cbv zeta in H.
    remember (if decide (node_id first2 ≠ node_id sorted2)
              then set_ways
                     (<[wid2 := set_nids (reverse (nids w2)) w2]> (ways net))
                     net
              else net) as net' eqn:Hnet' in H.
    apply bind_Ok in H as (street1 & Hs1%use_way_Ok & H).
    apply bind_Ok in H as (street2 & Hs2%use_way_Ok & H).
    apply bind_Ok in H as (nodes1' & Hn1 & H).
    apply bind_Ok in H as (nodes2' & Hn2 & H).
    apply bind_Ok in H as (begin_idx & Hbegin & _).
    assert (Hnodes : nodes net' = nodes net)
      by (rewrite Hnet'; by destruct (decide _)).
    assert (Hkey' : well_keyed net').
    { intros k n. rewrite Hnodes. apply Hkey. }
    assert (Hcov' : ∀ nid, nid ∈ nids street2 → nid ∈ nids street1).
    { rewrite Hnet' in Hs1, Hs2.
      destruct (decide (node_id first2 ≠ node_id sorted2)); simpl in *.
      - rewrite lookup_insert_eq in Hs2. injection Hs2 as <-. simpl.
        intros nid Hnid. rewrite elem_of_reverse in Hnid.
        destruct (decide (wid1 = wid2)) as [->|Hne].
        + rewrite lookup_insert_eq in Hs1. injection Hs1 as <-. simpl.
          by rewrite elem_of_reverse.
        + rewrite lookup_insert_ne in Hs1 by done.
          rewrite Hw1 in Hs1. injection Hs1 as <-. by eapply Hcov.
      - rewrite Hw1 in Hs1. rewrite Hw2 in Hs2.
        injection Hs1 as <-. injection Hs2 as <-. intros nid. by apply Hcov. }
    unfold first_true, py_index in Hbegin.
    destruct (index_of true _) as [i|] eqn:Hi; [|done].
    apply index_of_lookup, list_elem_of_lookup_2 in Hi.
    apply list_elem_of_fmap in Hi as ([i1 i2] & Hne & Hin).
    symmetry in Hne. apply bool_decide_eq_true_1 in Hne.
    apply elem_of_window2 in Hin as [H1 H2].
    assert (Hzero : ∀ j,
      j ∈ (λ nid, if bool_decide (nid ∈ nids street1) then 0%nat else 1%nat)
          <$> (node_id <$> sorted_by_projection
                 ((lat b1 - lat b0)%Q, (lng b1 - lng b0)%Q)
                 (nodes1' ++ nodes2')) → j = 0%nat).
    { intros j (nid & -> & Hnid)%list_elem_of_fmap.
      apply list_elem_of_fmap in Hnid as (n & -> & Hn).
      apply elem_of_sorted_by_projection, elem_of_app in Hn.
      rewrite bool_decide_eq_true_2; [done|].
      destruct Hn as [Hn|Hn].
      - by eapply deref_nodes_elem.
      - apply Hcov'. by eapply deref_nodes_elem. }
    apply Hzero in H1, H2. congruence. }
  split; [done|]. destruct Hseg as [e Hseg]. simpl.
  destruct (get_way s net wid1) as [o1|e1]; [|by exists e1]. simpl.
  destruct (get_way s net wid2) as [o2|e2]; [|by exists e2]. simpl.
  rewrite Hseg. by exists e.
Qed.

(** The way ["s1"] of [parallel_gap_net] paired with itself. *)
Lemma segment_raises_on_covered_way_witness :
  ∃ e, segment_parallel_streets "s1" "s1" parallel_gap_net = Raise e.
Proof.
  apply (segment_raises_on_covered_way GetReturnsNone no_merge_step
           "s1" "s1" [] parallel_gap_net).
  - apply (bool_decide_unpack _). vm_compute. exact I.
  - intros w1 w2 nid H1 H2. rewrite H1 in H2. by injection H2 as <-.
Defined.

(** ** Neighbours of a node *)

Lemma adjacent_nodes_of_ends s net node wids :
  (∀ wid, wid ∈ wids → at_end_of net (node_id node) wid) →
  ∃ r, adjacent_nodes_of s net node wids = Ok r
    ∧ Forall2 (λ wid o, ∃ adj, next_to net (node_id node) wid adj
                               ∧ o = nodes net !! adj) wids r.
Proof.
  induction wids as [|wid wids IH]; intros Hends.
  - exists []. split; [done | constructor].
  - destruct IH as (r & Hr & Hall); [intros ??; apply Hends; by right|].
    destruct (Hends wid) as (w & Hw & Hlen & Hpos); [left|].
    destruct (lookup_lt_is_Some_2 (nids w) 0%nat) as [x0 H0]; [lia|].
    destruct (lookup_lt_is_Some_2 (nids w) 1%nat) as [x1 H1]; [lia|].
    destruct (lookup_lt_is_Some_2 (nids w) (length (nids w) - 2)%nat)
      as [y Hy]; [lia|].
    simpl. unfold deref_way. rewrite Hw. simpl.
    rewrite (py_nth_Ok _ _ _ H0). simpl.
    destruct (decide (x0 = node_id node)) as [->|Hne].
    + rewrite (py_nth_Ok _ _ _ H1). simpl. rewrite Hr. simpl.
      eexists. split; [done|]. constructor; [|done].
      exists x1. split; [|done]. exists w, 0%nat. split; [done|]. by left.
    + destruct Hpos as [Hfirst|Hlast]; [congruence|].
      unfold py_second_last. rewrite (proj2 (Nat.leb_le _ _) Hlen).
      rewrite (py_nth_Ok _ _ _ Hy). simpl. rewrite Hr. simpl.
      eexists. split; [done|]. constructor; [|done].
      exists y. split; [|done]. exists w, (length (nids w) - 2)%nat.
      split; [done|]. right. split; [done|].
      rewrite last_lookup in Hlast. rewrite <- Hlast. f_equal. lia.
Qed.

(** For a node that is the first or the last node of each of the ways it
    lists, these ways having at least two nodes, [get_adjacent_nodes]
    returns, for each listed way in turn, what
    the store holds for the node just after or just before it in that
    way. *)
Theorem get_adjacent_nodes_at_ends s net node :
  (∀ wid, wid ∈ way_ids node → at_end_of net (node_id node) wid) →
  ∃ r, get_adjacent_nodes s net node = Ok r
    ∧ Forall2 (λ wid o, ∃ adj, next_to net (node_id node) wid adj
                               ∧ o = nodes net !! adj) (way_ids node) r.
Proof. apply adjacent_nodes_of_ends. Qed.

(** ** The connected-way joiner *)

Lemma only_deleted_ways_refl net : only_deleted_ways net net.
Proof. by split. Qed.

Lemma only_deleted_ways_trans net1 net2 net3 :
  only_deleted_ways net1 net2 → only_deleted_ways net2 net3 →
  only_deleted_ways net1 net3.
Proof.
  intros [Hw1 Hn1] [Hw2 Hn2]. split; [by etrans|].
  intros k. by rewrite Hn2, Hn1.
Qed.

(** The node ["n2"] of [corner_net] ends the way ["a"] and starts the way
    ["b"]: its neighbours are ["n1"] and ["n3"]. *)
Lemma get_adjacent_nodes_at_ends_witness :
  ∃ r, get_adjacent_nodes GetReturnsNone corner_net
         (mkNode "n2" 0 1 ["a"; "b"] 2) = Ok r
    ∧ length r = 2%nat.
Proof.
  destruct (get_adjacent_nodes_at_ends GetReturnsNone corner_net
              (mkNode "n2" 0 1 ["a"; "b"] 2)) as (r & Hrun & Hall).
  - intros wid Hwid. simpl in Hwid.
    apply elem_of_cons in Hwid as [->|Hwid];
      [|apply list_elem_of_singleton in Hwid as ->].
    + exists (mkStreet "a" ["n1"; "n2"] None).
      split; [reflexivity|]. split; [simpl; lia|]. by right.
    + exists (mkStreet "b" ["n2"; "n3"] None).
      split; [reflexivity|]. split; [simpl; lia|]. by left.
  - exists r. split; [exact Hrun|]. by apply Forall2_length in Hall.
Defined.

Lemma relabel_way_dom wid1 wid2 l ns ns' :
  relabel_way wid1 wid2 l ns = Ok ns' →
  ∀ k, is_Some (ns' !! k) ↔ is_Some (ns !! k).
Proof.
  revert ns. induction l as [|nid l IH]; intros ns; simpl.
  - by intros [= <-].
  - destruct (ns !! nid) as [n|] eqn:Hn; [|done].
    intros Hrun k. rewrite (IH _ Hrun k), lookup_insert_is_Some. split.
    + intros [<-|[_ ?]]; [by eauto | done].
    + intros Hk. destruct (decide (nid = k)); [by left | by right].
Qed.

Lemma join_ways_only_deletes s wid1 wid2 net net' :
  join_ways s wid1 wid2 net = Ok net' → only_deleted_ways net net'.
Proof.
  unfold join_ways, catch_KeyError.
  destruct (join_ways_body s wid1 wid2 net) as [net1|e] eqn:Hbody.
  - intros [= <-]. unfold join_ways_body in Hbody.
    apply bind_Ok in Hbody as (w2 & _ & H).
    apply bind_Ok in H as (ns & Hns & H).
    apply bind_Ok in H as (ws & Hws & [= <-]).
    unfold ways_remove in Hws. destruct (ways net !! wid2); [|done].
    injection Hws as <-. split; [apply delete_subseteq|].
    simpl. by eapply relabel_way_dom.
  - destruct e; try done. intros [= <-]. apply only_deleted_ways_refl.
Qed.

Lemma join_pair_only_deletes s tools first short_way net removed net' removed' :
  join_pair s tools first short_way (net, removed) = Ok (net', removed') →
  only_deleted_ways net net'.
Proof.
  unfold join_pair. destruct (decide (short_way ≠ first));
    [|intros [= <- _]; apply only_deleted_ways_refl].
  unfold catch_KeyError.
  destruct (get_way s net (py_str tools first)) as [way1|e1]; simpl;
    [|destruct e1; try done; intros [= <- _]; apply only_deleted_ways_refl].
  destruct (get_way s net (py_str tools short_way)) as [way2|e2]; simpl;
    [|destruct e2; try done; intros [= <- _]; apply only_deleted_ways_refl].
  destruct (use_way way1) as [w1|e1] eqn:H1; simpl;
    [|destruct way1; simpl in H1; [done|]; by injection H1 as <-].
  destruct (use_way way2) as [w2|e2] eqn:H2; simpl;
    [|destruct way2; simpl in H2; [done|]; by injection H2 as <-].
  destruct (same_direction _ _ _);
    [|intros [= <- _]; apply only_deleted_ways_refl].
  destruct (join_ways s _ _ net) as [net1|e] eqn:Hjoin; simpl.
  - intros [= <- _]. by eapply join_ways_only_deletes.
  - unfold join_ways, catch_KeyError in Hjoin.
    destruct (join_ways_body _ _ _ _) as [|[]]; try done;
      injection Hjoin as <-; done.
Qed.

Lemma join_short_ways_only_deletes s tools first shorts net removed net'
    removed' :
  join_short_ways s tools first shorts (net, removed) = Ok (net', removed') →
  only_deleted_ways net net'.
Proof.
  revert net removed. induction shorts as [|x shorts IH]; intros net removed.
  - intros [= <- _]. apply only_deleted_ways_refl.
  - simpl. intros ([net1 removed1] & Hpair & Hrest)%bind_Ok.
    eapply only_deleted_ways_trans; [by eapply join_pair_only_deletes|].
    by eapply IH.
Qed.

Lemma join_long_ways_only_deletes s tools l1 l2 long net removed net'
    removed' :
  join_long_ways s tools l1 l2 long (net, removed) = Ok (net', removed') →
  only_deleted_ways net net'.
Proof.
  revert net removed. induction long as [|way long IH]; intros net removed.
  - intros [= <- _]. apply only_deleted_ways_refl.
  - simpl. intros ([net1 removed1] & Hshort & Hrest)%bind_Ok.
    eapply only_deleted_ways_trans; [|by eapply IH].
    destruct (short_ways_to_join way l1 l2) as [|first shorts].
    + injection Hshort as <- _. apply only_deleted_ways_refl.
    + by eapply join_short_ways_only_deletes.
Qed.

(** Whenever [join_connected_ways] returns, the new list of pairs is the
    given list with some pairs left out, in the same order; no way of the
    network was added or changed (ways were only deleted), and no node was
    added or deleted. *)
Theorem join_connected_ways_only_deletes s tools segments net net' result :
  join_connected_ways s tools segments net = Ok (net', result) →
  sublist result segments ∧ only_deleted_ways net net'.
Proof.
  unfold join_connected_ways. intros (ids & Hids & H)%bind_Ok.
  apply bind_Ok in H as ([net1 removed] & Hlong & [= <- <-]).
  split; [|by eapply join_long_ways_only_deletes].
  apply mapM_res_inv, Forall2_length in Hids.
  rewrite <- (fst_zip segments ids) at 2 by lia.
  apply fmap_sublist, sublist_filter.
Qed.

(** The long way ["1"] of [numbered_net] is paired with ["2"] and with
    ["3"]: the two short ways are joined, and the pair with ["3"] is left
    out. *)
Lemma join_connected_ways_only_deletes_witness :
  ∃ net', join_connected_ways GetReturnsNone decimal_tools
            [("1", "2"); ("1", "3")] numbered_net
          = Ok (net', [("1", "2")])
    ∧ sublist [("1", "2")] [("1", "2"); ("1", "3")]
    ∧ only_deleted_ways numbered_net net'.
Proof.
  eexists.
  assert (Hrun : join_connected_ways GetReturnsNone decimal_tools
                   [("1", "2"); ("1", "3")] numbered_net
                 = Ok (mkNetwork
                         (list_to_map
                            [("a", mkNode "a" 0 0 ["1"] 2);
                             ("c", mkNode "c" 0 2 ["1"] 2);
                             ("p", mkNode "p" 1 0 ["2"] 2);
                             ("q", mkNode "q" 1 1 ["2"; "2"] 2);
                             ("r", mkNode "r" 1 2 ["2"] 2)])
                         (list_to_map
                            [("1", mkStreet "1" ["a"; "c"] None);
                             ("2", mkStreet "2" ["p"; "q"] None)]),
                       [("1", "2")]))
    by (vm_compute; reflexivity).
  split; [exact Hrun|].
  exact (join_connected_ways_only_deletes _ _ _ _ _ _ Hrun).
Defined.

Lemma count_NoDup x l : NoDup l → (count x l ≤ 1)%nat.
Proof.
  unfold count. induction 1 as [|y l Hy _ IH]; [simpl; lia|].
  rewrite filter_cons. destruct (decide (y = x)) as [->|]; [|done].
  simpl. assert (filter (λ y, y = x) l = []) as ->; [|simpl; lia].
  clear IH. induction l as [|z l IH]; [done|].
  apply not_elem_of_cons in Hy as [Hne Hy]. rewrite filter_cons.
  rewrite decide_False by done. by apply IH.
Qed.

Lemma filter_none {A} (P : A → Prop) `{∀ x, Decision (P x)} (l : list A) :
  (∀ x, x ∈ l → ¬ P x) → filter P l = [].
Proof.
  induction l as [|x l IH]; intros Hall; [done|]. rewrite filter_cons.
  rewrite decide_False by (apply Hall; left). apply IH.
  intros y Hy. apply Hall. by right.
Qed.

Lemma filter_all {A} (P : A → Prop) `{∀ x, Decision (P x)} (l : list A) :
  (∀ x, x ∈ l → P x) → filter P l = l.
Proof.
  induction l as [|x l IH]; intros Hall; [done|]. rewrite filter_cons.
  rewrite decide_True by (apply Hall; left). f_equal. apply IH.
  intros y Hy. apply Hall. by right.
Qed.

(** When the ids of the pairs are numbers and no way appears twice in
    the pairs, [join_connected_ways] joins nothing: it returns the network
    and the list of pairs as they were. *)
Theorem join_connected_ways_without_long_way s tools segments net ids :
  mapM_res (λ pair, a ← py_int tools pair.1 ;
                    b ← py_int tools pair.2 ; Ok (a, b)) segments = Ok ids →
  NoDup (ids.*1 ++ ids.*2) →
  join_connected_ways s tools segments net = Ok (net, segments).
Proof.
  intros Hids Hnd. unfold join_connected_ways. rewrite Hids. simpl.
  unfold ways_appearing_multiple_times.
  rewrite (filter_none _ (ids.*1 ++ ids.*2)).
  - simpl. rewrite elements_empty. simpl.
    rewrite filter_all by (intros p _ [?%elem_of_nil|?%elem_of_nil]; done).
    apply mapM_res_inv, Forall2_length in Hids.
    by rewrite fst_zip by lia.
  - intros x _. pose proof (count_NoDup x _ Hnd). lia.
Qed.

(** A single pair: no way appears twice. *)
Lemma join_connected_ways_without_long_way_witness :
  join_connected_ways GetReturnsNone decimal_tools [("2", "3")] numbered_net
  = Ok (numbered_net, [("2", "3")]).
Proof.
  apply (join_connected_ways_without_long_way _ _ _ _ [(2%Z, 3%Z)]).
  - reflexivity.
  - apply (bool_decide_unpack _). vm_compute. exact I.
Defined.

(** ** The street splitter keeps the network consistent *)

Lemma intersection_indices_Ok (l r : list string) :
  (∀ nid, nid ∈ r → nid ∈ l) → ∃ ii, intersection_indices l r = Ok ii.
Proof.
  unfold intersection_indices. intros Hin.
  destruct (mapM_res_Ok (λ nid, py_index nid l) r) as (ii & ? & _);
    [|by exists ii].
  intros nid Hnid. unfold py_index.
  destruct (index_of_elem nid l (Hin nid Hnid)) as [i ->]. by exists i.
Qed.

Lemma split_pieces_elem l prev ii p x :
  p ∈ split_pieces l prev ii → x ∈ p → x ∈ l.
Proof.
  revert prev. induction ii as [|idx ii IH]; intros prev; simpl.
  - intros ->%list_elem_of_singleton Hx.
    eapply elem_of_sublist; [exact Hx | apply sublist_drop].
  - destruct (bool_decide (idx ≠ 0%nat) && bool_decide (idx ≠ length l));
      [|apply IH].
    intros [->|Hp]%elem_of_cons; [|by eapply IH].
    intros Hx. unfold slice in Hx.
    eapply elem_of_sublist; [|apply (sublist_drop _ prev)].
    eapply elem_of_sublist; [exact Hx | apply sublist_take].
Qed.

Lemma add_pieces_spec gen ty pieces k net :
  Inj (=) (=) gen → consistent net → fresh_from gen k net →
  (∀ p, p ∈ pieces → nodes_present net p) →
  ∃ net', add_pieces gen ty pieces k net = Ok (net', (k + length pieces)%nat)
    ∧ consistent net' ∧ fresh_from gen (k + length pieces) net'
    ∧ (∀ wid w, ways net !! wid = Some w → ways net' !! wid = Some w).
Proof.
  intros Hinj. revert k net.
  induction pieces as [|p pieces IH]; intros k net Hcons Hfresh Hpres.
  - exists net. simpl. rewrite Nat.add_0_r. done.
  - destruct Hcons as (Hkey & Hwkey & Hper & Hall).
    destruct (add_way_keeps_invariants (mkStreet (gen k) p ty) net)
      as (net1 & Hrun1 & Hways1 & Hdom1 & ? & ? & ? & ?); [done..| | |].
    { apply Hfresh. simpl. lia. }
    { apply Hpres. left. }
    destruct (IH (S k) net1) as (net' & Hrun & Hcons' & Hfresh' & Hkeep).
    + done.
    + intros j Hj. rewrite Hways1. simpl.
      rewrite lookup_insert_ne; [apply Hfresh; lia|].
      intros Heq%Hinj. lia.
    + intros q Hq nid Hnid. apply Hdom1. apply (Hpres q); [by right | done].
    + exists net'. simpl. rewrite Hrun1. simpl. rewrite Hrun.
      replace (k + S (length pieces))%nat with (S k + length pieces)%nat
        by lia.
      split; [done|]. split; [done|]. split; [done|].
      intros wid w Hw. apply Hkeep. rewrite Hways1. simpl.
      rewrite lookup_insert_ne; [done|]. intros <-.
      rewrite (Hfresh k) in Hw by lia. done.
Qed.

Lemma split_way_spec s gen w k net :
  Inj (=) (=) gen → consistent net → fresh_from gen k net →
  ways net !! way_id w = Some w →
  ∃ net' k', split_way s gen w k net = Ok (net', k')
    ∧ consistent net' ∧ fresh_from gen k' net'
    ∧ (∀ wid w', wid ≠ way_id w → ways net !! wid = Some w' →
         ways net' !! wid = Some w').
Proof.
  intros Hinj Hcons Hfresh Hw.
  assert (Hsame : ∃ net' k', Ok (net, k) = Ok (net', k')
            ∧ consistent net' ∧ fresh_from gen k' net'
            ∧ (∀ wid w', wid ≠ way_id w → ways net !! wid = Some w' →
                 ways net' !! wid = Some w')) by (by exists net, k).
  pose proof Hcons as (Hkey & Hwkey & Hper & Hall).
  destruct (intersection_nids_Ok net (nids w)) as [inids Hinids];
    [by eapply Hall|].
  destruct (intersection_nids_sublist _ _ _ Hinids) as [Hsub _].
  destruct (intersection_indices_Ok (nids w) inids) as [ii Hii].
  { intros nid Hnid. by eapply elem_of_sublist. }
  unfold split_way. rewrite Hinids. simpl. rewrite Hii. simpl.
  destruct ii as [|i ii]; [done|].
  destruct (left_unsplit (i :: ii) (length (nids w))); [done|].
  destruct (add_pieces_spec gen (wtype w)
              (split_pieces (nids w) 0 (i :: ii)) k net)
    as (net1 & -> & Hcons1 & Hfresh1 & Hkeep1); [done..| |].
  { intros p Hp nid Hnid. apply (Hall _ _ Hw).
    by eapply split_pieces_elem. }
  simpl. destruct Hcons1 as (Hkey1 & Hwkey1 & Hper1 & Hall1).
  destruct (remove_way_keeps_invariants s (way_id w) w net1)
    as (net2 & -> & Hways2 & ? & ? & ?); [done..|by apply Hkeep1|].
  simpl. eexists _, _. split; [done|]. split; [|split].
  - repeat split; [done| |done..].
    intros wid w'. rewrite Hways2. intros [_ ?]%lookup_delete_Some.
    by apply Hwkey1.
  - intros j Hj. rewrite Hways2.
    apply lookup_delete_None. right. by apply Hfresh1.
  - intros wid w' Hne Hw'. rewrite Hways2, lookup_delete_ne by done.
    by apply Hkeep1.
Qed.

Lemma split_streets_from_spec s gen snapshot k net :
  Inj (=) (=) gen → consistent net → fresh_from gen k net →
  NoDup (way_id <$> snapshot) →
  (∀ w, w ∈ snapshot → ways net !! way_id w = Some w) →
  ∃ net' k', split_streets_from s gen snapshot k net = Ok (net', k')
    ∧ consistent net' ∧ fresh_from gen k' net'.
Proof.
  intros Hinj. revert k net.
  induction snapshot as [|w rest IH]; intros k net Hcons Hfresh Hnd Hst.
  - by exists net, k.
  - rewrite fmap_cons in Hnd. apply NoDup_cons in Hnd as [Hw Hnd].
    destruct (split_way_spec s gen w k net)
      as (net1 & k1 & Hrun1 & Hcons1 & Hfresh1 & Hkeep); [done..| |].
    { apply Hst. left. }
    destruct (IH k1 net1) as (net' & k' & Hrun & ? & ?); [done..| |].
    + intros w' Hw'. apply Hkeep; [|apply Hst; by right].
      intros Heq. apply Hw. rewrite <- Heq.
      apply list_elem_of_fmap. by exists w'.
    + exists net', k'. simpl. rewrite Hrun1. simpl. by rewrite Hrun.
Qed.

(** In a consistent network, with a supply of distinct ids that are not
    in use, [split_streets] returns, and the network it returns is
    consistent: in particular every node lists the sub-ways it is on. *)
Theorem split_streets_keeps_consistent s gen k net :
  Inj (=) (=) gen → consistent net → fresh_from gen k net →
  ∃ net' k', split_streets s gen k net = Ok (net', k')
    ∧ consistent net' ∧ set_integrity net' ∧ fresh_from gen k' net'.
Proof.
  intros Hinj Hcons Hfresh.
  pose proof Hcons as (_ & Hwkey & _ & _).
  destruct (split_streets_from_spec s gen (get_list (ways net)) k net)
    as (net' & k' & Hrun & Hcons' & Hfresh'); [done..| | |].
  - rewrite way_ids_get_list by done. apply NoDup_fst_map_to_list.
  - intros w Hin. unfold get_list in Hin.
    apply list_elem_of_fmap in Hin as ([i w'] & -> & Hin).
    apply elem_of_map_to_list in Hin. simpl. by rewrite (Hwkey i w').
  - exists net', k'. split; [done|]. split; [done|]. split; [|done].
    apply per_occurrence_set_integrity. apply Hcons'.
Qed.

Lemma example_ids_inj : Inj (=) (=) example_ids.
Proof.
  intros j k H. unfold example_ids in H.
  by apply (inj (String.app "new")), (inj pretty) in H.
Qed.

Lemma example_ids_fresh k net :
  map_Forall (λ wid _, String.length wid < 3)%nat (ways net) →
  fresh_from example_ids k net.
Proof.
  intros Hshort j _. destruct (ways net !! example_ids j) as [w|] eqn:Hw;
    [|done].
  apply Hshort in Hw. unfold example_ids in Hw.
  rewrite string_length_app in Hw. simpl in Hw. lia.
Qed.

(** [junction_net] is consistent and its way ids have one letter, while
    the ids of [example_ids] start with ["new"]. *)
Lemma split_streets_keeps_consistent_witness :
  ∃ net' k', split_streets GetReturnsNone example_ids 0 junction_net
             = Ok (net', k')
    ∧ consistent net' ∧ set_integrity net'.
Proof.
  destruct (split_streets_keeps_consistent GetReturnsNone example_ids 0
              junction_net) as (net' & k' & Hrun & Hcons & Hset & _).
  - apply example_ids_inj.
  - repeat split; apply (bool_decide_unpack _); vm_compute; exact I.
  - apply example_ids_fresh. apply (bool_decide_unpack _). vm_compute. exact I.
  - by exists net', k'.
Defined.

(** ** The two-way cleaner: one fusion *)

Lemma elem_of_combined_nids (x : string) l1 l2 idx1 idx2 :
  x ∈ combined_nids l1 l2 idx1 idx2 → x ∈ l1 ∨ x ∈ l2.
Proof.
  unfold combined_nids, reversed_down_to_1, all_but_last, reversed_from_1.
  destruct idx1, idx2; rewrite elem_of_app, ?elem_of_reverse;
    intros [H|H]; eauto using elem_of_sublist, sublist_drop, sublist_take.
Qed.

Lemma listed_way_stored net nid n wid :
  well_keyed net → per_occurrence net →
  nodes net !! nid = Some n → wid ∈ way_ids n →
  ∃ w, ways net !! wid = Some w ∧ nid ∈ nids w.
Proof.
  intros Hkey Hper Hn Hin.
  destruct (per_occurrence_set_integrity net Hper nid n Hn wid) as [Hinc _].
  specialize (Hinc Hin). unfold incident in Hinc.
  rewrite (Hkey nid n Hn) in Hinc.
  destruct (ways net !! wid) as [w|]; [by exists w | done].
Qed.

(** The cleaner at a node of a consistent network that lists two different
    ways, with a new id at hand: the fusion returns; the two ways are
    deleted and one way is added under the new id, a footway whose
    sequence is the one [combined_nids] gives; the other ways are kept, and
    the network is consistent again. *)
Theorem fuse_at_keeps_consistent s gen nid node wid1 wid2 k net :
  consistent net → ways net !! gen k = None →
  nodes net !! nid = Some node → way_ids node = [wid1; wid2] →
  wid1 ≠ wid2 →
  ∃ net' w1 w2 idx1 idx2,
    fuse_at s gen node wid1 wid2 k net = Ok (net', S k)
    ∧ ways net !! wid1 = Some w1 ∧ ways net !! wid2 = Some w2
    ∧ index_of nid (nids w1) = Some idx1 ∧ index_of nid (nids w2) = Some idx2
    ∧ ways net'
      = delete wid2
          (delete wid1
             (<[gen k := mkStreet (gen k)
                           (combined_nids (nids w1) (nids w2) idx1 idx2)
                           (Some "footway")]> (ways net)))
    ∧ consistent net'.
Proof.
  intros (Hkey & Hwkey & Hper & Hall) Hfresh Hn Hids Hne.
  assert (Hid : node_id node = nid) by (by apply Hkey).
  destruct (listed_way_stored net nid node wid1) as (w1 & Hw1 & Hin1);
    [done..|rewrite Hids; left|].
  destruct (listed_way_stored net nid node wid2) as (w2 & Hw2 & Hin2);
    [done..|rewrite Hids; right; left|].
  destruct (index_of_elem nid (nids w1) Hin1) as [idx1 Hidx1].
  destruct (index_of_elem nid (nids w2) Hin2) as [idx2 Hidx2].
  set (new := mkStreet (gen k) (combined_nids (nids w1) (nids w2) idx1 idx2)
                (Some "footway")).
  destruct (add_way_keeps_invariants new net)
    as (net1 & Hrun1 & Hways1 & _ & Hkey1 & Hwkey1 & Hper1 & Hall1);
    [done..| |].
  { intros x Hx. simpl in Hx.
    apply elem_of_combined_nids in Hx as [Hx|Hx];
      [by apply (Hall wid1 w1) | by apply (Hall wid2 w2)]. }
  assert (Hg1 : gen k ≠ wid1) by (intros Heq; by rewrite Heq, Hw1 in Hfresh).
  assert (Hg2 : gen k ≠ wid2) by (intros Heq; by rewrite Heq, Hw2 in Hfresh).
  destruct (remove_way_keeps_invariants s wid1 w1 net1)
    as (net2 & Hrun2 & Hways2 & Hkey2 & Hper2 & Hall2); [done..| |].
  { rewrite Hways1. simpl. by rewrite lookup_insert_ne. }
  destruct (remove_way_keeps_invariants s wid2 w2 net2)
    as (net3 & Hrun3 & Hways3 & Hkey3 & Hper3 & Hall3); [done..| |].
  { rewrite Hways2, Hways1. simpl.
    by rewrite lookup_delete_ne, lookup_insert_ne. }
  exists net3, w1, w2, idx1, idx2. split.
  { unfold fuse_at, py_index. rewrite (get_way_stored s _ _ _ Hw1). simpl.
    rewrite (get_way_stored s _ _ _ Hw2). simpl.
    rewrite Hid, Hidx1. simpl. rewrite Hidx2. simpl.
    fold new. rewrite Hrun1. simpl. rewrite Hrun2. simpl.
    by rewrite Hrun3. }
  repeat (split; [done|]). split; [by rewrite Hways3, Hways2, Hways1|].
  repeat split; [done| |done..].
  intros wid w. rewrite Hways3, Hways2.
  intros [_ [_ ?]%lookup_delete_Some]%lookup_delete_Some. by apply Hwkey1.
Qed.

(** The node ["s"] of [through_net] lists the ways ["w1"] and ["w2"]. *)
Lemma fuse_at_keeps_consistent_witness :
  ∃ net', fuse_at GetReturnsNone example_ids
            (mkNode "s" 0 1 ["w1"; "w2"] 3) "w1" "w2" 0 through_net
          = Ok (net', 1%nat)
    ∧ consistent net'.
Proof.
  destruct (fuse_at_keeps_consistent GetReturnsNone example_ids "s"
              (mkNode "s" 0 1 ["w1"; "w2"] 3) "w1" "w2" 0 through_net)
    as (net' & w1 & w2 & idx1 & idx2 & Hrun & _ & _ & _ & _ & _ & Hcons).
  - repeat split; apply (bool_decide_unpack _); vm_compute; exact I.
  - reflexivity.
  - reflexivity.
  - reflexivity.
  - discriminate.
  - by exists net'.
Defined.

(** ** The polyline simplifier leaves the nodes as they are *)

(** What a call of [simplify] returns for a stored way of at least two
    nodes: the indices left on the heap, sorted, between the two ends. *)
Lemma simplify_run s wid w t net :
  well_keyed net → ways net !! wid = Some w →
  nodes_present net (nids w) → (2 ≤ length (nids w))%nat →
  ∃ heap,
    heap ⊆+ interior_indices (length (nids w))
    ∧ (heap = []
       ∨ above_threshold (length heap) (length (nids w)) t = false)
    ∧ simplify s wid t net
      = Ok (set_ways
              (<[wid := set_nids
                          ((λ i, nids w !!! i)
                             <$> (0%nat :: merge_sort Nat.le heap
                                    ++ [(length (nids w) - 1)%nat]))
                          w]> (ways net)) net).
Proof.
  intros Hkey Hw Hpres HN.
  destruct (mapM_res_Ok (deref_node net) (nids w)) as (ns & Hns & Hall).
  { intros nid Hin. destruct (Hpres nid Hin) as [n Hn]. exists n.
    unfold deref_node. by rewrite Hn. }
  pose proof (deref_nodes_ids _ _ _ Hkey Hall) as Hids.
  assert (Hlen : length ns = length (nids w))
    by (by rewrite <- Hids, length_fmap).
  set (latlngs := location <$> ns).
  assert (Hlat : length latlngs = length (nids w))
    by (unfold latlngs; by rewrite length_fmap).
  set (groups := interior_indices (length latlngs)).
  destruct (build_triangles_Ok latlngs groups ∅) as (d & Hd & Hrange & Hkeys).
  { intros i Hi. apply elem_of_seq in Hi. lia. }
  { intros i tr. by rewrite lookup_empty. }
  destruct (simplify_loop_spec (S (length groups)) latlngs t groups d
              Hrange Hkeys) as (heap & Hloop & Hsub & _ & Hexit).
  specialize (Hexit (Nat.lt_succ_diag_r _)).
  exists heap. unfold groups in Hsub. rewrite Hlat in Hsub, Hexit.
  split; [done|]. split; [done|].
  set (l := merge_sort Nat.le heap).
  assert (Hin : ∀ idx, idx ∈ l →
            (1 ≤ idx < 1 + (length (nids w) - 2))%nat).
  { intros idx Hidx. unfold l in Hidx. rewrite merge_sort_Permutation in Hidx.
    apply (elem_of_submseteq _ _ _ Hidx), elem_of_seq in Hsub. lia. }
  destruct (lookup_lt_is_Some_2 ns 0%nat) as [n0 Hn0]; [lia|].
  assert (Hlast : is_Some (last ns)).
  { rewrite last_lookup. apply lookup_lt_is_Some_2. lia. }
  destruct Hlast as [nl Hnl].
  set (f := λ i : nat, nids w !!! i).
  unfold simplify, deref_way. rewrite Hw.
  cbn -[simplify_loop merge_sort]. rewrite Hns.
  cbn -[simplify_loop merge_sort]. fold latlngs. fold groups. rewrite Hd.
  cbn -[simplify_loop merge_sort].
  rewrite bool_decide_eq_false_2 by lia. rewrite Hloop.
  cbn -[simplify_loop merge_sort].
  rewrite (py_nth_Ok _ _ _ Hn0). cbn -[simplify_loop merge_sort]. fold l.
  rewrite collect_ids_Ok by (intros idx Hidx; apply Hin in Hidx; lia).
  cbn -[simplify_loop merge_sort]. unfold py_last. rewrite Hnl.
  cbn -[simplify_loop merge_sort].
  rewrite Hids, fmap_app.
  assert (node_id n0 = f 0%nat) as ->.
  { symmetry. apply list_lookup_total_correct.
    by rewrite <- Hids, list_lookup_fmap, Hn0. }
  assert (node_id nl = f (length (nids w) - 1)%nat) as ->; [|done].
  symmetry. apply list_lookup_total_correct.
  rewrite last_lookup, Hlen in Hnl.
  assert (H' : (node_id <$> ns) !! pred (length (nids w))
               = Some (node_id nl)) by (by rewrite list_lookup_fmap, Hnl).
  rewrite Hids in H'. by rewrite Nat.sub_1_r.
Qed.

Lemma shorter_list_misses (l k : list string) :
  NoDup k → (length l < length k)%nat → ∃ x, x ∈ k ∧ x ∉ l.
Proof.
  intros Hnd Hlen.
  destruct (decide (Forall (λ x, x ∈ l) k)) as [Hall|Hex].
  - rewrite Forall_forall in Hall.
    apply (NoDup_submseteq _ _ Hnd), submseteq_length in Hall. lia.
  - apply not_Forall_Exists in Hex; [|apply _].
    apply Exists_exists in Hex as (x & Hx & Hout). by exists x.
Qed.

(** [simplify] changes the sequence of the way and nothing else: in a
    consistent network, for a way of three or more nodes that visits no
    node twice and a threshold below one, the call returns and takes at
    least one node out of the way; that node stays in the store and still
    lists the way, so that afterwards the lists of the nodes no longer
    agree with the ways. *)
Theorem simplify_leaves_node_listed s wid w t net :
  consistent net → ways net !! wid = Some w → NoDup (nids w) →
  (3 ≤ length (nids w))%nat → (t < 1)%Q →
  ∃ net' nid n,
    simplify s wid t net = Ok net'
    ∧ nid ∈ nids w
    ∧ nodes net' !! nid = Some n ∧ wid ∈ way_ids n
    ∧ ¬ incident net' nid wid
    ∧ ¬ set_integrity net'.
Proof.
  intros (Hkey & Hwkey & Hper & Hall) Hw Hnd HN Ht.
  destruct (simplify_run s wid w t net) as (heap & Hsub & Hexit & Hrun);
    [done | done | by eapply Hall | lia |].
  set (l := (λ i, nids w !!! i)
              <$> (0%nat :: merge_sort Nat.le heap
                     ++ [(length (nids w) - 1)%nat])) in *.
  assert (Hglen : length (interior_indices (length (nids w)))
                  = (length (nids w) - 2)%nat).
  { unfold interior_indices. rewrite length_seq. lia. }
  assert (Hshort : (length heap < length (nids w) - 2)%nat).
  { apply submseteq_length in Hsub. rewrite Hglen in Hsub.
    destruct Hexit as [->|Hexit]; [simpl; lia|].
    destruct (decide (length heap = length (nids w) - 2)%nat) as [Heq|];
      [|lia].
    exfalso. apply above_threshold_false in Hexit; [|lia].
    rewrite Heq in Hexit.
    replace (length (nids w) - 2 + 2)%nat with (length (nids w)) in Hexit
      by lia.
    assert (Hpos : (0 < inject_Z (Z.of_nat (length (nids w))))%Q)
      by (rewrite <- (Zlt_Qlt 0); lia).
    revert Hexit Hpos. generalize (inject_Z (Z.of_nat (length (nids w)))).
    intros q Hexit Hpos. nra. }
  assert (Hl : (length l < length (nids w))%nat).
  { unfold l. rewrite length_fmap. simpl.
    rewrite length_app, merge_sort_Permutation. simpl. lia. }
  destruct (shorter_list_misses l (nids w) Hnd Hl) as (nid & Hin & Hout).
  destruct (Hall wid w Hw nid Hin) as [n Hn].
  eexists _, nid, n. split; [exact Hrun|]. split; [done|].
  split; [done|].
  assert (Hlisted : wid ∈ way_ids n).
  { destruct (decide (wid ∈ way_ids n)) as [|Hno]; [done|].
    apply occurrences_zero in Hno.
    rewrite (Hper nid n Hn wid), Hw, (Hkey nid n Hn) in Hno.
    by apply occurrences_zero in Hno. }
  split; [done|].
  assert (Hinc : ¬ incident
                     (set_ways (<[wid := set_nids l w]> (ways net)) net)
                     nid wid).
  { unfold incident. simpl. by rewrite lookup_insert_eq. }
  split; [done|].
  intros Hset. apply Hinc.
  specialize (Hset nid n Hn wid). rewrite (Hkey nid n Hn) in Hset.
  by apply Hset.
Qed.

(** The way of [polyline_net], of five nodes, with the default
    threshold. *)
Lemma simplify_leaves_node_listed_witness :
  ∃ net', simplify GetReturnsNone "w" default_threshold polyline_net = Ok net'
    ∧ ¬ set_integrity net'.
Proof.
  destruct (simplify_leaves_node_listed GetReturnsNone "w"
              (mkStreet "w" ["p0"; "p1"; "p2"; "p3"; "p4"] None)
              default_threshold polyline_net)
    as (net' & nid & n & Hrun & _ & _ & _ & _ & Hno).
  - repeat split; apply (bool_decide_unpack _); vm_compute; exact I.
  - reflexivity.
  - apply (bool_decide_unpack _). vm_compute. exact I.
  - simpl. lia.
  - reflexivity.
  - by exists net'.
Defined.
